(** * Runtime round-execution pipeline: block headers, committee node, transaction pool

    A shallow embedding of four Go files of the repository,

    - [go/roothash/api/block/header.go]        (module [block]),
    - [go/worker/compute/committee/node.go]    (module [committee]),
    - [go/runtime/txpool/txpool.go]            (module [txpool]),
    - [go/staking/api/commission.go]           (module [staking]),

    followed by the properties established about them.

    Conventions.  Fixed-width unsigned integers are values of [Z] (or [N]) with
    the wrap-around written out where the code computes with them.  A Go
    [error] return is a [result Error _]; a run-time panic (nil dereference,
    index out of range, failed type assertion, explicit [panic]) is the
    [Panic] outcome of the effect monad [Eff].  Calls into packages that are
    not part of these files (hashing, CBOR, signatures, the runtime host, the
    storage backend, the P2P transport) are fields of a dependency class.
    Everything a function sends to another goroutine or component is recorded
    as an event of the function's trace. *)

From Stdlib Require Import ZArith List Bool Lia.
From stdpp Require Import base option list countable gmap strings.

Local Open Scope Z_scope.

(** ** Shared vocabulary *)

(** A byte slice ([[]byte]). *)
Definition Bytes := list Byte.byte.

(** [hash.Hash] is a 32-byte array; it is kept as the 256-bit number it
    spells.  The hashes of the source are the numbers below [2 ^ 256]: a
    property that depends on a digest having 32 bytes states this bound. *)
Definition Hash := N.

(** [common.Namespace] is a 32-byte array as well. *)
Definition Namespace := N.

(** Seconds or nanoseconds since the epoch, depending on the field. *)
Definition Time := Z.

(** The Go errors the three files create or pass on. *)
Inductive Error :=
| ErrVerifyFailed                (* signature.ErrVerifyFailed *)
| ErrInvalidVersion              (* block.ErrInvalidVersion *)
| errSeenNewerBlock
| errWorkerAborted
| errIncomatibleHeader
| errIncorrectRole
| errIncorrectState
| ErrContext                     (* ctx.Err() *)
| ErrMsg (msg : string)          (* errors.New / fmt.Errorf *)
| ErrWrap (msg : string) (cause : Error).   (* fmt.Errorf("...: %w", err) *)

Inductive result (E A : Type) :=
| Ok (a : A)
| Err (e : E).
Arguments Ok {E A} a.
Arguments Err {E A} e.

Definition is_ok {E A} (r : result E A) : bool :=
  match r with Ok _ => true | Err _ => false end.

(** *** The effect monad

    State of type [S], a trace of events of type [E], and panics. *)
Inductive Outcome (A : Type) :=
| Done (a : A)
| Panic (msg : string).
Arguments Done {A} a.
Arguments Panic {A} msg.

Definition Eff (S E A : Type) : Type := S → Outcome (A * S * list E).

Section Eff.
Context {S E : Type}.

Definition eff_ret {A} (a : A) : Eff S E A := λ s, Done (a, s, []).

Definition eff_bind {A B} (k : A → Eff S E B) (m : Eff S E A) : Eff S E B :=
  λ s, match m s with
       | Done (a, s1, tr1) =>
           match k a s1 with
           | Done (b, s2, tr2) => Done (b, s2, tr1 ++ tr2)
           | Panic msg => Panic msg
           end
       | Panic msg => Panic msg
       end.

Definition get : Eff S E S := λ s, Done (s, s, []).
Definition put (s : S) : Eff S E unit := λ _, Done (tt, s, []).
Definition modify (f : S → S) : Eff S E unit := λ s, Done (tt, f s, []).
Definition emit (e : E) : Eff S E unit := λ s, Done (tt, s, [e]).
Definition panic {A} (msg : string) : Eff S E A := λ _, Panic msg.
End Eff.

#[global] Instance Eff_ret {S E} : MRet (Eff S E) := @eff_ret S E.
#[global] Instance Eff_bind {S E} : MBind (Eff S E) := @eff_bind S E.

(** ** [go/roothash/api/block/header.go] *)
Module block.

(** [HeaderType] *)
Inductive HeaderType :=
| Invalid            (* 0 *)
| Normal             (* 1 *)
| RoundFailed        (* 2 *)
| EpochTransition    (* 3 *)
| Suspended.         (* 4 *)

(** [signature.Signature]: a public key and the raw signature bytes. *)
Record Signature := mkSignature {
  PublicKey : N;
  RawSignature : N;
}.

(** [storage.RootType] *)
Inductive RootType :=
| RootTypeInvalid
| RootTypeState
| RootTypeIO.

(** [storage.Root] *)
Record Root := mkRoot {
  root_Namespace : Namespace;
  root_Version : Z;
  root_Type : RootType;
  root_Hash : Hash;
}.

(** [storage.ReceiptBody] *)
Record ReceiptBody := mkReceiptBody {
  rb_Version : Z;                 (* uint16 *)
  rb_Namespace : Namespace;
  rb_Round : Z;                   (* uint64 *)
  rb_RootTypes : list RootType;
  rb_Roots : list Hash;
}.

(** [Header] *)
Record Header := mkHeader {
  Version : Z;                    (* uint16 *)
  Namespace_ : Namespace;
  Round : Z;                      (* uint64 *)
  Timestamp : Z;                  (* uint64, POSIX time *)
  HeaderType_ : HeaderType;
  PreviousHash : Hash;
  IORoot : Hash;
  StateRoot : Hash;
  MessagesHash : Hash;
  StorageSignatures : list Signature;
}.

(** [block.Block]; only the header is used by the files embedded here. *)
Record Block := mkBlock {
  Header_ : Header;
}.

#[global] Instance HeaderType_eq_dec : EqDecision HeaderType.
Proof. solve_decision. Defined.
#[global] Instance RootType_eq_dec : EqDecision RootType.
Proof. solve_decision. Defined.
#[global] Instance Signature_eq_dec : EqDecision Signature.
Proof. solve_decision. Defined.
#[global] Instance Header_eq_dec : EqDecision Header.
Proof. solve_decision. Defined.

(** What the file takes from the packages [hash], [cbor], [signature] and
    [storage]. *)
Class Deps := {
  (** [hash.NewFrom(h)]: the digest of the canonical (CBOR) encoding of a header *)
  NewFrom : Header → Hash;
  (** [cbor.Marshal] at [storage.ReceiptBody] *)
  cbor_Marshal : ReceiptBody → Bytes;
  (** [storage.ReceiptSignatureContext] *)
  ReceiptSignatureContext : string;
  (** [signature.VerifyManyToOne(context, message, sigs)] *)
  VerifyManyToOne : string → Bytes → list Signature → bool;
}.

Section header.
Context `{Deps}.

(** [func (h *Header) EncodedHash() hash.Hash] *)
Definition EncodedHash (h : Header) : Hash := NewFrom h.

(** [func (h *Header) IsParentOf(child *Header) bool].  As in the source,
    the receiver's [PreviousHash] is compared with the child's hash. *)
Definition IsParentOf (h child : Header) : bool :=
  let childHash := EncodedHash child in
  N.eqb (PreviousHash h) childHash.

(** The copy of a header whose [StorageSignatures] is the empty slice. *)
Definition clearSignatures (h : Header) : Header :=
  {| Version := Version h; Namespace_ := Namespace_ h; Round := Round h;
     Timestamp := Timestamp h; HeaderType_ := HeaderType_ h;
     PreviousHash := PreviousHash h; IORoot := IORoot h;
     StateRoot := StateRoot h; MessagesHash := MessagesHash h;
     StorageSignatures := [] |}.

(** [func (h *Header) MostlyEqual(cmp *Header) bool] *)
Definition MostlyEqual (h cmp : Header) : bool :=
  let a := clearSignatures h in
  let b := clearSignatures cmp in
  let aHash := EncodedHash a in
  let bHash := EncodedHash b in
  N.eqb aHash bHash.

(** [func (h *Header) StorageRoots() []storage.Root] *)
Definition StorageRoots (h : Header) : list Root :=
  [ {| root_Namespace := Namespace_ h; root_Version := Round h;
       root_Type := RootTypeIO; root_Hash := IORoot h |};
    {| root_Namespace := Namespace_ h; root_Version := Round h;
       root_Type := RootTypeState; root_Hash := StateRoot h |} ].

(** [func (h *Header) RootsForStorageReceipt() []hash.Hash] *)
Definition RootsForStorageReceipt (h : Header) : list Hash :=
  [IORoot h; StateRoot h].

(** [func (h *Header) RootTypesForStorageReceipt() []storage.RootType] *)
Definition RootTypesForStorageReceipt (h : Header) : list RootType :=
  [RootTypeIO; RootTypeState].

(** The receipt body rebuilt by [VerifyStorageReceiptSignatures]. *)
Definition receiptBodyOf (h : Header) : ReceiptBody :=
  {| rb_Version := 1;
     rb_Namespace := Namespace_ h;
     rb_Round := Round h;
     rb_RootTypes := RootTypesForStorageReceipt h;
     rb_Roots := RootsForStorageReceipt h |}.

(** [func (h *Header) VerifyStorageReceiptSignatures() error] *)
Definition VerifyStorageReceiptSignatures (h : Header) : result Error unit :=
  let receiptBody := receiptBodyOf h in
  if negb (VerifyManyToOne ReceiptSignatureContext (cbor_Marshal receiptBody)
             (StorageSignatures h))
  then Err ErrVerifyFailed
  else Ok tt.

(** The loop of [VerifyStorageReceipt]: [for idx, v := range roots], with
    [types] and the receipt's slices read at the same index. *)
Fixpoint verifyRootsLoop (roots : list Hash) (types : list RootType)
    (rtypes : list RootType) (rroots : list Hash) : Outcome (result Error unit) :=
  match roots with
  | [] => Done (Ok tt)
  | v :: roots' =>
      match types, rtypes, rroots with
      | ty :: types', rty :: rtypes', rv :: rroots' =>
          if negb (bool_decide (ty = rty))
          then Done (Err (ErrMsg "roothash: receipt has unexpected root types"))
          else if negb (N.eqb v rv)
          then Done (Err (ErrMsg "roothash: receipt has unexpected roots"))
          else verifyRootsLoop roots' types' rtypes' rroots'
      | _, _, _ => Panic "index out of range"
      end
  end.

(** [func (h *Header) VerifyStorageReceipt(receipt *storage.ReceiptBody) error] *)
Definition VerifyStorageReceipt (h : Header) (receipt : ReceiptBody)
    : Outcome (result Error unit) :=
  if negb (N.eqb (rb_Namespace receipt) (Namespace_ h))
  then Done (Err (ErrMsg "roothash: receipt has unexpected namespace"))
  else if negb (Z.eqb (rb_Round receipt) (Round h))
  then Done (Err (ErrMsg "roothash: receipt has unexpected round"))
  else
    let roots := RootsForStorageReceipt h in
    let types := RootTypesForStorageReceipt h in
    if negb (Nat.eqb (length (rb_Roots receipt)) (length roots))
    then Done (Err (ErrMsg "roothash: receipt has unexpected number of roots"))
    else if negb (Nat.eqb (length (rb_RootTypes receipt)) (length types))
    then Done (Err (ErrMsg "roothash: receipt has unexpected number of root types"))
    else verifyRootsLoop roots types (rb_RootTypes receipt) (rb_Roots receipt).
End header.

End block.


(** ** [go/worker/compute/committee/node.go] *)
Module committee.
Import block.

(** The names of the node states ([StateName] of [state.go]). *)
Inductive StateName :=
| NotReady
| WaitingForBatch
| WaitingForBlock
| WaitingForEvent
| ProcessingBatch
| WaitingForFinalize.

#[global] Instance StateName_eq_dec : EqDecision StateName.
Proof. solve_decision. Defined.

(** [runtime.Batch] *)
Definition Batch := list Bytes.

(** [opentracing.SpanContext]; [None] is the nil interface. *)
Definition SpanContext := option nat.

(** [storage.WriteLog] *)
Definition WriteLog := list (Bytes * Bytes).

(** The node states, with the fields [node.go] reads and writes.  [proc]
    stands for the pair [(cancel, done)] of a batch-processing context: the
    cancel function and the result channel are created together by
    [startProcessingBatchLocked] and identify one processing attempt. *)
Inductive NodeState :=
| StateNotReady
| StateWaitingForBatch
| StateWaitingForBlock (batch : Batch) (batchSpanCtx : SpanContext) (header : Header)
| StateWaitingForEvent (batch : Batch) (batchSpanCtx : SpanContext)
| StateProcessingBatch (batch : Batch) (batchSpanCtx : SpanContext)
    (batchStartTime : Time) (proc : nat)
| StateWaitingForFinalize (batchStartTime : Time).

(** [func (s NodeState) Name() StateName] *)
Definition Name (s : NodeState) : StateName :=
  match s with
  | StateNotReady => NotReady
  | StateWaitingForBatch => WaitingForBatch
  | StateWaitingForBlock _ _ _ => WaitingForBlock
  | StateWaitingForEvent _ _ => WaitingForEvent
  | StateProcessingBatch _ _ _ _ => ProcessingBatch
  | StateWaitingForFinalize _ => WaitingForFinalize
  end.

(** [committee.EpochSnapshot], through the methods [node.go] calls. *)
Record EpochSnapshot := mkEpochSnapshot {
  IsComputeMember : bool;
  IsComputeBackupWorker : bool;
  IsMergeMember : bool;
  GetComputeCommitteeID : Hash;
}.

(** [commitment.ComputeResultsHeader], the roots [node.go] reads. *)
Record ComputeResultsHeader := mkComputeResultsHeader {
  crh_IORoot : Hash;
  crh_StateRoot : Hash;
}.

(** [protocol.ComputedBatch] *)
Record ComputedBatch := mkComputedBatch {
  cb_Header : ComputeResultsHeader;
  cb_IOWriteLog : WriteLog;
  cb_StateWriteLog : WriteLog;
  cb_RakSig : N;
}.

(** [commitment.ComputeBody]; [None] is the zero value of [StorageReceipt]. *)
Record ComputeBody := mkComputeBody {
  CommitteeID : Hash;
  body_Header : ComputeResultsHeader;
  RakSig : N;
  StorageReceipt : option Signature;
}.

(** [storage.ApplyOp] *)
Record ApplyOp := mkApplyOp {
  op_Root : Hash;
  op_ExpectedNewRoot : Hash;
  op_WriteLog : WriteLog;
}.

(** [storage.MKVSReceipt]: a signed blob. *)
Record SignedReceipt := mkSignedReceipt {
  sr_Blob : Bytes;
  sr_Signature : Signature;
}.

(** [storage.MKVSReceiptBody] *)
Record MKVSReceiptBody := mkMKVSReceiptBody {
  mrb_Version : Z;
  mrb_Roots : list Hash;
}.

(** [commitment.ComputeCommitment]: the signed body. *)
Record ComputeCommitment := mkComputeCommitment {
  cc_Body : ComputeBody;
  cc_Signature : N;
}.

(** [roothash.Event], the one field [node.go] reads. *)
Record RoothashEvent := mkRoothashEvent {
  ComputeDiscrepancyDetected : option Hash;   (* the committee ID *)
}.

(** [p2p.Message], the batch dispatch [HandlePeerMessage] looks at. *)
Record Message := mkMessage {
  LeaderBatchDispatch : option (Batch * Header);
}.

(** The part of the common committee node ([n.commonNode]) used here. *)
Record CommonNode := mkCommonNode {
  RuntimeID : Namespace;
  CurrentBlock : option Block;        (* nil until the first block *)
  Group_EpochSnapshot : EpochSnapshot;  (* Group.GetEpochSnapshot() *)
}.

(** [Node] *)
Record Node := mkNode {
  commonNode : CommonNode;
  hasMergeNode : bool;                (* n.mergeNode != nil *)
  state : NodeState;
  nextProc : nat;                     (* allocator of processing contexts *)
}.

Definition set_state (n : Node) (st : NodeState) : Node :=
  {| commonNode := commonNode n; hasMergeNode := hasMergeNode n;
     state := st; nextProc := nextProc n |}.

Definition set_nextProc (n : Node) (p : nat) : Node :=
  {| commonNode := commonNode n; hasMergeNode := hasMergeNode n;
     state := state n; nextProc := p |}.

Definition set_commonNode (n : Node) (c : CommonNode) : Node :=
  {| commonNode := c; hasMergeNode := hasMergeNode n;
     state := state n; nextProc := nextProc n |}.

(** What the node hands to other goroutines and components.  Logging and
    the Prometheus metrics are left out. *)
Inductive Event :=
| EvStateTransition (st : NodeState)          (* n.stateTransitions.Broadcast(state) *)
| EvBumpReselect                              (* n.bumpReselect() *)
| EvMakeRequest (proc : nat) (calls : Batch) (blk : Block)
                                              (* the goroutine calling workerHost.MakeRequest *)
| EvCancel (proc : nat)                       (* state.cancel() *)
| EvApplyBatch (ops : list ApplyOp)           (* Storage.ApplyBatch *)
| EvPublishComputeFinished (sc : SpanContext) (c : ComputeCommitment)
| EvHandleResultsFromComputeWorker (sc : SpanContext) (c : ComputeCommitment).
                                              (* n.mergeNode.HandleResultsFromComputeWorkerLocked *)

(** What [node.go] takes from the rest of the repository.  The table
    [validStateTransitions] is declared in [state.go]. *)
Class Deps := {
  validStateTransitions : StateName → list StateName;
  Now : Time;                                             (* time.Now() *)
  EmptyHash : Hash;                                       (* hash.Hash.Empty() *)
  byzantineMaybeInjectDiscrepancy : Batch → Batch;
  Storage_ApplyBatch : list ApplyOp → result Error SignedReceipt;
  SignedReceipt_Open : SignedReceipt → result Error MKVSReceiptBody;
  ComputeBody_VerifyStorageReceipt : ComputeBody → MKVSReceiptBody → result Error unit;
  SignComputeCommitment : ComputeBody → result Error ComputeCommitment;
  Group_PublishComputeFinished : SpanContext → ComputeCommitment → result Error unit;
}.

Section node.
Context `{block.Deps} `{Deps}.

Abbreviation M := (Eff Node Event).

(** [func (n *Node) transitionLocked(state NodeState)] *)
Definition transitionLocked (st : NodeState) : M unit :=
  n ← get;
  let dests := validStateTransitions (Name (state n)) in
  let valid := existsb (λ dest, bool_decide (dest = Name st)) dests in
  if negb valid then panic "invalid state transition"
  else
    put (set_state n st);;
    emit (EvStateTransition st);;
    emit EvBumpReselect.

(** [func (n *Node) HandleEpochTransitionLocked(epoch *committee.EpochSnapshot)] *)
Definition HandleEpochTransitionLocked (epoch : EpochSnapshot) : M unit :=
  if IsComputeMember epoch
  then transitionLocked StateWaitingForBatch
  else transitionLocked StateNotReady.

(** [func (n *Node) startProcessingBatchLocked(batch, batchSpanCtx)] *)
Definition startProcessingBatchLocked (batch : Batch) (batchSpanCtx : SpanContext)
    : M unit :=
  n ← get;
  match CurrentBlock (commonNode n) with
  | None => panic "attempted to start processing batch with a nil block"
  | Some blk =>
      (* ctx, cancel := context.WithCancel(n.ctx); done := make(chan ..., 1) *)
      let proc := nextProc n in
      modify (λ n, set_nextProc n (S proc));;
      let calls := byzantineMaybeInjectDiscrepancy batch in
      let batchStartTime := Now in
      transitionLocked (StateProcessingBatch batch batchSpanCtx batchStartTime proc);;
      emit (EvMakeRequest proc calls blk)
  end.

(** [func (n *Node) maybeStartProcessingBatchLocked(batch, batchSpanCtx)] *)
Definition maybeStartProcessingBatchLocked (batch : Batch) (batchSpanCtx : SpanContext)
    : M unit :=
  n ← get;
  let epoch := Group_EpochSnapshot (commonNode n) in
  if IsComputeBackupWorker epoch
  then transitionLocked (StateWaitingForEvent batch batchSpanCtx)
  else startProcessingBatchLocked batch batchSpanCtx.

(** [func (n *Node) HandleBatchFromTransactionSchedulerLocked(batchSpanCtx, batch)] *)
Definition HandleBatchFromTransactionSchedulerLocked (batchSpanCtx : SpanContext)
    (batch : Batch) : M unit :=
  maybeStartProcessingBatchLocked batch batchSpanCtx.

(** [func (n *Node) abortBatchLocked(reason error)] *)
Definition abortBatchLocked (reason : Error) : M unit :=
  n ← get;
  match state n with
  | StateProcessingBatch _ _ batchStartTime proc =>
      emit (EvCancel proc);;
      transitionLocked (StateWaitingForFinalize batchStartTime)
  | _ => mret tt
  end.

(** [func (n *Node) HandleNewBlockEarlyLocked(blk *block.Block)] *)
Definition HandleNewBlockEarlyLocked (blk : Block) : M unit :=
  abortBatchLocked errSeenNewerBlock.

(** [func (n *Node) HandleNewBlockLocked(blk *block.Block)] *)
Definition HandleNewBlockLocked (blk : Block) : M unit :=
  let header := Header_ blk in
  n ← get;
  match state n with
  | StateWaitingForBlock batch batchSpanCtx sheader =>
      if MostlyEqual header sheader
      then maybeStartProcessingBatchLocked batch batchSpanCtx
      else
        let curRound := Round header in
        let waitRound := Round sheader in
        if curRound >=? waitRound
        then transitionLocked StateWaitingForBatch
        else mret tt
  | StateWaitingForEvent _ _ => transitionLocked StateWaitingForBatch
  | StateWaitingForFinalize _ => transitionLocked StateWaitingForBatch
  | _ => mret tt
  end.

(** The write-log operations [proposeBatchLocked] submits to storage.
    NOTE: Order is important for verifying the receipt. *)
Definition applyOpsOf (batch : ComputedBatch) (blk : Block) : list ApplyOp :=
  let emptyRoot := EmptyHash in
  [ (* I/O root. *)
    {| op_Root := emptyRoot;
       op_ExpectedNewRoot := crh_IORoot (cb_Header batch);
       op_WriteLog := cb_IOWriteLog batch |};
    (* State root. *)
    {| op_Root := StateRoot (Header_ blk);
       op_ExpectedNewRoot := crh_StateRoot (cb_Header batch);
       op_WriteLog := cb_StateWriteLog batch |} ].

(** The closure inside [proposeBatchLocked] that commits the I/O and state
    write logs to storage and checks the receipt.  It returns the error, or
    the proposed results with the receipt signature attached. *)
Definition commitToStorage (batch : ComputedBatch) (blk : Block)
    (proposedResults : ComputeBody) : result Error ComputeBody :=
  match Storage_ApplyBatch (applyOpsOf batch blk) with
  | Err err => Err err
  | Ok signedReceipt =>
      match SignedReceipt_Open signedReceipt with
      | Err err => Err err
      | Ok receipt =>
          match ComputeBody_VerifyStorageReceipt proposedResults receipt with
          | Err err => Err err
          | Ok _ =>
              (* No need to append the entire blob, just the signature/public key. *)
              Ok {| CommitteeID := CommitteeID proposedResults;
                    body_Header := body_Header proposedResults;
                    RakSig := RakSig proposedResults;
                    StorageReceipt := Some (sr_Signature signedReceipt) |}
          end
      end
  end.

(** The proposed compute results [proposeBatchLocked] starts from. *)
Definition proposedResultsOf (batch : ComputedBatch) (epoch : EpochSnapshot)
    : ComputeBody :=
  {| CommitteeID := GetComputeCommitteeID epoch;
     body_Header := cb_Header batch;
     RakSig := cb_RakSig batch;
     StorageReceipt := None |}.

(** [func (n *Node) proposeBatchLocked(batch *protocol.ComputedBatch)] *)
Definition proposeBatchLocked (batch : ComputedBatch) : M unit :=
  n ← get;
  match state n with
  | StateProcessingBatch _ batchSpanCtx batchStartTime _ =>
      let epoch := Group_EpochSnapshot (commonNode n) in
      (* Generate proposed compute results. *)
      let proposedResults := proposedResultsOf batch epoch in
      match CurrentBlock (commonNode n) with
      | None => panic "nil pointer dereference"
      | Some blk =>
          (* Commit I/O and state write logs to storage. *)
          emit (EvApplyBatch (applyOpsOf batch blk));;
          match commitToStorage batch blk proposedResults with
          | Err err => abortBatchLocked err
          | Ok proposedResults =>
              (* Commit. *)
              match SignComputeCommitment proposedResults with
              | Err err => abortBatchLocked err
              | Ok commit =>
                  (* Publish commitment to merge committee. *)
                  emit (EvPublishComputeFinished batchSpanCtx commit);;
                  match Group_PublishComputeFinished batchSpanCtx commit with
                  | Err err => abortBatchLocked err
                  | Ok _ =>
                      transitionLocked (StateWaitingForFinalize batchStartTime);;
                      if IsMergeMember epoch
                      then
                        if negb (hasMergeNode n)
                        then mret tt
                        else emit (EvHandleResultsFromComputeWorker batchSpanCtx commit)
                      else mret tt
                  end
              end
          end
      end
  | _ => panic "interface conversion: NodeState is not StateProcessingBatch"
  end.

(** [func (n *Node) HandleNewEventLocked(ev *roothash.Event)] *)
Definition HandleNewEventLocked (ev : RoothashEvent) : M unit :=
  match ComputeDiscrepancyDetected ev with
  | None => mret tt
  | Some _ =>
      n ← get;
      match state n with
      | StateWaitingForEvent batch batchSpanCtx =>
          if negb (IsComputeBackupWorker (Group_EpochSnapshot (commonNode n)))
          then mret tt
          else startProcessingBatchLocked batch batchSpanCtx
      | _ => mret tt
      end
  end.

(** [func (n *Node) handleExternalBatchLocked(batch, batchSpanCtx, hdr) error] *)
Definition handleExternalBatchLocked (batch : Batch) (batchSpanCtx : SpanContext)
    (hdr : Header) : M (result Error unit) :=
  n ← get;
  match state n with
  | StateWaitingForBatch =>
      let epoch := Group_EpochSnapshot (commonNode n) in
      if negb (IsComputeMember epoch)
      then mret (Err errIncorrectRole)
      else
        match CurrentBlock (commonNode n) with
        | None => panic "nil pointer dereference"
        | Some blk =>
            if MostlyEqual (Header_ blk) hdr
            then
              maybeStartProcessingBatchLocked batch batchSpanCtx;;
              mret (Ok tt)
            else
              let curRound := Round (Header_ blk) in
              let waitRound := Round hdr in
              if curRound >=? waitRound
              then mret (Err errIncomatibleHeader)
              else
                transitionLocked (StateWaitingForBlock batch batchSpanCtx hdr);;
                mret (Ok tt)
        end
  | _ => mret (Err errIncorrectState)
  end.

(** [func (n *Node) queueBatchBlocking(ctx, batch, hdr) error] *)
Definition queueBatchBlocking (batchSpanCtx : SpanContext) (batch : Batch)
    (hdr : Header) : M (result Error unit) :=
  n ← get;
  if negb (N.eqb (Namespace_ hdr) (RuntimeID (commonNode n)))
  then mret (Err errIncomatibleHeader)
  else handleExternalBatchLocked batch batchSpanCtx hdr.

(** [func (n *Node) HandlePeerMessage(ctx, message) (bool, error)] *)
Definition HandlePeerMessage (batchSpanCtx : SpanContext) (message : Message)
    : M (result Error bool) :=
  match LeaderBatchDispatch message with
  | Some (batch, hdr) =>
      r ← queueBatchBlocking batchSpanCtx batch hdr;
      match r with
      | Err err => mret (Err err)
      | Ok _ => mret (Ok true)
      end
  | None => mret (Ok false)
  end.

(** One round of the [select] in [func (n *Node) worker()] that receives
    from [processingDoneCh]: [None] is the nil batch of a closed channel. *)
Definition workerBatchDone (batch : option ComputedBatch) : M unit :=
  match batch with
  | None => abortBatchLocked errWorkerAborted
  | Some batch => proposeBatchLocked batch
  end.

(** [func NewNode(commonNode, mergeNode, worker, cfg)] *)
Definition NewNode (commonNode : CommonNode) (mergeNode : bool) : Node :=
  {| commonNode := commonNode; hasMergeNode := mergeNode;
     state := StateNotReady; nextProc := 0%nat |}.

(** The operations on a node: its hooks, its worker, and the writes of the
    common node to the fields it shares with this one. *)
Inductive Op :=
| OpEpochTransition (epoch : EpochSnapshot)
| OpNewBlockEarly (blk : Block)
| OpNewBlock (blk : Block)
| OpBatchFromTransactionScheduler (sc : SpanContext) (batch : Batch)
| OpNewEvent (ev : RoothashEvent)
| OpPeerMessage (sc : SpanContext) (message : Message)
| OpWorkerBatchDone (batch : option ComputedBatch)
| OpCommonNodeUpdate (c : CommonNode).

Definition run (op : Op) : M unit :=
  match op with
  | OpEpochTransition epoch => HandleEpochTransitionLocked epoch
  | OpNewBlockEarly blk => HandleNewBlockEarlyLocked blk
  | OpNewBlock blk => HandleNewBlockLocked blk
  | OpBatchFromTransactionScheduler sc batch =>
      HandleBatchFromTransactionSchedulerLocked sc batch
  | OpNewEvent ev => HandleNewEventLocked ev
  | OpPeerMessage sc message => HandlePeerMessage sc message;; mret tt
  | OpWorkerBatchDone batch => workerBatchDone batch
  | OpCommonNodeUpdate c => modify (λ n, set_commonNode n c)
  end.

(** A sequence of operations, stopping at the first panic. *)
Fixpoint runAll (ops : list Op) : M unit :=
  match ops with
  | [] => mret tt
  | op :: ops' => run op;; runAll ops'
  end.

End node.

(** The table allows going from [a] to [b]. *)
Definition edge `{Deps} (a b : StateName) : Prop := b ∈ validStateTransitions a.

(** Modelled from the spec: the table [validStateTransitions] of [state.go],
    which is not among the files embedded here.  Its edges are the rows of
    the state-machine table of the specification (section 4.7), together
    with the two targets of [HandleEpochTransition] ("if the node is a
    compute member, transition to WaitingForBatch; else NotReady"), which
    the specification allows in every state. *)
Definition specStateTransitions (from : StateName) : list StateName :=
  match from with
  | NotReady => [WaitingForBatch; NotReady]
  | WaitingForBatch =>
      [ProcessingBatch; WaitingForEvent; WaitingForBlock; WaitingForBatch; NotReady]
  | WaitingForBlock =>
      [ProcessingBatch; WaitingForEvent; WaitingForBatch; NotReady]
  | ProcessingBatch => [WaitingForFinalize; WaitingForBatch; NotReady]
  | WaitingForEvent => [ProcessingBatch; WaitingForBatch; NotReady]
  | WaitingForFinalize => [WaitingForBatch; NotReady]
  end.




End committee.


(** ** [go/runtime/txpool/txpool.go] *)
Module txpool.
Import block.

(** [Config] *)
Record Config := mkConfig {
  MaxPoolSize : Z;
  MaxCheckTxBatchSize : Z;
  MaxLastSeenCacheSize : Z;
  RepublishInterval : Z;
  MaxRepublishBatchSize : Z;
  RecheckInterval : Z;
}.

(** [TransactionMeta] *)
Record TransactionMeta := mkTransactionMeta {
  Local : bool;
  Discard : bool;
  Recheck : bool;
}.

(** Modelled from the spec: [transaction.Weight] of the [transaction]
    package, which is not among the files embedded here (section 3: weights
    are over a fixed set {Count, SizeBytes, ConsensusMessages, ...custom}). *)
Inductive Weight :=
| WeightConsensusMessages
| WeightSizeBytes
| WeightCount
| WeightCustom (name : string).

#[global] Instance Weight_eq_dec : EqDecision Weight.
Proof. solve_decision. Defined.

#[global] Instance Weight_countable : Countable Weight.
Proof.
  refine (inj_countable'
    (λ w, match w with
          | WeightConsensusMessages => inl 0%nat
          | WeightSizeBytes => inl 1%nat
          | WeightCount => inl 2%nat
          | WeightCustom name => inr name
          end)
    (λ x, match x with
          | inl 0%nat => WeightConsensusMessages
          | inl 1%nat => WeightSizeBytes
          | inl _ => WeightCount
          | inr name => WeightCustom name
          end) _).
  intros []; reflexivity.
Defined.

(** [func (w Weight) IsCustom() bool] *)
Definition IsCustom (w : Weight) : bool :=
  match w with
  | WeightCustom _ => true
  | _ => false
  end.

(** Modelled from the spec: [protocol.CheckTxResult] of the runtime host
    protocol, which is not among the files embedded here (section 6: each
    result carries a success flag, the consumed weights, and an optional
    error reason). *)
Record CheckTxResult := mkCheckTxResult {
  res_Success : bool;
  res_Weights : list (Weight * Z);
  res_Error : option string;
}.

(** [func (r *CheckTxResult) IsSuccess() bool] *)
Definition IsSuccess (r : CheckTxResult) : bool := res_Success r.

(** [transaction.CheckedTransaction]: (fingerprint, raw bytes, weights). *)
Record CheckedTransaction := mkCheckedTransaction {
  Raw : Bytes;
  Hash_ : Hash;
  Weights : list (Weight * Z);
}.

(** A notification channel [chan *protocol.CheckTxResult]. *)
Definition Chan := nat.

(** [pendingTx] *)
Record pendingTx := mkPendingTx {
  Tx : Bytes;
  TxHash : Hash;
  Meta : TransactionMeta;
  NotifyCh : option Chan;     (* nil for SubmitTxNoWait *)
}.

(** The parts of [registry.Runtime] the pool reads. *)
Record Runtime := mkRuntime {
  Executor_MaxMessages : Z;                 (* uint32 *)
  TxnScheduler_Algorithm : string;
  TxnScheduler_MaxBatchSize : Z;
  TxnScheduler_MaxBatchSizeBytes : Z;
  TxnScheduler_BatchFlushTimeout : Z;
}.

(** [BlockInfo] *)
Record BlockInfo := mkBlockInfo {
  RuntimeBlock : Block;
  ConsensusBlock : Z;
  Epoch : Z;
  ActiveDescriptor : Runtime;
}.

(** *** The seen cache ([lru.Cache]) *)

(** Modelled from the spec: the LRU cache of [go/common/cache/lru], which is
    not among the files embedded here (section 4.1: a bounded LRU from
    fingerprint to last publish time with [peek], [put] and [clear];
    eviction strictly by least-recent access; the capacity is enforced on
    [put]).  Entries are kept most recently used first. *)
Record Cache := mkCache {
  capacity : nat;
  entries : list (Hash * Time);
}.

Definition lru_New (cap : Z) : Cache :=
  {| capacity := Z.to_nat cap; entries := [] |}.

Definition Peek (c : Cache) (h : Hash) : option Time :=
  snd <$> List.find (λ e, N.eqb (fst e) h) (entries c).

Definition Put (c : Cache) (h : Hash) (ts : Time) : Cache :=
  {| capacity := capacity c;
     entries := take (capacity c)
                  ((h, ts) :: List.filter (λ e, negb (N.eqb (fst e) h)) (entries c)) |}.

Definition Cache_Clear (c : Cache) : Cache :=
  {| capacity := capacity c; entries := [] |}.

(** *** The check queue ([checkTxQueue]) *)

(** Modelled from the spec: the queue of [check_queue.go], which is not
    among the files embedded here (section 4.2: a bounded FIFO of pending
    transactions, deduplicated by fingerprint; [add] answers [Ok],
    [QueueFull] or [Duplicate]; [get_batch] returns up to the maximum batch
    size in insertion order; [remove_batch]; [size]). *)
Record checkTxQueue := mkCheckTxQueue {
  maxSize : nat;
  maxBatchSize : nat;
  queue : list pendingTx;
}.

Definition newCheckTxQueue (maxSize maxBatchSize : Z) : checkTxQueue :=
  {| maxSize := Z.to_nat maxSize; maxBatchSize := Z.to_nat maxBatchSize;
     queue := [] |}.

Definition hasHash (h : Hash) (hs : list Hash) : bool :=
  existsb (N.eqb h) hs.

Definition checkTxQueue_Add (q : checkTxQueue) (tx : pendingTx)
    : result Error checkTxQueue :=
  if hasHash (TxHash tx) (TxHash <$> queue q)
  then Err (ErrMsg "duplicate transaction")
  else if (maxSize q <=? length (queue q))%nat
  then Err (ErrMsg "queue is full")
  else Ok {| maxSize := maxSize q; maxBatchSize := maxBatchSize q;
             queue := queue q ++ [tx] |}.

Definition checkTxQueue_GetBatch (q : checkTxQueue) : list pendingTx :=
  take (maxBatchSize q) (queue q).

Definition checkTxQueue_RemoveBatch (q : checkTxQueue) (batch : list pendingTx)
    : checkTxQueue :=
  {| maxSize := maxSize q; maxBatchSize := maxBatchSize q;
     queue := List.filter (λ tx, negb (hasHash (TxHash tx) (TxHash <$> batch)))
                (queue q) |}.

Definition checkTxQueue_Size (q : checkTxQueue) : Z :=
  Z.of_nat (length (queue q)).

(** *** The scheduling queue ([schedulingAPI.Scheduler]) *)

(** Modelled from the spec: the scheduler of [go/runtime/scheduling], which
    is not among the files embedded here (section 4.3: a weighted,
    deduplicated FIFO; [queue] answers [Ok], [QueueFull], [Duplicate] or
    [ExceedsLimit], a single transaction must not exceed any per-round
    limit; [remove_batch] is a silent no-op for unknown hashes;
    [get_transactions(0)] returns all queued, ordered; [clear];
    [unscheduled_size]; [update_parameters]). *)
Record Scheduler := mkScheduler {
  sched_Name : string;
  sched_maxPoolSize : Z;
  sched_weightLimits : gmap Weight Z;
  sched_queue : list CheckedTransaction;
}.

Definition exceedsLimit (limits : gmap Weight Z) (tx : CheckedTransaction) : bool :=
  existsb (λ wv, match limits !! (fst wv) with
                 | Some l => l <? snd wv
                 | None => false
                 end) (Weights tx).

Definition Scheduler_QueueTx (s : Scheduler) (tx : CheckedTransaction)
    : result Error Scheduler :=
  if exceedsLimit (sched_weightLimits s) tx
  then Err (ErrMsg "transaction exceeds a round weight limit")
  else if hasHash (Hash_ tx) (Hash_ <$> sched_queue s)
  then Err (ErrMsg "duplicate transaction")
  else if sched_maxPoolSize s <=? Z.of_nat (length (sched_queue s))
  then Err (ErrMsg "queue is full")
  else Ok {| sched_Name := sched_Name s; sched_maxPoolSize := sched_maxPoolSize s;
             sched_weightLimits := sched_weightLimits s;
             sched_queue := sched_queue s ++ [tx] |}.

Definition Scheduler_RemoveTxBatch (s : Scheduler) (hashes : list Hash) : Scheduler :=
  {| sched_Name := sched_Name s; sched_maxPoolSize := sched_maxPoolSize s;
     sched_weightLimits := sched_weightLimits s;
     sched_queue := List.filter (λ tx, negb (hasHash (Hash_ tx) hashes))
                      (sched_queue s) |}.

Definition Scheduler_GetTransactions (s : Scheduler) (limit : nat)
    : list CheckedTransaction :=
  match limit with
  | O => sched_queue s
  | _ => take limit (sched_queue s)
  end.

Definition Scheduler_Clear (s : Scheduler) : Scheduler :=
  {| sched_Name := sched_Name s; sched_maxPoolSize := sched_maxPoolSize s;
     sched_weightLimits := sched_weightLimits s; sched_queue := [] |}.

Definition Scheduler_UnscheduledSize (s : Scheduler) : Z :=
  Z.of_nat (length (sched_queue s)).

Definition Scheduler_UpdateParameters (s : Scheduler) (algo : string)
    (limits : gmap Weight Z) : result Error Scheduler :=
  Ok {| sched_Name := sched_Name s; sched_maxPoolSize := sched_maxPoolSize s;
        sched_weightLimits := limits; sched_queue := sched_queue s |}.

(** *** The pool *)

(** [txPool].  A [channels.RingChannel] of capacity one carries no data, so
    each is the flag "a wake-up is pending"; [initCh] is the flag "closed". *)
Record txPool := mkTxPool {
  initCh : bool;
  cfg : Config;
  seenCache : Cache;
  checkTxCh : bool;
  checkTxQueue_ : checkTxQueue;
  recheckTxCh : bool;
  scheduler : option Scheduler;       (* nil until the first block *)
  schedulerTicker : Z;                (* the ticker's interval *)
  blockInfo : option BlockInfo;
  lastRecheckRound : Z;               (* uint64 *)
  epoCh : bool;
  republishCh : bool;
  roundWeightLimits : gmap Weight Z;
  nextChan : Chan;                    (* allocator of notification channels *)
}.

(** What the pool sends to its callers, its subscribers, the transport and
    the scheduler.  Logging and the Prometheus gauges are left out. *)
Inductive Event :=
| EvNotify (ch : Chan) (res : CheckTxResult)      (* NotifyCh <- &results[i] *)
| EvClose (ch : Chan)                             (* close(NotifyCh) *)
| EvRemoveTxBatch (hashes : list Hash)            (* scheduler.RemoveTxBatch *)
| EvQueueTx (h : Hash) (accepted : bool)          (* scheduler.QueueTx and its answer *)
| EvUpdateParameters (algo : string) (limits : gmap Weight Z)
| EvNewScheduler (algo : string)                  (* scheduling.New *)
| EvPublishTx (raw : Bytes)                       (* txPublisher.PublishTx *)
| EvBroadcastChecked (txs : list CheckedTransaction)  (* checkTxNotifier.Broadcast *)
| EvBroadcastSchedule (flush : bool).             (* schedulerNotifier.Broadcast *)

(** What [txpool.go] takes from outside. *)
Class Deps := {
  NewFromBytes : Bytes → Hash;                    (* hash.NewFromBytes *)
  Now : Time;                                     (* time.Now() *)
  CheckTx : BlockInfo → list Bytes → result Error (list CheckTxResult);
                                                  (* rr.CheckTx of the runtime host *)
  PublishTx : Bytes → result Error unit;          (* txPublisher.PublishTx *)
  scheduling_New : Z → string → gmap Weight Z → result Error Scheduler;
}.

Definition set_initCh (t : txPool) (v : bool) : txPool :=
  {| initCh := v; cfg := cfg t; seenCache := seenCache t; checkTxCh := checkTxCh t;
     checkTxQueue_ := checkTxQueue_ t; recheckTxCh := recheckTxCh t;
     scheduler := scheduler t; schedulerTicker := schedulerTicker t;
     blockInfo := blockInfo t; lastRecheckRound := lastRecheckRound t;
     epoCh := epoCh t; republishCh := republishCh t;
     roundWeightLimits := roundWeightLimits t; nextChan := nextChan t |}.

Definition set_seenCache (t : txPool) (v : Cache) : txPool :=
  {| initCh := initCh t; cfg := cfg t; seenCache := v; checkTxCh := checkTxCh t;
     checkTxQueue_ := checkTxQueue_ t; recheckTxCh := recheckTxCh t;
     scheduler := scheduler t; schedulerTicker := schedulerTicker t;
     blockInfo := blockInfo t; lastRecheckRound := lastRecheckRound t;
     epoCh := epoCh t; republishCh := republishCh t;
     roundWeightLimits := roundWeightLimits t; nextChan := nextChan t |}.

Definition set_checkTxCh (t : txPool) (v : bool) : txPool :=
  {| initCh := initCh t; cfg := cfg t; seenCache := seenCache t; checkTxCh := v;
     checkTxQueue_ := checkTxQueue_ t; recheckTxCh := recheckTxCh t;
     scheduler := scheduler t; schedulerTicker := schedulerTicker t;
     blockInfo := blockInfo t; lastRecheckRound := lastRecheckRound t;
     epoCh := epoCh t; republishCh := republishCh t;
     roundWeightLimits := roundWeightLimits t; nextChan := nextChan t |}.

Definition set_checkTxQueue (t : txPool) (v : checkTxQueue) : txPool :=
  {| initCh := initCh t; cfg := cfg t; seenCache := seenCache t;
     checkTxCh := checkTxCh t;
     checkTxQueue_ := v; recheckTxCh := recheckTxCh t;
     scheduler := scheduler t; schedulerTicker := schedulerTicker t;
     blockInfo := blockInfo t; lastRecheckRound := lastRecheckRound t;
     epoCh := epoCh t; republishCh := republishCh t;
     roundWeightLimits := roundWeightLimits t; nextChan := nextChan t |}.

Definition set_recheckTxCh (t : txPool) (v : bool) : txPool :=
  {| initCh := initCh t; cfg := cfg t; seenCache := seenCache t;
     checkTxCh := checkTxCh t;
     checkTxQueue_ := checkTxQueue_ t; recheckTxCh := v;
     scheduler := scheduler t; schedulerTicker := schedulerTicker t;
     blockInfo := blockInfo t; lastRecheckRound := lastRecheckRound t;
     epoCh := epoCh t; republishCh := republishCh t;
     roundWeightLimits := roundWeightLimits t; nextChan := nextChan t |}.

Definition set_scheduler (t : txPool) (v : option Scheduler) : txPool :=
  {| initCh := initCh t; cfg := cfg t; seenCache := seenCache t;
     checkTxCh := checkTxCh t;
     checkTxQueue_ := checkTxQueue_ t; recheckTxCh := recheckTxCh t;
     scheduler := v; schedulerTicker := schedulerTicker t;
     blockInfo := blockInfo t; lastRecheckRound := lastRecheckRound t;
     epoCh := epoCh t; republishCh := republishCh t;
     roundWeightLimits := roundWeightLimits t; nextChan := nextChan t |}.

Definition set_schedulerTicker (t : txPool) (v : Z) : txPool :=
  {| initCh := initCh t; cfg := cfg t; seenCache := seenCache t;
     checkTxCh := checkTxCh t;
     checkTxQueue_ := checkTxQueue_ t; recheckTxCh := recheckTxCh t;
     scheduler := scheduler t; schedulerTicker := v;
     blockInfo := blockInfo t; lastRecheckRound := lastRecheckRound t;
     epoCh := epoCh t; republishCh := republishCh t;
     roundWeightLimits := roundWeightLimits t; nextChan := nextChan t |}.

Definition set_blockInfo (t : txPool) (v : option BlockInfo) : txPool :=
  {| initCh := initCh t; cfg := cfg t; seenCache := seenCache t;
     checkTxCh := checkTxCh t;
     checkTxQueue_ := checkTxQueue_ t; recheckTxCh := recheckTxCh t;
     scheduler := scheduler t; schedulerTicker := schedulerTicker t;
     blockInfo := v; lastRecheckRound := lastRecheckRound t;
     epoCh := epoCh t; republishCh := republishCh t;
     roundWeightLimits := roundWeightLimits t; nextChan := nextChan t |}.

Definition set_lastRecheckRound (t : txPool) (v : Z) : txPool :=
  {| initCh := initCh t; cfg := cfg t; seenCache := seenCache t;
     checkTxCh := checkTxCh t;
     checkTxQueue_ := checkTxQueue_ t; recheckTxCh := recheckTxCh t;
     scheduler := scheduler t; schedulerTicker := schedulerTicker t;
     blockInfo := blockInfo t; lastRecheckRound := v;
     epoCh := epoCh t; republishCh := republishCh t;
     roundWeightLimits := roundWeightLimits t; nextChan := nextChan t |}.

Definition set_epoCh (t : txPool) (v : bool) : txPool :=
  {| initCh := initCh t; cfg := cfg t; seenCache := seenCache t;
     checkTxCh := checkTxCh t;
     checkTxQueue_ := checkTxQueue_ t; recheckTxCh := recheckTxCh t;
     scheduler := scheduler t; schedulerTicker := schedulerTicker t;
     blockInfo := blockInfo t; lastRecheckRound := lastRecheckRound t;
     epoCh := v; republishCh := republishCh t;
     roundWeightLimits := roundWeightLimits t; nextChan := nextChan t |}.

Definition set_republishCh (t : txPool) (v : bool) : txPool :=
  {| initCh := initCh t; cfg := cfg t; seenCache := seenCache t;
     checkTxCh := checkTxCh t;
     checkTxQueue_ := checkTxQueue_ t; recheckTxCh := recheckTxCh t;
     scheduler := scheduler t; schedulerTicker := schedulerTicker t;
     blockInfo := blockInfo t; lastRecheckRound := lastRecheckRound t;
     epoCh := epoCh t; republishCh := v;
     roundWeightLimits := roundWeightLimits t; nextChan := nextChan t |}.

Definition set_roundWeightLimits (t : txPool) (v : gmap Weight Z) : txPool :=
  {| initCh := initCh t; cfg := cfg t; seenCache := seenCache t;
     checkTxCh := checkTxCh t;
     checkTxQueue_ := checkTxQueue_ t; recheckTxCh := recheckTxCh t;
     scheduler := scheduler t; schedulerTicker := schedulerTicker t;
     blockInfo := blockInfo t; lastRecheckRound := lastRecheckRound t;
     epoCh := epoCh t; republishCh := republishCh t;
     roundWeightLimits := v; nextChan := nextChan t |}.

Definition set_nextChan (t : txPool) (v : Chan) : txPool :=
  {| initCh := initCh t; cfg := cfg t; seenCache := seenCache t;
     checkTxCh := checkTxCh t;
     checkTxQueue_ := checkTxQueue_ t; recheckTxCh := recheckTxCh t;
     scheduler := scheduler t; schedulerTicker := schedulerTicker t;
     blockInfo := blockInfo t; lastRecheckRound := lastRecheckRound t;
     epoCh := epoCh t; republishCh := republishCh t;
     roundWeightLimits := roundWeightLimits t; nextChan := v |}.

Section pool.
Context `{Deps}.

Abbreviation M := (Eff txPool Event).

(** Modelled from the spec: [res.ToCheckedTransaction(rawTx)] of the
    [protocol] package, which is not among the files embedded here (section
    3: a checked transaction is (fingerprint, raw bytes, weights map), the
    fingerprint being the hash of the bytes). *)
Definition ToCheckedTransaction (res : CheckTxResult) (rawTx : Bytes)
    : CheckedTransaction :=
  {| Raw := rawTx; Hash_ := NewFromBytes rawTx; Weights := res_Weights res |}.

(** [func (t *txPool) submitTx(ctx, rawTx, meta, notifyCh) error] *)
Definition submitTx (rawTx : Bytes) (meta : TransactionMeta)
    (notifyCh : option Chan) : M (result Error unit) :=
  t ← get;
  (* Skip recently seen transactions. *)
  let txHash := NewFromBytes rawTx in
  if bool_decide (is_Some (Peek (seenCache t) txHash)) && negb (Recheck meta)
  then mret (Ok tt)
  else
    let tx := {| Tx := rawTx; TxHash := txHash; Meta := meta;
                 NotifyCh := notifyCh |} in
    (* Queue transaction for checks. *)
    match checkTxQueue_Add (checkTxQueue_ t) tx with
    | Err err => mret (Err err)
    | Ok q =>
        put (set_checkTxQueue t q);;
        (* Wake up the check batcher. *)
        modify (λ t, set_checkTxCh t true);;
        mret (Ok tt)
    end.

(** [func (t *txPool) SubmitTxNoWait(ctx, tx, meta) error] *)
Definition SubmitTxNoWait (tx : Bytes) (meta : TransactionMeta)
    : M (result Error unit) :=
  submitTx tx meta None.

(** [func (t *txPool) SubmitTx(ctx, rawTx, meta)], up to its [select]:
    [Err err] is the early return [(nil, err)]; [Ok notifyCh] is the call
    blocked in the [select], waiting on the channel it created. *)
Definition SubmitTx_submit (rawTx : Bytes) (meta : TransactionMeta)
    : M (result Error Chan) :=
  t ← get;
  let notifyCh := nextChan t in       (* make(chan *protocol.CheckTxResult, 1) *)
  put (set_nextChan t (S notifyCh));;
  r ← submitTx rawTx meta (Some notifyCh);
  match r with
  | Err err => emit (EvClose notifyCh);; mret (Err err)
  | Ok _ => mret (Ok notifyCh)
  end.

(** The three cases of the [select] of [SubmitTx]. *)
Inductive Wakeup :=
| CtxDone                             (* <-ctx.Done() *)
| Stopped                             (* <-t.stopCh *)
| Received (r : CheckTxResult).       (* result := <-notifyCh *)

(** What [SubmitTx] returns from its [select]. *)
Definition SubmitTx_select (w : Wakeup) : result Error CheckTxResult :=
  match w with
  | CtxDone => Err ErrContext
  | Stopped => Err (ErrMsg "shutting down")
  | Received r => Ok r
  end.

(** The value a trace of the pool sends on a channel, if any: the case
    [Received r] of the [select] of a call blocked on [ch] is enabled exactly
    when the pool has sent [r] on [ch]. *)
Definition sentOn (ch : Chan) (tr : list Event) : option CheckTxResult :=
  List.find (λ _, true)
    (omap (λ e, match e with
                | EvNotify ch' r => if Nat.eqb ch ch' then Some r else None
                | _ => None
                end) tr).

Definition enabled (ch : Chan) (tr : list Event) (w : Wakeup) : Prop :=
  match w with
  | Received r => sentOn ch tr = Some r
  | _ => True
  end.

(** [func (t *txPool) RemoveTxBatch(txs []hash.Hash)] *)
Definition RemoveTxBatch (txs : list Hash) : M unit :=
  t ← get;
  match scheduler t with
  | None => panic "nil pointer dereference"
  | Some s =>
      emit (EvRemoveTxBatch txs);;
      put (set_scheduler t (Some (Scheduler_RemoveTxBatch s txs)))
  end.

(** [func (t *txPool) updateScheduler(bi *BlockInfo) error] *)
Definition updateScheduler (bi : BlockInfo) : M (result Error unit) :=
  let rt := ActiveDescriptor bi in
  (* Update per round weight limits. *)
  modify (λ t, set_roundWeightLimits t
    (<[WeightCount := TxnScheduler_MaxBatchSize rt]>
       (<[WeightSizeBytes := TxnScheduler_MaxBatchSizeBytes rt]>
          (<[WeightConsensusMessages := Executor_MaxMessages rt]>
             (roundWeightLimits t)))));;
  t ← get;
  r ← match scheduler t with
      | None =>
          (* We still need to initialize the scheduler. *)
          emit (EvNewScheduler (TxnScheduler_Algorithm rt));;
          match scheduling_New (MaxPoolSize (cfg t)) (TxnScheduler_Algorithm rt)
                  (roundWeightLimits t) with
          | Err err =>
              mret (Err (ErrWrap "failed to create transaction scheduler" err))
          | Ok sched =>
              put (set_initCh (set_scheduler t (Some sched)) true);;
              mret (Ok tt)
          end
      | Some s =>
          (* Scheduler already initialized. *)
          if negb (String.eqb (TxnScheduler_Algorithm rt) (sched_Name s))
          then mret (Err (ErrMsg "transaction scheduler algorithm update not supported"))
          else
            emit (EvUpdateParameters (sched_Name s) (roundWeightLimits t));;
            match Scheduler_UpdateParameters s (sched_Name s) (roundWeightLimits t) with
            | Err err =>
                mret (Err (ErrWrap "failed to update transaction scheduler parameters" err))
            | Ok s' =>
                put (set_scheduler t (Some s'));;
                mret (Ok tt)
            end
      end;
  match r with
  | Err err => mret (Err err)
  | Ok _ =>
      (* Reset ticker to the new interval. *)
      modify (λ t, set_schedulerTicker t (TxnScheduler_BatchFlushTimeout rt));;
      mret (Ok tt)
  end.

(** [func (t *txPool) ProcessBlock(bi *BlockInfo) error] *)
Definition ProcessBlock (bi : BlockInfo) : M (result Error unit) :=
  t ← get;
  let round := Round (Header_ (RuntimeBlock bi)) in
  r ← (if bool_decide (blockInfo t = None)
          || bool_decide (HeaderType_ (Header_ (RuntimeBlock bi)) = EpochTransition)
       then
         (* Handle scheduler updates. *)
         r ← updateScheduler bi;
         match r with
         | Err err => mret (Err (ErrWrap "failed to update scheduler" err))
         | Ok _ => modify (λ t, set_epoCh t true);; mret (Ok tt)
         end
       else mret (Ok tt));
  match r with
  | Err err => mret (Err err)
  | Ok _ =>
      modify (λ t, set_blockInfo t (Some bi));;
      t ← get;
      (* Trigger transaction rechecks if needed. *)
      (if (round - lastRecheckRound t) `mod` 2 ^ 64 >? RecheckInterval (cfg t)
       then put (set_lastRecheckRound (set_recheckTxCh t true) round)
       else mret tt);;
      mret (Ok tt)
  end.

(** [func (t *txPool) getCurrentBlockInfo()], returning the block info or an error *)
Definition getCurrentBlockInfo (t : txPool) : result Error BlockInfo :=
  match blockInfo t with
  | None => Err (ErrMsg "no current block available")
  | Some bi => Ok bi
  end.

(** [func (t *txPool) PendingCheckSize() uint64] *)
Definition PendingCheckSize (t : txPool) : Z :=
  checkTxQueue_Size (checkTxQueue_ t).

(** [func (t *txPool) PendingScheduleSize() uint64] *)
Definition PendingScheduleSize (t : txPool) : Z :=
  match scheduler t with
  | None => 0
  | Some s => Scheduler_UnscheduledSize s
  end.

(** [func (t *txPool) WakeupScheduler()] *)
Definition WakeupScheduler : M unit := emit (EvBroadcastSchedule false).

(** [func (t *txPool) Clear()] *)
Definition Clear : M unit :=
  modify (λ t, set_scheduler t (Scheduler_Clear <$> scheduler t));;
  modify (λ t, set_seenCache t (Cache_Clear (seenCache t))).

(** The first step of the body of the first loop of [checkTxBatch]: send
    back the result of running the checks, and close the channel. *)
Definition notifyResult (item : pendingTx) (res : CheckTxResult) : M unit :=
  match NotifyCh item with
  | Some ch => emit (EvNotify ch res);; emit (EvClose ch)
  | None => mret tt
  end.

(** The rest of the body of the first loop: what one result adds to the
    local slices [txs], [isLocal] and [unschedule]. *)
Definition sortChecked (item : pendingTx) (res : CheckTxResult)
    (acc : list CheckedTransaction * list bool * list Hash)
    : list CheckedTransaction * list bool * list Hash :=
  let '(txs, isLocal, unschedule) := acc in
  if negb (IsSuccess res)
  then
    (* If this was a recheck, make sure to remove the transaction from the
       scheduling queue. *)
    if Recheck (Meta item)
    then (txs, isLocal, TxHash item :: unschedule)
    else (txs, isLocal, unschedule)
  else if Discard (Meta item) || Recheck (Meta item)
  then (txs, isLocal, unschedule)
  else (ToCheckedTransaction res (Tx item) :: txs,
        Local (Meta item) :: isLocal, unschedule).

(** The first loop of [checkTxBatch], [for i, res := range results], over
    the batch items [batch[i]].  It returns the local slices [txs],
    [isLocal] and [unschedule]; the three are only appended to, so the
    contribution of a result stands in front of the contributions of the
    results after it. *)
Fixpoint checkResults (batch : list pendingTx) (results : list CheckTxResult)
    : M (list CheckedTransaction * list bool * list Hash) :=
  match results with
  | [] => mret ([], [], [])
  | res :: results' =>
      match batch with
      | [] => panic "index out of range"
      | item :: batch' =>
          notifyResult item res;;
          acc ← checkResults batch' results';
          mret (sortChecked item res acc)
      end
  end.

(** The body of the second loop of [checkTxBatch] for one checked
    transaction. *)
Definition queueChecked (tx : CheckedTransaction) (local : bool) : M unit :=
  t ← get;
  match scheduler t with
  | None => panic "nil pointer dereference"
  | Some s =>
      match Scheduler_QueueTx s tx with
      | Err _ => emit (EvQueueTx (Hash_ tx) false)
      | Ok s' =>
          emit (EvQueueTx (Hash_ tx) true);;
          put (set_scheduler t (Some s'));;
          (* Publish local transactions immediately. *)
          publishTime ←
            (if local
             then
               emit (EvPublishTx (Raw tx));;
               match PublishTx (Raw tx) with
               | Err _ =>
                   (* Since publication failed, make sure we retry early. *)
                   modify (λ t, set_republishCh t true);;
                   mret 0
               | Ok _ => mret Now
               end
             else mret Now);
          modify (λ t, set_seenCache t (Put (seenCache t) (Hash_ tx) publishTime))
      end
  end.

(** The second loop of [checkTxBatch], [for i, tx := range txs], with
    [isLocal[i]]. *)
Fixpoint queueAll (txs : list CheckedTransaction) (isLocal : list bool) : M unit :=
  match txs with
  | [] => mret tt
  | tx :: txs' =>
      match isLocal with
      | [] => panic "index out of range"
      | local :: isLocal' => queueChecked tx local;; queueAll txs' isLocal'
      end
  end.

(** [func (t *txPool) checkTxBatch(ctx, rr)] *)
Definition checkTxBatch : M unit :=
  t ← get;
  let batch := checkTxQueue_GetBatch (checkTxQueue_ t) in
  if (length batch =? 0)%nat then mret tt
  else
    match getCurrentBlockInfo t with
    | Err _ => mret tt
    | Ok bi =>
        let rawTxBatch := Tx <$> batch in
        match CheckTx bi rawTxBatch with
        | Err _ =>
            (* NOTE: We do not send the results back as the batch will be retried. *)
            mret tt
        | Ok results =>
            (* Remove the checked transaction batch. *)
            put (set_checkTxQueue t (checkTxQueue_RemoveBatch (checkTxQueue_ t) batch));;
            '(txs, isLocal, unschedule) ← checkResults batch results;
            (* Unschedule any transactions that are being rechecked and have
               failed checks. *)
            RemoveTxBatch unschedule;;
            if (length txs =? 0)%nat then mret tt
            else
              (* Queue checked transactions for scheduling. *)
              queueAll txs isLocal;;
              (* Notify subscribers that we have received new transactions. *)
              emit (EvBroadcastChecked txs);;
              emit (EvBroadcastSchedule false)
        end
    end.

(** The loop of [recheckWorker] over the scheduled transactions; a failed
    submission is logged and the loop goes on. *)
Fixpoint recheckAll (txs : list CheckedTransaction) : M unit :=
  match txs with
  | [] => mret tt
  | tx :: txs' =>
      submitTx (Raw tx) {| Local := false; Discard := false; Recheck := true |} None;;
      recheckAll txs'
  end.

(** One round of the loop of [func (t *txPool) recheckWorker()], after a
    wake-up on [recheckTxCh]. *)
Definition recheckWorker_round : M unit :=
  t ← get;
  match scheduler t with
  | None => panic "nil pointer dereference"
  | Some s => recheckAll (Scheduler_GetTransactions s 0)
  end.

(** [func New(runtimeID, cfg, host, txPublisher) (TransactionPool, error)] *)
Definition New (cfg : Config) : txPool :=
  {| initCh := false; cfg := cfg;
     seenCache := lru_New (MaxLastSeenCacheSize cfg);
     checkTxCh := false;
     checkTxQueue_ := newCheckTxQueue (MaxPoolSize cfg) (MaxCheckTxBatchSize cfg);
     recheckTxCh := false;
     scheduler := None;
     schedulerTicker := 3600;
     blockInfo := None;
     lastRecheckRound := 0;
     epoCh := false;
     republishCh := false;
     roundWeightLimits := ∅;
     nextChan := 0%nat |}.

(** [func (t *txPool) UpdateWeightLimits(limits map[transaction.Weight]uint64) error].
    The first loop deletes from [t.roundWeightLimits] the custom weights
    that [limits] does not have, the second writes every entry of [limits]
    into it. *)
Definition UpdateWeightLimits (limits : gmap Weight Z) : M (result Error unit) :=
  t ← get;
  match scheduler t with
  | None => mret (Ok tt)
  | Some s =>
      (* Remove batch custom weight limits that don't exist anymore. *)
      let kept :=
        filter (λ wl, ¬ (IsCustom wl.1 = true ∧ limits !! wl.1 = None))
          (roundWeightLimits t) in
      (* Update batch weight limits. *)
      let updated := limits ∪ kept in
      put (set_roundWeightLimits t updated);;
      emit (EvUpdateParameters (sched_Name s) updated);;
      match Scheduler_UpdateParameters s (sched_Name s) updated with
      | Err err => mret (Err (ErrWrap "updating scheduler parameters" err))
      | Ok s' => modify (λ t, set_scheduler t (Some s'));; mret (Ok tt)
      end
  end.

(** The interval of the republish ticker of [republishWorker]:
    [t.cfg.RepublishInterval], raised to
    [t.txPublisher.GetMinRepublishInterval()]. *)
Definition republishIntervalOf (cfg : Config) (minRepublishInterval : Z) : Z :=
  if RepublishInterval cfg <? minRepublishInterval
  then minRepublishInterval
  else RepublishInterval cfg.

(** The body of the loop of [republishWorker] over the scheduled
    transactions; [time.Since(ts)] is [Now - ts]. *)
Definition republishTx (force : bool) (republishInterval : Z)
    (tx : CheckedTransaction) : M unit :=
  t ← get;
  let recent :=
    match Peek (seenCache t) (Hash_ tx) with
    | Some ts => Now - ts <? republishInterval
    | None => false
    end in
  if negb force && recent then mret tt
  else
    emit (EvPublishTx (Raw tx));;
    match PublishTx (Raw tx) with
    | Err _ => modify (λ t, set_republishCh t true)
    | Ok _ =>
        (* Update publish timestamp. *)
        modify (λ t, set_seenCache t (Put (seenCache t) (Hash_ tx) Now))
    end.

Fixpoint republishAll (force : bool) (republishInterval : Z)
    (txs : list CheckedTransaction) : M unit :=
  match txs with
  | [] => mret tt
  | tx :: txs' =>
      republishTx force republishInterval tx;;
      republishAll force republishInterval txs'
  end.

(** One round of the loop of [func (t *txPool) republishWorker()], from
    the point where its [select] has decided to republish; [force] is set
    by a wake-up on [epoCh]. *)
Definition republishWorker_round (force : bool) (minRepublishInterval : Z)
    : M unit :=
  t ← get;
  let republishInterval := republishIntervalOf (cfg t) minRepublishInterval in
  match scheduler t with
  | None => panic "nil pointer dereference"
  | Some s =>
      (* Get scheduled transactions. *)
      let txs := Scheduler_GetTransactions s 0 in
      if (length txs =? 0)%nat then mret tt
      else republishAll force republishInterval txs
  end.

(** [func (t *txPool) ensureInitialized() error] in front of the loop of a
    worker: the rounds of the loop run only once [initCh] is closed. *)
Definition afterInit (round : M unit) : M unit :=
  t ← get;
  if initCh t then round else mret tt.

(** The operations on a pool: the calls of its interface and the rounds
    of its workers. *)
Inductive Op :=
| OpSubmitTx (rawTx : Bytes) (meta : TransactionMeta)
| OpSubmitTxNoWait (rawTx : Bytes) (meta : TransactionMeta)
| OpRemoveTxBatch (txs : list Hash)
| OpProcessBlock (bi : BlockInfo)
| OpUpdateWeightLimits (limits : gmap Weight Z)
| OpWakeupScheduler
| OpClear
| OpCheck
| OpRecheck
| OpRepublish (force : bool) (minRepublishInterval : Z).

Definition run (op : Op) : M unit :=
  match op with
  | OpSubmitTx rawTx meta => SubmitTx_submit rawTx meta;; mret tt
  | OpSubmitTxNoWait rawTx meta => SubmitTxNoWait rawTx meta;; mret tt
  | OpRemoveTxBatch txs => RemoveTxBatch txs
  | OpProcessBlock bi => ProcessBlock bi;; mret tt
  | OpUpdateWeightLimits limits => UpdateWeightLimits limits;; mret tt
  | OpWakeupScheduler => WakeupScheduler
  | OpClear => Clear
  | OpCheck => afterInit checkTxBatch
  | OpRecheck => afterInit recheckWorker_round
  | OpRepublish force minRepublishInterval =>
      afterInit (republishWorker_round force minRepublishInterval)
  end.

(** A sequence of operations, stopping at the first panic. *)
Fixpoint runAll (ops : list Op) : M unit :=
  match ops with
  | [] => mret tt
  | op :: ops' => run op;; runAll ops'
  end.

End pool.

(** What the first loop of [checkTxBatch] computes from the pairs
    [(batch[i], results[i])]: the slices it returns and the events it sends. *)
Definition sortAll `{Deps} (prs : list (pendingTx * CheckTxResult))
    : list CheckedTransaction * list bool * list Hash :=
  foldr (λ pr acc, sortChecked pr.1 pr.2 acc) ([], [], []) prs.

Definition notifications (prs : list (pendingTx * CheckTxResult)) : list Event :=
  prs ≫= λ pr, match NotifyCh pr.1 with
               | Some ch => [EvNotify ch pr.2; EvClose ch]
               | None => []
               end.

(** The hashes of the transactions in the scheduling queue of the pool. *)
Definition scheduledHashes (t : txPool) : list Hash :=
  match scheduler t with
  | Some s => Hash_ <$> sched_queue s
  | None => []
  end.

(** The invariant of the check queue: its transactions carry the hash of
    their bytes, and no two of them the same hash. *)
Definition wf_queue `{Deps} (q : checkTxQueue) : Prop :=
  NoDup (TxHash <$> queue q) ∧
  Forall (λ tx, TxHash tx = NewFromBytes (Tx tx)) (queue q).

(** The pool is consistent about its initialization: [initCh] is closed
    exactly when there is a scheduler, and a block has been recorded only
    when there is one. *)
Definition initialized (t : txPool) : Prop :=
  (initCh t = true ↔ is_Some (scheduler t)) ∧
  (is_Some (blockInfo t) → is_Some (scheduler t)).

(** Two states of the pool agree on what [initialized] looks at. *)
Definition same_init (t t' : txPool) : Prop :=
  initCh t' = initCh t ∧ blockInfo t' = blockInfo t ∧
  (is_Some (scheduler t') ↔ is_Some (scheduler t)).

End txpool.




(** ** [go/staking/api/commission.go] *)
Module staking.

(** [epochtime.EpochTime] is a [uint64]. *)
Definition EpochTime := Z.

(** [quantity.Quantity] is an arbitrary-precision natural number. *)
Definition Quantity := N.

(** [CommissionRateDenominator], set by [init]: rates are denominated in
    1000th of a percent. *)
Definition CommissionRateDenominator : Quantity := 100000%N.

(** [CommissionScheduleRules] *)
Record CommissionScheduleRules := mkRules {
  RateChangeInterval : EpochTime;
  RateBoundLead : EpochTime;
  MaxRateSteps : Z;                  (* uint16 *)
  MaxBoundSteps : Z;                 (* uint16 *)
}.

(** [CommissionRateStep] *)
Record CommissionRateStep := mkRateStep {
  Start : EpochTime;
  Rate : Quantity;
}.

(** [CommissionRateBoundStep] *)
Record CommissionRateBoundStep := mkBoundStep {
  bStart : EpochTime;
  RateMin : Quantity;
  RateMax : Quantity;
}.

(** [CommissionSchedule] *)
Record CommissionSchedule := mkSchedule {
  Rates : list CommissionRateStep;
  Bounds : list CommissionRateBoundStep;
}.

(** The errors of the file: each carries the values its message prints. *)
Inductive ScheduleError :=
| ErrRateStepsExceed (steps : nat) (max : Z)
| ErrBoundStepsExceed (steps : nat) (max : Z)
| ErrRateNotAligned (i : nat) (start interval : EpochTime)
| ErrRateNotAfterPrevious (i : nat) (start previous : EpochTime)
| ErrRateOverUnity (i : nat) (rate : Quantity)
| ErrBoundNotAligned (i : nat) (start interval : EpochTime)
| ErrBoundNotAfterPrevious (i : nat) (start previous : EpochTime)
| ErrBoundMinOverUnity (i : nat) (rateMin : Quantity)
| ErrBoundMaxOverUnity (i : nat) (rateMax : Quantity)
| ErrBoundMaxLessThanMin (i : nat) (rateMax rateMin : Quantity)
| ErrRateAltersPast (start now : EpochTime)
| ErrBoundAltersPast (start limit : EpochTime)
| ErrRatesMissing
| ErrBoundsMissing
| ErrStartsDontMatch (rateStart boundStart : EpochTime)
| ErrRateLessThanMin (rate : Quantity) (rateIndex : nat) (rateMin : Quantity)
    (boundIndex : nat) (epoch : EpochTime)
| ErrRateGreaterThanMax (rate : Quantity) (rateIndex : nat) (rateMax : Quantity)
    (boundIndex : nat) (epoch : EpochTime)
| ErrAfterPruning (cause : ScheduleError)              (* "after pruning: %w" *)
| ErrAmendment (cause : ScheduleError)                 (* "amendment: %w" *)
| ErrAfterPruningAndAmending (cause : ScheduleError).  (* "after pruning and amending: %w" *)

(** [func (cs *CommissionSchedule) validateComplexity(rules) error] *)
Definition validateComplexity (cs : CommissionSchedule)
    (rules : CommissionScheduleRules) : result ScheduleError unit :=
  if MaxRateSteps rules <? Z.of_nat (length (Rates cs))
  then Err (ErrRateStepsExceed (length (Rates cs)) (MaxRateSteps rules))
  else if MaxBoundSteps rules <? Z.of_nat (length (Bounds cs))
  then Err (ErrBoundStepsExceed (length (Bounds cs)) (MaxBoundSteps rules))
  else Ok tt.

(** The first loop of [validateNondegenerate], [for i, step := range
    cs.Rates], from index [i] on; [prev] is [cs.Rates[i-1]] when [i > 0].
    The remainder [step.Start % rules.RateChangeInterval] panics when the
    interval is zero. *)
Fixpoint validateRateSteps (rules : CommissionScheduleRules) (i : nat)
    (prev : option CommissionRateStep) (steps : list CommissionRateStep)
    : Outcome (result ScheduleError unit) :=
  match steps with
  | [] => Done (Ok tt)
  | step :: steps' =>
      if RateChangeInterval rules =? 0
      then Panic "runtime error: integer divide by zero"
      else if negb (Start step `mod` RateChangeInterval rules =? 0)
      then Done (Err (ErrRateNotAligned i (Start step) (RateChangeInterval rules)))
      else
        match prev with
        | Some p =>
            if Start step <=? Start p
            then Done (Err (ErrRateNotAfterPrevious i (Start step) (Start p)))
            else if (CommissionRateDenominator <? Rate step)%N
            then Done (Err (ErrRateOverUnity i (Rate step)))
            else validateRateSteps rules (S i) (Some step) steps'
        | None =>
            if (CommissionRateDenominator <? Rate step)%N
            then Done (Err (ErrRateOverUnity i (Rate step)))
            else validateRateSteps rules (S i) (Some step) steps'
        end
  end.

(** The second loop of [validateNondegenerate], over [cs.Bounds]. *)
Fixpoint validateBoundSteps (rules : CommissionScheduleRules) (i : nat)
    (prev : option CommissionRateBoundStep) (steps : list CommissionRateBoundStep)
    : Outcome (result ScheduleError unit) :=
  match steps with
  | [] => Done (Ok tt)
  | step :: steps' =>
      if RateChangeInterval rules =? 0
      then Panic "runtime error: integer divide by zero"
      else if negb (bStart step `mod` RateChangeInterval rules =? 0)
      then Done (Err (ErrBoundNotAligned i (bStart step) (RateChangeInterval rules)))
      else
        let rest :=
          if (CommissionRateDenominator <? RateMin step)%N
          then Done (Err (ErrBoundMinOverUnity i (RateMin step)))
          else if (CommissionRateDenominator <? RateMax step)%N
          then Done (Err (ErrBoundMaxOverUnity i (RateMax step)))
          else if (RateMax step <? RateMin step)%N
          then Done (Err (ErrBoundMaxLessThanMin i (RateMax step) (RateMin step)))
          else validateBoundSteps rules (S i) (Some step) steps' in
        match prev with
        | Some p =>
            if bStart step <=? bStart p
            then Done (Err (ErrBoundNotAfterPrevious i (bStart step) (bStart p)))
            else rest
        | None => rest
        end
  end.

(** [func (cs *CommissionSchedule) validateNondegenerate(rules) error] *)
Definition validateNondegenerate (cs : CommissionSchedule)
    (rules : CommissionScheduleRules) : Outcome (result ScheduleError unit) :=
  match validateRateSteps rules 0 None (Rates cs) with
  | Done (Ok _) => validateBoundSteps rules 0 None (Bounds cs)
  | other => other
  end.

(** [func (cs *CommissionSchedule) validateAmendmentAcceptable(rules, now) error];
    the sum [now+rules.RateBoundLead] is a [uint64] sum. *)
Definition validateAmendmentAcceptable (cs : CommissionSchedule)
    (rules : CommissionScheduleRules) (now : EpochTime) : result ScheduleError unit :=
  let ratesAcceptable :=
    match Rates cs with
    | r0 :: _ =>
        if Start r0 <=? now then Err (ErrRateAltersPast (Start r0) now) else Ok tt
    | [] => Ok tt
    end in
  match ratesAcceptable with
  | Err err => Err err
  | Ok _ =>
      match Bounds cs with
      | b0 :: _ =>
          let limit := (now + RateBoundLead rules) `mod` 2 ^ 64 in
          if bStart b0 <=? limit then Err (ErrBoundAltersPast (bStart b0) limit)
          else Ok tt
      | [] => Ok tt
      end
  end.

(** The first loop of [Prune]: [for len(cs.Rates) > 1], dropping the first
    step as long as the second has started. *)
Fixpoint pruneRates (now : EpochTime) (steps : list CommissionRateStep)
    : list CommissionRateStep :=
  match steps with
  | first :: ((second :: _) as rest) =>
      if Start second >? now then steps else pruneRates now rest
  | _ => steps
  end.

(** The second loop of [Prune], over [cs.Bounds]. *)
Fixpoint pruneBounds (now : EpochTime) (steps : list CommissionRateBoundStep)
    : list CommissionRateBoundStep :=
  match steps with
  | first :: ((second :: _) as rest) =>
      if bStart second >? now then steps else pruneBounds now rest
  | _ => steps
  end.

(** [func (cs *CommissionSchedule) Prune(now)] *)
Definition Prune (cs : CommissionSchedule) (now : EpochTime) : CommissionSchedule :=
  {| Rates := pruneRates now (Rates cs); Bounds := pruneBounds now (Bounds cs) |}.

(** The loop of [amend] that finds [rateSpliceIndex]: the index of the
    first step that starts at or after the amendment's first step. *)
Fixpoint rateSpliceIndex (start : EpochTime) (steps : list CommissionRateStep) : nat :=
  match steps with
  | [] => 0
  | step :: steps' =>
      if Start step >=? start then 0 else S (rateSpliceIndex start steps')
  end.

Fixpoint boundSpliceIndex (start : EpochTime) (steps : list CommissionRateBoundStep)
    : nat :=
  match steps with
  | [] => 0
  | step :: steps' =>
      if bStart step >=? start then 0 else S (boundSpliceIndex start steps')
  end.

(** [func (cs *CommissionSchedule) amend(amendment)] *)
Definition amend (cs amendment : CommissionSchedule) : CommissionSchedule :=
  {| Rates :=
       match Rates amendment with
       | a0 :: _ =>
           take (rateSpliceIndex (Start a0) (Rates cs)) (Rates cs) ++ Rates amendment
       | [] => Rates cs
       end;
     Bounds :=
       match Bounds amendment with
       | a0 :: _ =>
           take (boundSpliceIndex (bStart a0) (Bounds cs)) (Bounds cs)
             ++ Bounds amendment
       | [] => Bounds cs
       end |}.

(** The [for] loop of [validateWithinBound].  [currentRate] is
    [cs.Rates[currentRateIndex]] and [rates] the steps after it, and the
    same for the bounds.  Each round moves on in at least one of the two
    lists, so the loop ends within [fuel] rounds when [fuel] exceeds the
    number of steps left; [None] says the fuel ran out. *)
Fixpoint withinBoundLoop (fuel : nat)
    (currentRateIndex : nat) (currentRate : CommissionRateStep)
    (rates : list CommissionRateStep)
    (currentBoundIndex : nat) (currentBound : CommissionRateBoundStep)
    (bounds : list CommissionRateBoundStep)
    (diagnosticTime : EpochTime) : option (result ScheduleError unit) :=
  match fuel with
  | O => None
  | S fuel' =>
      if (Rate currentRate <? RateMin currentBound)%N
      then Some (Err (ErrRateLessThanMin (Rate currentRate) currentRateIndex
                        (RateMin currentBound) currentBoundIndex diagnosticTime))
      else if (RateMax currentBound <? Rate currentRate)%N
      then Some (Err (ErrRateGreaterThanMax (Rate currentRate) currentRateIndex
                        (RateMax currentBound) currentBoundIndex diagnosticTime))
      else
        (* Determine what changes next. *)
        match rates, bounds with
        | [], [] =>
            (* Current rate and bound continue happily ever after. *)
            Some (Ok tt)
        | nextRate :: rates', [] =>
            withinBoundLoop fuel' (S currentRateIndex) nextRate rates'
              currentBoundIndex currentBound bounds (Start nextRate)
        | [], nextBound :: bounds' =>
            withinBoundLoop fuel' currentRateIndex currentRate rates
              (S currentBoundIndex) nextBound bounds' (bStart nextBound)
        | nextRate :: rates', nextBound :: bounds' =>
            if Start nextRate <=? bStart nextBound
            then
              if bStart nextBound <=? Start nextRate
              then
                (* Rate and bound change. *)
                withinBoundLoop fuel' (S currentRateIndex) nextRate rates'
                  (S currentBoundIndex) nextBound bounds' (bStart nextBound)
              else
                (* Rate changes. *)
                withinBoundLoop fuel' (S currentRateIndex) nextRate rates'
                  currentBoundIndex currentBound bounds (Start nextRate)
            else
              (* Bound changes. *)
              withinBoundLoop fuel' currentRateIndex currentRate rates
                (S currentBoundIndex) nextBound bounds' (bStart nextBound)
        end
  end.

(** [func (cs *CommissionSchedule) validateWithinBound(now) error] *)
Definition validateWithinBound (cs : CommissionSchedule) (now : EpochTime)
    : option (result ScheduleError unit) :=
  match Rates cs, Bounds cs with
  | [], [] =>
      (* Nothing to check. *)
      Some (Ok tt)
  | [], _ :: _ => Some (Err ErrRatesMissing)
  | _ :: _, [] => Some (Err ErrBoundsMissing)
  | currentRate :: rates, currentBound :: bounds =>
      let fuel := S (length rates + length bounds) in
      if (Start currentRate >? now) || (bStart currentBound >? now)
      then
        if negb (Start currentRate =? bStart currentBound)
        then Some (Err (ErrStartsDontMatch (Start currentRate) (bStart currentBound)))
        else withinBoundLoop fuel 0 currentRate rates 0 currentBound bounds
               (Start currentRate)
      else withinBoundLoop fuel 0 currentRate rates 0 currentBound bounds now
  end.

(** [func (cs *CommissionSchedule) CurrentRate(now) *quantity.Quantity] *)
Fixpoint currentRateLoop (now : EpochTime) (latestStartedStep : option CommissionRateStep)
    (steps : list CommissionRateStep) : option CommissionRateStep :=
  match steps with
  | [] => latestStartedStep
  | step :: steps' =>
      if Start step >? now then latestStartedStep
      else currentRateLoop now (Some step) steps'
  end.

Definition CurrentRate (cs : CommissionSchedule) (now : EpochTime) : option Quantity :=
  match currentRateLoop now None (Rates cs) with
  | None => None
  | Some latestStartedStep => Some (Rate latestStartedStep)
  end.

(** What a function that changes the schedule and may fail leaves behind:
    the schedule as it is when the function returns, and its answer. *)
Inductive Run :=
| Panicked (msg : string)
| OutOfFuel
| Returned (cs : CommissionSchedule) (r : result ScheduleError unit).

(** [func (cs *CommissionSchedule) PruneAndValidateForGenesis(rules, now) error] *)
Definition PruneAndValidateForGenesis (cs : CommissionSchedule)
    (rules : CommissionScheduleRules) (now : EpochTime) : Run :=
  match validateComplexity cs rules with
  | Err err => Returned cs (Err err)
  | Ok _ =>
      match validateNondegenerate cs rules with
      | Panic msg => Panicked msg
      | Done (Err err) => Returned cs (Err err)
      | Done (Ok _) =>
          let cs := Prune cs now in
          match validateWithinBound cs now with
          | None => OutOfFuel
          | Some (Err err) => Returned cs (Err (ErrAfterPruning err))
          | Some (Ok _) => Returned cs (Ok tt)
          end
      end
  end.

(** [func (cs *CommissionSchedule) AmendAndPruneAndValidate(amendment, rules, now) error] *)
Definition AmendAndPruneAndValidate (cs amendment : CommissionSchedule)
    (rules : CommissionScheduleRules) (now : EpochTime) : Run :=
  match validateComplexity amendment rules with
  | Err err => Returned cs (Err (ErrAmendment err))
  | Ok _ =>
      match validateNondegenerate amendment rules with
      | Panic msg => Panicked msg
      | Done (Err err) => Returned cs (Err (ErrAmendment err))
      | Done (Ok _) =>
          match validateAmendmentAcceptable amendment rules now with
          | Err err => Returned cs (Err (ErrAmendment err))
          | Ok _ =>
              let cs := Prune cs now in
              let cs := amend cs amendment in
              match validateComplexity cs rules with
              | Err err => Returned cs (Err (ErrAfterPruningAndAmending err))
              | Ok _ =>
                  match validateWithinBound cs now with
                  | None => OutOfFuel
                  | Some (Err err) =>
                      Returned cs (Err (ErrAfterPruningAndAmending err))
                  | Some (Ok _) => Returned cs (Ok tt)
                  end
              end
          end
      end
  end.

(** The bound step in effect at an epoch: the latest bound step that has
    started, found the way [CurrentRate] finds the rate step.  The file has
    no such function; the properties of [validateWithinBound] are stated
    with it. *)
Fixpoint currentBoundLoop (now : EpochTime)
    (latestStartedStep : option CommissionRateBoundStep)
    (steps : list CommissionRateBoundStep) : option CommissionRateBoundStep :=
  match steps with
  | [] => latestStartedStep
  | step :: steps' =>
      if bStart step >? now then latestStartedStep
      else currentBoundLoop now (Some step) steps'
  end.

Definition CurrentBound (cs : CommissionSchedule) (now : EpochTime)
    : option CommissionRateBoundStep :=
  currentBoundLoop now None (Bounds cs).

(** The starts of a list of steps go up strictly. *)
Fixpoint increasing (starts : list EpochTime) : Prop :=
  match starts with
  | a :: ((b :: _) as rest) => a < b ∧ increasing rest
  | _ => True
  end.

(** What [validateNondegenerate] asks of each rate step and of each bound
    step, beside the order of the starts. *)
Definition rateStepOk (rules : CommissionScheduleRules) (s : CommissionRateStep)
    : Prop :=
  Start s `mod` RateChangeInterval rules = 0 ∧
  (Rate s ≤ CommissionRateDenominator)%N.

Definition boundStepOk (rules : CommissionScheduleRules)
    (s : CommissionRateBoundStep) : Prop :=
  bStart s `mod` RateChangeInterval rules = 0 ∧
  (RateMin s ≤ RateMax s ≤ CommissionRateDenominator)%N.

Definition nondegenerate (rules : CommissionScheduleRules)
    (cs : CommissionSchedule) : Prop :=
  (Forall (rateStepOk rules) (Rates cs) ∧ increasing (Start <$> Rates cs)) ∧
  (Forall (boundStepOk rules) (Bounds cs) ∧ increasing (bStart <$> Bounds cs)).

End staking.
(** ** Fixtures: concrete dependencies and inputs *)
Module fixtures.
Import block.

#[global] Instance HeaderType_countable : Countable HeaderType.
Proof.
  refine (inj_countable'
    (λ t, match t with
          | Invalid => 0%nat | Normal => 1%nat | RoundFailed => 2%nat
          | EpochTransition => 3%nat | Suspended => 4%nat
          end)
    (λ n, match n with
          | 0%nat => Invalid | 1%nat => Normal | 2%nat => RoundFailed
          | 3%nat => EpochTransition | _ => Suspended
          end) _).
  intros []; reflexivity.
Defined.

#[global] Instance Signature_countable : Countable Signature.
Proof.
  refine (inj_countable'
    (λ s, (PublicKey s, RawSignature s))
    (λ p, {| PublicKey := fst p; RawSignature := snd p |}) _).
  intros []; reflexivity.
Defined.

#[global] Instance Header_countable : Countable Header.
Proof.
  refine (inj_countable'
    (λ h, (Version h, Namespace_ h, Round h, Timestamp h, HeaderType_ h,
           (PreviousHash h, IORoot h, StateRoot h, MessagesHash h,
            StorageSignatures h)))
    (λ p, match p with
          | (v, ns, r, ts, ty, (ph, io, st, mh, sigs)) =>
              mkHeader v ns r ts ty ph io st mh sigs
          end) _).
  intros []; reflexivity.
Defined.

(** An idealised digest: the position of the header in an enumeration of
    all headers, so that no two headers collide. *)
Definition idealNewFrom (h : Header) : Hash := Npos (encode h).

(** A multi-signature check that accepts exactly the signatures whose raw
    value is the length of the message. *)
Definition toyVerifyManyToOne (context : string) (message : Bytes)
    (sigs : list Signature) : bool :=
  forallb (λ s, N.eqb (RawSignature s) (N.of_nat (length message))) sigs.

Definition toyBlockDeps : block.Deps :=
  {| NewFrom := idealNewFrom;
     cbor_Marshal := λ body, [];
     ReceiptSignatureContext := "oasis-core/storage: receipt";
     VerifyManyToOne := toyVerifyManyToOne |}.

Definition header1 : Header :=
  {| Version := 0; Namespace_ := 7%N; Round := 5; Timestamp := 1600000000;
     HeaderType_ := Normal; PreviousHash := 11%N; IORoot := 12%N;
     StateRoot := 13%N; MessagesHash := 14%N; StorageSignatures := [] |}.

(** [header1] with one storage signature. *)
Definition header1_signed : Header :=
  {| Version := 0; Namespace_ := 7%N; Round := 5; Timestamp := 1600000000;
     HeaderType_ := Normal; PreviousHash := 11%N; IORoot := 12%N;
     StateRoot := 13%N; MessagesHash := 14%N;
     StorageSignatures := [ {| PublicKey := 3%N; RawSignature := 0%N |} ] |}.

(** A header of a later round. *)
Definition header2 : Header :=
  {| Version := 0; Namespace_ := 7%N; Round := 6; Timestamp := 1600000006;
     HeaderType_ := Normal; PreviousHash := 21%N; IORoot := 22%N;
     StateRoot := 23%N; MessagesHash := 24%N; StorageSignatures := [] |}.


(** *** The committee node *)

Definition toySignature : Signature := {| PublicKey := 3%N; RawSignature := 0%N |}.

(** Dependencies of the committee node whose storage backend, receipt check
    and transport succeed or fail as the three flags say; the table of
    state transitions is the one of the specification. *)
Definition toyCommitteeDeps (applyOk verifyOk publishOk : bool) : committee.Deps :=
  {| committee.validStateTransitions := committee.specStateTransitions;
     committee.Now := 1000;
     committee.EmptyHash := 0%N;
     committee.byzantineMaybeInjectDiscrepancy := λ batch, batch;
     committee.Storage_ApplyBatch := λ ops,
       if applyOk
       then Ok {| committee.sr_Blob := []; committee.sr_Signature := toySignature |}
       else Err (ErrMsg "storage: apply failed");
     committee.SignedReceipt_Open := λ sr,
       Ok {| committee.mrb_Version := 1; committee.mrb_Roots := [] |};
     committee.ComputeBody_VerifyStorageReceipt := λ body receipt,
       if verifyOk then Ok tt else Err (ErrMsg "roothash: receipt has unexpected roots");
     committee.SignComputeCommitment := λ body,
       Ok {| committee.cc_Body := body; committee.cc_Signature := 9%N |};
     committee.Group_PublishComputeFinished := λ sc commit,
       if publishOk then Ok tt else Err (ErrMsg "p2p: publish failed") |}.

Definition primaryWorker : committee.EpochSnapshot :=
  {| committee.IsComputeMember := true; committee.IsComputeBackupWorker := false;
     committee.IsMergeMember := true; committee.GetComputeCommitteeID := 42%N |}.

Definition backupWorker : committee.EpochSnapshot :=
  {| committee.IsComputeMember := true; committee.IsComputeBackupWorker := true;
     committee.IsMergeMember := false; committee.GetComputeCommitteeID := 42%N |}.

Definition notMember : committee.EpochSnapshot :=
  {| committee.IsComputeMember := false; committee.IsComputeBackupWorker := false;
     committee.IsMergeMember := false; committee.GetComputeCommitteeID := 42%N |}.

Definition commonNodeOf (epoch : committee.EpochSnapshot) : committee.CommonNode :=
  {| committee.RuntimeID := 7%N;
     committee.CurrentBlock := Some {| Header_ := header1 |};
     committee.Group_EpochSnapshot := epoch |}.

(** A node waiting for a batch. *)
Definition nodeWaiting (epoch : committee.EpochSnapshot) : committee.Node :=
  {| committee.commonNode := commonNodeOf epoch; committee.hasMergeNode := true;
     committee.state := committee.StateWaitingForBatch; committee.nextProc := 0%nat |}.

Definition batch1 : committee.Batch := [ [Byte.x01]; [Byte.x02] ].

(** A node processing [batch1]. *)
Definition nodeProcessing : committee.Node :=
  {| committee.commonNode := commonNodeOf primaryWorker;
     committee.hasMergeNode := true;
     committee.state := committee.StateProcessingBatch batch1 None 1000 0%nat;
     committee.nextProc := 1%nat |}.

Definition computed1 : committee.ComputedBatch :=
  {| committee.cb_Header :=
       {| committee.crh_IORoot := 31%N; committee.crh_StateRoot := 32%N |};
     committee.cb_IOWriteLog := []; committee.cb_StateWriteLog := [];
     committee.cb_RakSig := 5%N |}.

(** *** The transaction pool *)

(** A toy digest of a byte string: its bytes read as a number in base 256,
    after a leading one. *)
Definition toyNewFromBytes (raw : Bytes) : Hash :=
  fold_left (λ acc b, (acc * 256 + Byte.to_N b)%N) raw 1%N.

(** The toy runtime accepts a transaction unless its first byte is [0xff]. *)
Definition toyCheck (raw : Bytes) : txpool.CheckTxResult :=
  match raw with
  | Byte.xff :: _ =>
      {| txpool.res_Success := false; txpool.res_Weights := [];
         txpool.res_Error := Some "invalid transaction" |}
  | _ =>
      {| txpool.res_Success := true;
         txpool.res_Weights := [(txpool.WeightCount, 1)];
         txpool.res_Error := None |}
  end.

(** Dependencies of the pool; the flag says whether the runtime host
    answers a [CheckTx] call at all. *)
Definition toyPoolDeps (hostOk : bool) : txpool.Deps :=
  {| txpool.NewFromBytes := toyNewFromBytes;
     txpool.Now := 5000;
     txpool.CheckTx := λ bi raws,
       if hostOk then Ok (toyCheck <$> raws)
       else Err (ErrMsg "runtime host: aborted");
     txpool.PublishTx := λ raw, Ok tt;
     txpool.scheduling_New := λ maxPoolSize algo limits,
       Ok {| txpool.sched_Name := algo; txpool.sched_maxPoolSize := maxPoolSize;
             txpool.sched_weightLimits := limits; txpool.sched_queue := [] |} |}.

Definition toyConfig : txpool.Config :=
  {| txpool.MaxPoolSize := 100; txpool.MaxCheckTxBatchSize := 10;
     txpool.MaxLastSeenCacheSize := 10; txpool.RepublishInterval := 60;
     txpool.MaxRepublishBatchSize := 32; txpool.RecheckInterval := 32 |}.

Definition toyRuntime (algo : string) : txpool.Runtime :=
  {| txpool.Executor_MaxMessages := 32;
     txpool.TxnScheduler_Algorithm := algo;
     txpool.TxnScheduler_MaxBatchSize := 1000;
     txpool.TxnScheduler_MaxBatchSizeBytes := 100000;
     txpool.TxnScheduler_BatchFlushTimeout := 1 |}.

Definition blockInfoOf (h : Header) (algo : string) : txpool.BlockInfo :=
  {| txpool.RuntimeBlock := {| Header_ := h |};
     txpool.ConsensusBlock := 100;
     txpool.Epoch := 1;
     txpool.ActiveDescriptor := toyRuntime algo |}.

Definition toyScheduler (txs : list txpool.CheckedTransaction) : txpool.Scheduler :=
  {| txpool.sched_Name := "simple"; txpool.sched_maxPoolSize := 100;
     txpool.sched_weightLimits := {[ txpool.WeightCount := 1000 ]};
     txpool.sched_queue := txs |}.

(** A pool after its first block, with the given seen cache entries, check
    queue and scheduled transactions. *)
Definition poolWith (seen : list (Hash * Time)) (pending : list txpool.pendingTx)
    (scheduled : list txpool.CheckedTransaction) : txpool.txPool :=
  {| txpool.initCh := true; txpool.cfg := toyConfig;
     txpool.seenCache := {| txpool.capacity := 10; txpool.entries := seen |};
     txpool.checkTxCh := false;
     txpool.checkTxQueue_ :=
       {| txpool.maxSize := 100; txpool.maxBatchSize := 10; txpool.queue := pending |};
     txpool.recheckTxCh := false;
     txpool.scheduler := Some (toyScheduler scheduled);
     txpool.schedulerTicker := 1;
     txpool.blockInfo := Some (blockInfoOf header1 "simple");
     txpool.lastRecheckRound := 5;
     txpool.epoCh := false; txpool.republishCh := false;
     txpool.roundWeightLimits := {[ txpool.WeightCount := 1000 ]};
     txpool.nextChan := 0%nat |}.

Definition txGood : Bytes := [Byte.x01; Byte.x02].
Definition txBad : Bytes := [Byte.xff; Byte.x02].

Definition metaPlain : txpool.TransactionMeta :=
  {| txpool.Local := false; txpool.Discard := false; txpool.Recheck := false |}.
Definition metaLocal : txpool.TransactionMeta :=
  {| txpool.Local := true; txpool.Discard := false; txpool.Recheck := false |}.
Definition metaDiscard : txpool.TransactionMeta :=
  {| txpool.Local := false; txpool.Discard := true; txpool.Recheck := false |}.
Definition metaRecheck : txpool.TransactionMeta :=
  {| txpool.Local := false; txpool.Discard := false; txpool.Recheck := true |}.

Definition pendingOf (raw : Bytes) (meta : txpool.TransactionMeta)
    (ch : option txpool.Chan) : txpool.pendingTx :=
  {| txpool.Tx := raw; txpool.TxHash := toyNewFromBytes raw;
     txpool.Meta := meta; txpool.NotifyCh := ch |}.

Definition checkedOf (raw : Bytes) : txpool.CheckedTransaction :=
  {| txpool.Raw := raw; txpool.Hash_ := toyNewFromBytes raw;
     txpool.Weights := [(txpool.WeightCount, 1)] |}.

(** Commission schedules: a rate change interval of 10 epochs and a bound
    lead of 20. *)
Definition toyRules : staking.CommissionScheduleRules :=
  staking.mkRules 10 20 4 4.

Definition zeroIntervalRules : staking.CommissionScheduleRules :=
  staking.mkRules 0 20 4 4.

Definition wrappingRules : staking.CommissionScheduleRules :=
  staking.mkRules 10 (2 ^ 64 - 10) 4 4.

Definition schedule1 : staking.CommissionSchedule :=
  staking.mkSchedule
    [staking.mkRateStep 0 5000%N; staking.mkRateStep 10 6000%N]
    [staking.mkBoundStep 0 0%N 10000%N].

Definition amendment1 : staking.CommissionSchedule :=
  staking.mkSchedule
    [staking.mkRateStep 30 7000%N]
    [staking.mkBoundStep 40 1000%N 20000%N].

Definition boundsAt (start : staking.EpochTime) : staking.CommissionSchedule :=
  staking.mkSchedule [] [staking.mkBoundStep start 0%N 100000%N].

(** A backup worker waiting for a discrepancy event with [batch1]. *)
Definition nodeWaitingForEvent : committee.Node :=
  {| committee.commonNode := commonNodeOf backupWorker;
     committee.hasMergeNode := false;
     committee.state := committee.StateWaitingForEvent batch1 None;
     committee.nextProc := 0%nat |}.

(** The common node once the block with header [h] is the current one. *)
Definition commonNodeAt (h : Header) (epoch : committee.EpochSnapshot)
    : committee.CommonNode :=
  {| committee.RuntimeID := 7%N;
     committee.CurrentBlock := Some {| Header_ := h |};
     committee.Group_EpochSnapshot := epoch |}.

(** Dependencies of the pool whose runtime host answers a [CheckTx] call
    with one result too many. *)
Definition talkativePoolDeps : txpool.Deps :=
  {| txpool.NewFromBytes := toyNewFromBytes;
     txpool.Now := 5000;
     txpool.CheckTx := λ bi raws, Ok (toyCheck <$> ([] :: raws));
     txpool.PublishTx := λ raw, Ok tt;
     txpool.scheduling_New := λ maxPoolSize algo limits,
       Ok {| txpool.sched_Name := algo; txpool.sched_maxPoolSize := maxPoolSize;
             txpool.sched_weightLimits := limits; txpool.sched_queue := [] |} |}.

End fixtures.


(** ** Properties of [header.go] *)
Section header_properties.
Import block.

Lemma clearSignatures_idemp (h : Header) :
  clearSignatures (clearSignatures h) = clearSignatures h.
Proof. reflexivity. Qed.



End header_properties.

(** C3.  [VerifyStorageReceiptSignatures h] succeeds if and only if
    [StorageSignatures h] is accepted by the multi-signature check, under
    the storage receipt signature context, over the canonical encoding of
    the receipt body with version 1, the header's namespace and round, the
    root types [IO, State] and the roots [IORoot h, StateRoot h]; in every
    other case it returns [ErrVerifyFailed]. *)
Theorem VerifyStorageReceiptSignatures_spec `{block.Deps} (h : block.Header) :
  let body :=
    {| block.rb_Version := 1;
       block.rb_Namespace := block.Namespace_ h;
       block.rb_Round := block.Round h;
       block.rb_RootTypes := [block.RootTypeIO; block.RootTypeState];
       block.rb_Roots := [block.IORoot h; block.StateRoot h] |} in
  let valid :=
    block.VerifyManyToOne block.ReceiptSignatureContext (block.cbor_Marshal body)
      (block.StorageSignatures h) in
  (block.VerifyStorageReceiptSignatures h = Ok tt ↔ valid = true) ∧
  block.VerifyStorageReceiptSignatures h
    = (if valid then Ok tt else Err ErrVerifyFailed).
Proof.
  cbv zeta. unfold block.VerifyStorageReceiptSignatures, block.receiptBodyOf,
    block.RootTypesForStorageReceipt, block.RootsForStorageReceipt.
  destruct (block.VerifyManyToOne _ _ _); simpl; split;
    first [ reflexivity | split; congruence ].
Qed.







(** ** The effect monad *)
Section eff_lemmas.
Context {S E : Type}.

Lemma bind_Done {A B} (m : Eff S E A) (k : A → Eff S E B) s b s2 tr :
  (m ≫= k) s = Done (b, s2, tr) →
  ∃ a s1 tr1 tr2,
    m s = Done (a, s1, tr1) ∧ k a s1 = Done (b, s2, tr2) ∧ tr = tr1 ++ tr2.
Proof.
  unfold mbind, Eff_bind, eff_bind.
  destruct (m s) as [[[a s1] tr1]|]; [|discriminate].
  destruct (k a s1) as [[[b' s2'] tr2]|] eqn:Hk; [|discriminate].
  intros [= -> -> <-]. eauto 10.
Qed.

Lemma bind_eq {A B} (m : Eff S E A) (k : A → Eff S E B) s a s1 tr1 :
  m s = Done (a, s1, tr1) →
  (m ≫= k) s = match k a s1 with
               | Done (b, s2, tr2) => Done (b, s2, tr1 ++ tr2)
               | Panic msg => Panic msg
               end.
Proof. unfold mbind, Eff_bind, eff_bind. by intros ->. Qed.

End eff_lemmas.

Ltac eff_unfold :=
  unfold mbind, mret, Eff_bind, Eff_ret, eff_bind, eff_ret, get, put, modify,
    emit, panic in *.

(** ** Properties of [node.go] *)
Section node_properties.
Import committee.
Context `{BD : block.Deps} `{CD : committee.Deps}.

Lemma allowed_iff (dests : list StateName) (b : StateName) :
  existsb (λ dest, bool_decide (dest = b)) dests = true ↔ b ∈ dests.
Proof.
  rewrite existsb_exists. split.
  - intros (x & Hin & Hx). apply bool_decide_eq_true in Hx as ->.
    by apply list_elem_of_In.
  - intros Hin. exists b. split; [by apply list_elem_of_In|].
    by apply bool_decide_eq_true.
Qed.

Lemma transitionLocked_allowed (st : NodeState) (n : Node) :
  edge (Name (state n)) (Name st) →
  transitionLocked st n
    = Done (tt, set_state n st, [EvStateTransition st; EvBumpReselect]).
Proof.
  intros Hedge. apply allowed_iff in Hedge.
  unfold transitionLocked. eff_unfold. by rewrite Hedge.
Qed.

Lemma transitionLocked_refused (st : NodeState) (n : Node) :
  ¬ edge (Name (state n)) (Name st) →
  transitionLocked st n = Panic "invalid state transition".
Proof.
  intros Hedge. unfold edge in Hedge. rewrite <- allowed_iff in Hedge.
  apply not_true_is_false in Hedge.
  unfold transitionLocked. eff_unfold. by rewrite Hedge.
Qed.


End node_properties.

(** C7 (as amended).  A node in [WaitingForBatch] that receives an external
    batch: if the node is not a compute member the batch is rejected with
    the incorrect-role error and nothing changes; otherwise, if the current
    block's header mostly equals the batch's header, the node moves to
    [ProcessingBatch] (to [WaitingForEvent] when it is a backup worker); if
    the current block's round is strictly older than the header's round, it
    moves to [WaitingForBlock], storing the batch and the header; otherwise
    the batch is rejected with the incompatible-header error and nothing
    changes.  The three transitions are assumed to be in the table. *)
Theorem handleExternalBatchLocked_spec `{block.Deps} `{committee.Deps}
    (n : committee.Node) (batch : committee.Batch) (sc : committee.SpanContext)
    (hdr : block.Header) (blk : block.Block) :
  committee.state n = committee.StateWaitingForBatch →
  committee.CurrentBlock (committee.commonNode n) = Some blk →
  committee.edge committee.WaitingForBatch committee.ProcessingBatch →
  committee.edge committee.WaitingForBatch committee.WaitingForEvent →
  committee.edge committee.WaitingForBatch committee.WaitingForBlock →
  let epoch := committee.Group_EpochSnapshot (committee.commonNode n) in
  ∃ r n' tr,
    committee.handleExternalBatchLocked batch sc hdr n = Done (r, n', tr) ∧
    if negb (committee.IsComputeMember epoch)
    then r = Err errIncorrectRole ∧ n' = n ∧ tr = []
    else if block.MostlyEqual (block.Header_ blk) hdr
    then r = Ok tt ∧
         committee.state n' =
           (if committee.IsComputeBackupWorker epoch
            then committee.StateWaitingForEvent batch sc
            else committee.StateProcessingBatch batch sc committee.Now
                   (committee.nextProc n))
    else if block.Round (block.Header_ blk) <? block.Round hdr
    then r = Ok tt ∧ committee.state n' = committee.StateWaitingForBlock batch sc hdr
    else r = Err errIncomatibleHeader ∧ n' = n ∧ tr = [].
Proof.
  intros Hst Hblk Hpb Hwe Hwb epoch. subst epoch.
  unfold committee.handleExternalBatchLocked.
  rewrite (bind_eq _ _ n n n []) by reflexivity.
  rewrite Hst, Hblk.
  destruct (committee.IsComputeMember _) eqn:Hmember; simpl.
  2:{ eexists _, _, _. split; [reflexivity|]. auto. }
  destruct (block.MostlyEqual _ _) eqn:Heq.
  - unfold committee.maybeStartProcessingBatchLocked.
    destruct (committee.IsComputeBackupWorker _) eqn:Hbackup.
    + eff_unfold. rewrite Hbackup.
      rewrite transitionLocked_allowed by (rewrite Hst; exact Hwe).
      eexists _, _, _. split; [reflexivity|]. simpl. auto.
    + unfold committee.startProcessingBatchLocked. eff_unfold.
      rewrite Hbackup, Hblk.
      rewrite transitionLocked_allowed by (simpl; rewrite Hst; exact Hpb).
      eexists _, _, _. split; [reflexivity|]. simpl. auto.
  - destruct (block.Round (block.Header_ blk) <? block.Round hdr) eqn:Hlt.
    + apply Z.ltb_lt in Hlt.
      assert ((block.Round (block.Header_ blk) >=? block.Round hdr) = false) as ->
        by (rewrite Z.geb_leb; apply Z.leb_gt; lia).
      eff_unfold.
      rewrite transitionLocked_allowed by (rewrite Hst; exact Hwb).
      eexists _, _, _. split; [reflexivity|]. simpl. auto.
    + apply Z.ltb_ge in Hlt.
      assert ((block.Round (block.Header_ blk) >=? block.Round hdr) = true) as ->
        by (rewrite Z.geb_leb; apply Z.leb_le; lia).
      eexists _, _, _. split; [reflexivity|]. auto.
Qed.

Lemma handleExternalBatchLocked_spec_witness :
  ∃ r n' tr,
    @committee.handleExternalBatchLocked fixtures.toyBlockDeps
      (fixtures.toyCommitteeDeps true true true)
      fixtures.batch1 None fixtures.header2
      (fixtures.nodeWaiting fixtures.backupWorker) = Done (r, n', tr) ∧
    r = Ok tt ∧
    committee.state n' = committee.StateWaitingForBlock fixtures.batch1 None fixtures.header2.
Proof.
  apply (@handleExternalBatchLocked_spec fixtures.toyBlockDeps
           (fixtures.toyCommitteeDeps true true true)
           (fixtures.nodeWaiting fixtures.backupWorker) fixtures.batch1 None
           fixtures.header2 {| block.Header_ := fixtures.header1 |});
    vm_compute; first [ reflexivity | set_solver ].
Defined.

(** C7, counterexample.  A node in [WaitingForBatch] that is not a compute
    member receives a batch whose header mostly equals the current block's
    header: the batch is rejected with the incorrect-role error and the node
    stays in [WaitingForBatch]; it moves neither to [ProcessingBatch] nor to
    [WaitingForEvent]. *)
Lemma handleExternalBatchLocked_not_member :
  let n := fixtures.nodeWaiting fixtures.notMember in
  committee.state n = committee.StateWaitingForBatch ∧
  @block.MostlyEqual fixtures.toyBlockDeps fixtures.header1 fixtures.header1_signed
    = true ∧
  @committee.handleExternalBatchLocked fixtures.toyBlockDeps
    (fixtures.toyCommitteeDeps true true true)
    fixtures.batch1 None fixtures.header1_signed n
    = Done (Err errIncorrectRole, n, []).
Proof. vm_compute. auto. Qed.

Lemma abortBatchLocked_processing `{block.Deps} `{committee.Deps}
    (n : committee.Node) reason b sc start proc :
  committee.state n = committee.StateProcessingBatch b sc start proc →
  committee.edge committee.ProcessingBatch committee.WaitingForFinalize →
  committee.abortBatchLocked reason n
    = Done (tt, committee.set_state n (committee.StateWaitingForFinalize start),
            [committee.EvCancel proc;
             committee.EvStateTransition (committee.StateWaitingForFinalize start);
             committee.EvBumpReselect]).
Proof.
  intros Hst Hedge. unfold committee.abortBatchLocked.
  rewrite (bind_eq _ _ n n n []) by reflexivity. rewrite Hst.
  eff_unfold.
  rewrite transitionLocked_allowed by (rewrite Hst; exact Hedge).
  reflexivity.
Qed.



(** *** Every change of state is checked and broadcast *)
Section node_checked_moves.
Import committee.
Context `{BD : block.Deps} `{CD : committee.Deps}.


















End node_checked_moves.



(** The failing input of C10 on the table of the specification: a node that
    becomes a compute member at an epoch transition and is handed two
    batches by the transaction scheduler, the second while it is still
    processing the first, reaches the panic of [transitionLocked]; the
    table has no edge from [ProcessingBatch] to [ProcessingBatch]. *)
Example transitionLocked_panic_reachable :
  (committee.ProcessingBatch ∉ committee.specStateTransitions committee.ProcessingBatch) ∧
  (@committee.runAll fixtures.toyBlockDeps (fixtures.toyCommitteeDeps true true true)
     [committee.OpEpochTransition fixtures.primaryWorker;
      committee.OpBatchFromTransactionScheduler None fixtures.batch1;
      committee.OpBatchFromTransactionScheduler None fixtures.batch1]
     (committee.NewNode (fixtures.commonNodeOf fixtures.primaryWorker) true)
   = Panic "invalid state transition").
Proof.
  split; [|vm_compute; reflexivity].
  intros Hin. repeat (apply elem_of_cons in Hin as [Hin|Hin]; [discriminate|]).
  by apply not_elem_of_nil in Hin.
Qed.


(** The panic of [transitionLocked] does not depend on the table of the
    specification: for every table without the edge from [ProcessingBatch]
    to itself, a batch from the transaction scheduler panics on a primary
    worker that is processing a batch. *)
Lemma second_batch_panics `{block.Deps} `{committee.Deps} (n : committee.Node)
    (batch b0 : committee.Batch) (sc sc0 : committee.SpanContext) (start : Time)
    (proc : nat) (blk : block.Block) :
  committee.state n = committee.StateProcessingBatch b0 sc0 start proc →
  committee.CurrentBlock (committee.commonNode n) = Some blk →
  committee.IsComputeBackupWorker
    (committee.Group_EpochSnapshot (committee.commonNode n)) = false →
  ¬ committee.edge committee.ProcessingBatch committee.ProcessingBatch →
  committee.HandleBatchFromTransactionSchedulerLocked sc batch n
    = Panic "invalid state transition".
Proof.
  intros Hst Hblk Hbackup Hedge.
  unfold committee.HandleBatchFromTransactionSchedulerLocked,
    committee.maybeStartProcessingBatchLocked, committee.startProcessingBatchLocked.
  eff_unfold. rewrite Hbackup, Hblk.
  rewrite transitionLocked_refused; [reflexivity|].
  simpl. by rewrite Hst.
Qed.

(** The same for an epoch transition that finds the node processing a
    batch, for every table without the edge from [ProcessingBatch] to
    [WaitingForBatch]. *)
Lemma epoch_transition_while_processing_panics `{block.Deps} `{committee.Deps}
    (n : committee.Node) (epoch : committee.EpochSnapshot)
    (b0 : committee.Batch) (sc0 : committee.SpanContext) (start : Time) (proc : nat) :
  committee.state n = committee.StateProcessingBatch b0 sc0 start proc →
  committee.IsComputeMember epoch = true →
  ¬ committee.edge committee.ProcessingBatch committee.WaitingForBatch →
  committee.HandleEpochTransitionLocked epoch n = Panic "invalid state transition".
Proof.
  intros Hst Hmember Hedge. unfold committee.HandleEpochTransitionLocked.
  rewrite Hmember. apply transitionLocked_refused. by rewrite Hst.
Qed.

(** A round as the specification tells it (scenario S3, on one node): the
    node becomes a compute member, gets a batch, the runtime returns the
    result, the commitment is published and handed to the merge node, and
    the next block ends the round. *)
Example successful_round :
  ∃ n tr,
    @committee.runAll fixtures.toyBlockDeps (fixtures.toyCommitteeDeps true true true)
      [committee.OpEpochTransition fixtures.primaryWorker;
       committee.OpPeerMessage None
         {| committee.LeaderBatchDispatch := Some (fixtures.batch1, fixtures.header1) |};
       committee.OpWorkerBatchDone (Some fixtures.computed1);
       committee.OpNewBlockEarly {| block.Header_ := fixtures.header2 |};
       committee.OpNewBlock {| block.Header_ := fixtures.header2 |}]
      (committee.NewNode (fixtures.commonNodeOf fixtures.primaryWorker) true)
    = Done (tt, n, tr) ∧
    committee.state n = committee.StateWaitingForBatch ∧
    (List.filter (λ e, match e with
                       | committee.EvStateTransition _ => true
                       | _ => false
                       end) tr
     = [committee.EvStateTransition committee.StateWaitingForBatch;
        committee.EvStateTransition
          (committee.StateProcessingBatch fixtures.batch1 None 1000 0%nat);
        committee.EvStateTransition (committee.StateWaitingForFinalize 1000);
        committee.EvStateTransition committee.StateWaitingForBatch]) ∧
    ∃ c, committee.EvHandleResultsFromComputeWorker None c ∈ tr.
Proof.
  eexists _, _. split; [vm_compute; reflexivity|].
  split; [reflexivity|]. split; [reflexivity|].
  eexists. repeat first [apply list_elem_of_here | apply list_elem_of_further].
Qed.

(** ** Properties of [txpool.go] *)

(** C6.  [ProcessBlock] on an epoch-transition block whose active runtime
    descriptor names a scheduling algorithm other than the name of the
    scheduler the pool already has returns an error; the pool keeps the very
    same scheduler, neither [scheduling.New] nor [UpdateParameters] is
    called, and nothing of the pool changes apart from its own map of round
    weight limits, which [updateScheduler] writes before it compares the
    names. *)
Theorem ProcessBlock_algorithm_change `{txpool.Deps} (t : txpool.txPool)
    (bi : txpool.BlockInfo) (s : txpool.Scheduler) :
  txpool.scheduler t = Some s →
  block.HeaderType_ (block.Header_ (txpool.RuntimeBlock bi)) = block.EpochTransition →
  txpool.TxnScheduler_Algorithm (txpool.ActiveDescriptor bi) ≠ txpool.sched_Name s →
  let rt := txpool.ActiveDescriptor bi in
  let t' :=
    txpool.set_roundWeightLimits t
      (<[txpool.WeightCount := txpool.TxnScheduler_MaxBatchSize rt]>
         (<[txpool.WeightSizeBytes := txpool.TxnScheduler_MaxBatchSizeBytes rt]>
            (<[txpool.WeightConsensusMessages := txpool.Executor_MaxMessages rt]>
               (txpool.roundWeightLimits t)))) in
  txpool.ProcessBlock bi t
    = Done (Err (ErrWrap "failed to update scheduler"
                   (ErrMsg "transaction scheduler algorithm update not supported")),
            t', []) ∧
  txpool.scheduler t' = Some s ∧
  txpool.blockInfo t' = txpool.blockInfo t.
Proof.
  intros Hs Hty Hname rt t'. split; [|split; [exact Hs | reflexivity]].
  unfold txpool.ProcessBlock.
  rewrite (bind_eq _ _ t t t []) by reflexivity.
  rewrite Hty. rewrite (bool_decide_eq_true_2 (block.EpochTransition = _)) by reflexivity.
  rewrite orb_true_r.
  assert (txpool.updateScheduler bi t
          = Done (Err (ErrMsg "transaction scheduler algorithm update not supported"),
                  t', [])) as Hupd.
  { unfold txpool.updateScheduler. eff_unfold. simpl. rewrite Hs.
    apply String.eqb_neq in Hname. rewrite Hname. reflexivity. }
  eff_unfold. rewrite Hupd. reflexivity.
Qed.

Lemma ProcessBlock_algorithm_change_witness :
  let t := fixtures.poolWith [] [] [] in
  let bi := fixtures.blockInfoOf
              {| block.Version := 0; block.Namespace_ := 7%N; block.Round := 6;
                 block.Timestamp := 1600000006;
                 block.HeaderType_ := block.EpochTransition;
                 block.PreviousHash := 21%N; block.IORoot := 0%N;
                 block.StateRoot := 13%N; block.MessagesHash := 0%N;
                 block.StorageSignatures := [] |} "priority" in
  ∃ t',
    @txpool.ProcessBlock (fixtures.toyPoolDeps true) bi t
      = Done (Err (ErrWrap "failed to update scheduler"
                     (ErrMsg "transaction scheduler algorithm update not supported")),
              t', []) ∧
    txpool.scheduler t' = Some (fixtures.toyScheduler []) ∧
    txpool.blockInfo t' = txpool.blockInfo t.
Proof.
  intros t bi. eexists.
  apply (@ProcessBlock_algorithm_change (fixtures.toyPoolDeps true) t bi
           (fixtures.toyScheduler [])).
  - reflexivity.
  - reflexivity.
  - discriminate.
Defined.

Section pool_properties.
Import txpool.
Context `{D : txpool.Deps}.

(** *** The seen cache *)

Lemma Peek_is_Some (c : Cache) (h : Hash) :
  h ∈ (entries c).*1 → is_Some (Peek c h).
Proof.
  unfold Peek. intros Hin.
  apply list_elem_of_fmap in Hin as ([h' ts] & -> & Hin).
  apply list_elem_of_In in Hin.
  destruct (List.find _ _) as [e|] eqn:Hfind; [by eexists|].
  eapply find_none in Hfind; [|exact Hin].
  simpl in Hfind. by rewrite N.eqb_refl in Hfind.
Qed.

Lemma Peek_None (c : Cache) (h : Hash) :
  h ∉ (entries c).*1 → Peek c h = None.
Proof.
  unfold Peek. intros Hnin.
  destruct (List.find _ _) as [[h' ts]|] eqn:Hfind; [|reflexivity].
  apply find_some in Hfind as [Hin Heq]. simpl in Heq.
  apply N.eqb_eq in Heq as ->. exfalso. apply Hnin.
  apply list_elem_of_fmap. exists (h, ts). split; [reflexivity|].
  by apply list_elem_of_In.
Qed.

Lemma take_fmap_elem_mono {A B} (f : A → B) (l : list A) (m k : nat) (x : B) :
  (m ≤ k)%nat → x ∈ f <$> take m l → x ∈ f <$> take k l.
Proof.
  intros Hle Hin. apply list_elem_of_fmap in Hin as (y & -> & Hy).
  apply list_elem_of_fmap. exists y. split; [reflexivity|].
  apply list_elem_of_lookup in Hy as [i Hi].
  apply lookup_take_Some in Hi as [Hi Hlt].
  apply list_elem_of_lookup. exists i. apply lookup_take_Some. split; [done|lia].
Qed.

Lemma filter_take_elem {A} (P : A → bool) (l : list A) (m : nat) (x : A) :
  x ∈ take m l → P x = true → x ∈ take m (List.filter P l).
Proof.
  revert m. induction l as [|y l IH]; intros m Hin HP.
  - rewrite take_nil in Hin. by apply not_elem_of_nil in Hin.
  - destruct m as [|m]; [by apply not_elem_of_nil in Hin|].
    simpl in Hin. apply elem_of_cons in Hin as [->|Hin].
    + simpl. rewrite HP. simpl. apply list_elem_of_here.
    + simpl. destruct (P y).
      * simpl. apply list_elem_of_further. by apply IH.
      * apply (IH (S m)); [|done].
        apply list_elem_of_lookup in Hin as [i Hi].
        apply lookup_take_Some in Hi as [Hi Hlt].
        apply list_elem_of_lookup. exists i. apply lookup_take_Some.
        split; [done|lia].
Qed.

(** A [Put] pushes an entry back by at most one place, and puts its own
    entry in front. *)
Lemma Put_keeps (c : Cache) (h h' : Hash) (ts : Time) (m : nat) :
  (S m ≤ capacity c)%nat →
  h ∈ (take m (entries c)).*1 →
  h ∈ (take (S m) (entries (Put c h' ts))).*1.
Proof.
  intros Hcap Hin. unfold Put. simpl.
  rewrite take_take. rewrite Nat.min_l by lia. simpl.
  destruct (decide (h = h')) as [->|Hne]; [apply list_elem_of_here|].
  apply list_elem_of_further.
  apply list_elem_of_fmap in Hin as ([h0 ts0] & Hh & Hin). simpl in Hh. subst h0.
  apply list_elem_of_fmap. exists (h, ts0). split; [reflexivity|].
  apply filter_take_elem; [done|]. simpl.
  apply negb_true_iff, N.eqb_neq. done.
Qed.

Lemma Put_front (c : Cache) (h : Hash) (ts : Time) :
  (1 ≤ capacity c)%nat →
  h ∈ (take 1 (entries (Put c h ts))).*1.
Proof.
  intros Hcap. unfold Put. simpl.
  rewrite take_take. rewrite Nat.min_l by lia. simpl. apply list_elem_of_here.
Qed.

Lemma Put_capacity (c : Cache) (h : Hash) (ts : Time) :
  capacity (Put c h ts) = capacity c.
Proof. reflexivity. Qed.

(** *** The first loop of [checkTxBatch] *)

Lemma notifyResult_run (item : pendingTx) (res : CheckTxResult) (t : txPool) :
  notifyResult item res t = Done (tt, t, notifications [(item, res)]).
Proof.
  unfold notifyResult, notifications. simpl.
  destruct (NotifyCh item); reflexivity.
Qed.

Lemma checkResults_run (batch : list pendingTx) (results : list CheckTxResult)
    (t : txPool) :
  (length results ≤ length batch)%nat →
  checkResults batch results t
    = Done (sortAll (zip batch results), t, notifications (zip batch results)).
Proof.
  revert batch. induction results as [|res results IH]; intros batch Hlen.
  - destruct batch; reflexivity.
  - destruct batch as [|item batch]; [simpl in Hlen; lia|].
    simpl in Hlen. simpl checkResults.
    rewrite (bind_eq _ _ _ _ _ _ (notifyResult_run item res t)).
    rewrite (bind_eq _ _ _ _ _ _ (IH batch ltac:(lia))).
    unfold mret, Eff_ret, eff_ret, notifications. simpl.
    by rewrite !app_nil_r.
Qed.

Lemma checkResults_too_many (batch : list pendingTx) (results : list CheckTxResult)
    (t : txPool) :
  (length batch < length results)%nat →
  checkResults batch results t = Panic "index out of range".
Proof.
  revert batch. induction results as [|res results IH]; intros batch Hlen.
  - simpl in Hlen. lia.
  - destruct batch as [|item batch]; [reflexivity|].
    simpl in Hlen. simpl checkResults.
    rewrite (bind_eq _ _ _ _ _ _ (notifyResult_run item res t)).
    unfold mbind, Eff_bind, eff_bind. rewrite IH by lia. reflexivity.
Qed.

(** A failed recheck is in [unschedule]. *)
Lemma sortAll_unschedule (prs : list (pendingTx * CheckTxResult))
    (item : pendingTx) (res : CheckTxResult) :
  (item, res) ∈ prs → Recheck (Meta item) = true → IsSuccess res = false →
  TxHash item ∈ (sortAll prs).2.
Proof.
  intros Hin Hre Hfail. induction prs as [|[item' res'] prs IH].
  - by apply not_elem_of_nil in Hin.
  - simpl. destruct (sortAll prs) as [[txs isLocal] unschedule] eqn:Hs.
    apply elem_of_cons in Hin as [[= <- <-]|Hin].
    + unfold sortChecked. rewrite Hfail, Hre. simpl. apply list_elem_of_here.
    + specialize (IH Hin). simpl in IH. unfold sortChecked.
      destruct (negb (IsSuccess res')), (Recheck (Meta item')),
        (Discard (Meta item')); simpl; try done; by apply list_elem_of_further.
Qed.

(** The transactions in [txs] are the checked forms of the batch items that
    passed the check and are neither discarded nor rechecks. *)
Lemma sortAll_txs (prs : list (pendingTx * CheckTxResult)) (tx : CheckedTransaction) :
  tx ∈ (sortAll prs).1.1 ↔
  ∃ item res, (item, res) ∈ prs ∧ tx = ToCheckedTransaction res (Tx item) ∧
    IsSuccess res = true ∧ Discard (Meta item) = false ∧ Recheck (Meta item) = false.
Proof.
  induction prs as [|[item' res'] prs IH].
  - simpl. split; [intros Hin; by apply not_elem_of_nil in Hin|].
    intros (item & res & Hin & _). by apply not_elem_of_nil in Hin.
  - simpl. destruct (sortAll prs) as [[txs isLocal] unschedule] eqn:Hs.
    simpl in IH. unfold sortChecked.
    destruct (IsSuccess res') eqn:Hok, (Recheck (Meta item')) eqn:Hre,
      (Discard (Meta item')) eqn:Hdi; simpl;
      (split;
       [ intros Hin;
         try (apply elem_of_cons in Hin as [->|Hin];
              [exists item', res'; repeat split; try done; apply list_elem_of_here|]);
         apply IH in Hin as (item & res & Hin & Hrest);
         exists item, res; split; [by apply list_elem_of_further | done]
       | intros (item & res & Hin & Htx & H1 & H2 & H3);
         apply elem_of_cons in Hin as [[= -> ->]|Hin];
         [ try congruence; subst tx; apply list_elem_of_here
         | try apply list_elem_of_further; apply IH; eauto 10 ] ]).
Qed.

Lemma sortAll_lengths (prs : list (pendingTx * CheckTxResult)) :
  length (sortAll prs).1.2 = length (sortAll prs).1.1 ∧
  (length (sortAll prs).1.1 ≤ length prs)%nat.
Proof.
  induction prs as [|[item res] prs IH]; [simpl; lia|].
  simpl. destruct (sortAll prs) as [[txs isLocal] unschedule]. simpl in IH.
  unfold sortChecked.
  destruct (negb (IsSuccess res)), (Recheck (Meta item)), (Discard (Meta item));
    simpl; lia.
Qed.

Lemma notifications_elem (prs : list (pendingTx * CheckTxResult)) (ch : Chan)
    (res : CheckTxResult) :
  EvNotify ch res ∈ notifications prs ↔
  ∃ item, (item, res) ∈ prs ∧ NotifyCh item = Some ch.
Proof.
  unfold notifications. rewrite list_elem_of_bind. split.
  - intros ([item res'] & Hin & Hprs). simpl in Hin.
    destruct (NotifyCh item) as [ch'|] eqn:Hch.
    + apply elem_of_cons in Hin as [[= -> ->]|Hin]; [eauto|].
      apply list_elem_of_singleton in Hin. discriminate.
    + by apply not_elem_of_nil in Hin.
  - intros (item & Hin & Hch). exists (item, res). split; [|done].
    simpl. rewrite Hch. apply list_elem_of_here.
Qed.

(** *** The second loop of [checkTxBatch] *)

Lemma Scheduler_QueueTx_Ok (s s' : Scheduler) (tx : CheckedTransaction) :
  Scheduler_QueueTx s tx = Ok s' → sched_queue s' = sched_queue s ++ [tx].
Proof.
  unfold Scheduler_QueueTx.
  destruct (exceedsLimit _ _); [discriminate|].
  destruct (hasHash _ _); [discriminate|].
  destruct (_ <=? _); [discriminate|].
  by intros [= <-].
Qed.

(** What one round of the second loop does: the scheduler refuses the
    transaction and nothing changes, or it accepts it and the hash is put
    into the seen cache. *)
Lemma queueChecked_run (tx : CheckedTransaction) (local : bool) (t : txPool)
    (s : Scheduler) :
  scheduler t = Some s →
  ∃ t' tr,
    queueChecked tx local t = Done (tt, t', tr) ∧
    (∀ e, e ∈ tr → e = EvQueueTx (Hash_ tx) (is_ok (Scheduler_QueueTx s tx)) ∨
                   e = EvPublishTx (Raw tx)) ∧
    match Scheduler_QueueTx s tx with
    | Err _ => t' = t
    | Ok s' =>
        EvQueueTx (Hash_ tx) true ∈ tr ∧
        scheduler t' = Some s' ∧
        ∃ publishTime, seenCache t' = Put (seenCache t) (Hash_ tx) publishTime
    end.
Proof.
  intros Hs. unfold queueChecked.
  rewrite (bind_eq _ _ t t t []) by reflexivity. rewrite Hs.
  destruct (Scheduler_QueueTx s tx) as [s'|err] eqn:Hq.
  - destruct local; [destruct (PublishTx (Raw tx)) eqn:Hpub|];
      eff_unfold; simpl; try rewrite Hpub; simpl;
      (eexists _, _; split; [reflexivity|]; split;
       [ intros ev Hev; repeat (apply elem_of_cons in Hev as [->|Hev]; [auto|]);
         by apply not_elem_of_nil in Hev
       | split; [apply list_elem_of_here|]; split; [reflexivity|];
         eexists; reflexivity ]).
  - eff_unfold. simpl. eexists _, _. split; [reflexivity|]. split; [|reflexivity].
    intros e He. apply list_elem_of_singleton in He as ->. auto.
Qed.

Lemma scheduledHashes_Some (t : txPool) (s : Scheduler) :
  scheduler t = Some s → scheduledHashes t = Hash_ <$> sched_queue s.
Proof. unfold scheduledHashes. by intros ->. Qed.

Lemma queueAll_run (txs : list CheckedTransaction) (isLocal : list bool) (t : txPool) :
  length isLocal = length txs → is_Some (scheduler t) →
  ∃ t' tr,
    queueAll txs isLocal t = Done (tt, t', tr) ∧
    is_Some (scheduler t') ∧
    capacity (seenCache t') = capacity (seenCache t) ∧
    (∀ e, e ∈ tr → (∃ h b, e = EvQueueTx h b) ∨ (∃ raw, e = EvPublishTx raw)) ∧
    (∀ h, h ∈ scheduledHashes t' → h ∈ scheduledHashes t ∨ h ∈ Hash_ <$> txs) ∧
    (∀ h m, (m + length txs ≤ capacity (seenCache t))%nat →
            h ∈ (take m (entries (seenCache t))).*1 →
            h ∈ (take (m + length txs) (entries (seenCache t'))).*1) ∧
    (∀ h, (length txs ≤ capacity (seenCache t))%nat →
          EvQueueTx h true ∈ tr →
          h ∈ (take (length txs) (entries (seenCache t'))).*1).
Proof.
  revert isLocal t. induction txs as [|tx txs IH]; intros isLocal t Hlen Hsched.
  - exists t, []. simpl. split; [reflexivity|]. split; [done|]. split; [done|].
    split; [intros e He; by apply not_elem_of_nil in He|].
    split; [auto|]. split.
    + intros h m _ Hin. by rewrite Nat.add_0_r.
    + intros h _ Hin. by apply not_elem_of_nil in Hin.
  - destruct isLocal as [|local isLocal]; [discriminate|].
    simpl in Hlen. injection Hlen as Hlen.
    destruct Hsched as [s Hs].
    destruct (queueChecked_run tx local t s Hs) as (t1 & tr1 & Hrun1 & Hev1 & Hres).
    assert (is_Some (scheduler t1) ∧
            capacity (seenCache t1) = capacity (seenCache t) ∧
            (∀ h, h ∈ scheduledHashes t1 → h ∈ scheduledHashes t ∨ h = Hash_ tx) ∧
            (∀ h m, (S m ≤ capacity (seenCache t))%nat →
                    h ∈ (take m (entries (seenCache t))).*1 →
                    h ∈ (take (S m) (entries (seenCache t1))).*1) ∧
            (∀ h, (1 ≤ capacity (seenCache t))%nat → EvQueueTx h true ∈ tr1 →
                  h ∈ (take 1 (entries (seenCache t1))).*1))
      as (Hsched1 & Hcap1 & Hhashes1 & Hkeep1 & Hput1).
    { destruct (Scheduler_QueueTx s tx) as [s'|err] eqn:Hq.
      - destruct Hres as (_ & Hs' & pt & Hcache). rewrite Hcache.
        split; [by eexists|]. split; [reflexivity|]. split; [|split].
        + intros h. rewrite (scheduledHashes_Some _ _ Hs'), (scheduledHashes_Some _ _ Hs).
          rewrite (Scheduler_QueueTx_Ok _ _ _ Hq), fmap_app.
          intros [Hin|Hin]%elem_of_app; [auto|].
          right. by apply list_elem_of_singleton in Hin.
        + intros h m Hm Hin. by apply Put_keeps.
        + intros h Hc Hin. apply Hev1 in Hin as [[= ->]|[=]]. by apply Put_front.
      - subst t1. split; [by eexists|]. split; [reflexivity|]. split; [auto|]. split.
        + intros h m _ Hin. eapply take_fmap_elem_mono; [|exact Hin]. lia.
        + intros h _ Hin. apply Hev1 in Hin as [[=]|[=]]. }
    destruct (IH isLocal t1 Hlen Hsched1)
      as (t' & tr & Hrun & Hsched' & Hcap' & Hev & Hhashes & Hkeep & Hput).
    exists t', (tr1 ++ tr). simpl queueAll.
    rewrite (bind_eq _ _ _ _ _ _ Hrun1), Hrun.
    split; [reflexivity|]. split; [done|]. split; [congruence|]. split; [|split; [|split]].
    + intros e [He|He]%elem_of_app; [|by apply Hev].
      apply Hev1 in He as [-> | ->]; eauto.
    + intros h Hin. apply Hhashes in Hin as [Hin|Hin].
      * apply Hhashes1 in Hin as [Hin| ->]; [auto|]. right. simpl. apply list_elem_of_here.
      * right. simpl. by apply list_elem_of_further.
    + intros h m Hm Hin. simpl in Hm.
      replace (m + length (tx :: txs))%nat with (S m + length txs)%nat by (simpl; lia).
      apply Hkeep; [rewrite Hcap1; lia|]. apply Hkeep1; [lia|done].
    + intros h Hc [Hin|Hin]%elem_of_app; simpl in Hc.
      * replace (length (tx :: txs)) with (1 + length txs)%nat by reflexivity.
        apply Hkeep; [rewrite Hcap1; lia|]. apply Hput1; [lia|done].
      * eapply take_fmap_elem_mono; [|apply Hput; [rewrite Hcap1; lia|done]].
        simpl. lia.
Qed.

(** *** One check cycle *)

Lemma hasHash_iff (h : Hash) (hs : list Hash) : hasHash h hs = true ↔ h ∈ hs.
Proof.
  unfold hasHash. rewrite existsb_exists. split.
  - intros (x & Hin & ->%N.eqb_eq). by apply list_elem_of_In.
  - intros Hin. exists h. split; [by apply list_elem_of_In | apply N.eqb_refl].
Qed.

Lemma Scheduler_RemoveTxBatch_hashes (s : Scheduler) (hashes : list Hash) (h : Hash) :
  h ∈ Hash_ <$> sched_queue (Scheduler_RemoveTxBatch s hashes) →
  h ∈ Hash_ <$> sched_queue s ∧ h ∉ hashes.
Proof.
  simpl. intros (tx & -> & Hin)%list_elem_of_fmap.
  apply list_elem_of_In, filter_In in Hin as [Hin Hnot].
  split.
  - apply list_elem_of_fmap. exists tx. split; [done | by apply list_elem_of_In].
  - apply negb_true_iff in Hnot. rewrite <- hasHash_iff. by rewrite Hnot.
Qed.

(** A check cycle that gets its results from the runtime host, for a pool
    that has a scheduler: it returns, and its trace is the notifications of
    the first loop, the call of [RemoveTxBatch], and what the second loop
    and the two broadcasts send. *)
Lemma checkTxBatch_run (t : txPool) (bi : BlockInfo) (s : Scheduler)
    (results : list CheckTxResult) :
  let batch := checkTxQueue_GetBatch (checkTxQueue_ t) in
  let prs := zip batch results in
  batch ≠ [] →
  blockInfo t = Some bi →
  scheduler t = Some s →
  CheckTx bi (Tx <$> batch) = Ok results →
  (length results ≤ length batch)%nat →
  ∃ t' tr2,
    checkTxBatch t
      = Done (tt, t', notifications prs ++ EvRemoveTxBatch (sortAll prs).2 :: tr2) ∧
    (∀ e, e ∈ tr2 → (∃ h b, e = EvQueueTx h b) ∨ (∃ raw, e = EvPublishTx raw) ∨
                    (∃ txs, e = EvBroadcastChecked txs) ∨
                    (∃ f, e = EvBroadcastSchedule f)) ∧
    (∀ h, h ∈ scheduledHashes t' →
          (h ∈ Hash_ <$> sched_queue s ∧ h ∉ (sortAll prs).2) ∨
          h ∈ Hash_ <$> (sortAll prs).1.1) ∧
    (∀ h, (length (sortAll prs).1.1 ≤ capacity (seenCache t))%nat →
          EvQueueTx h true ∈ tr2 → h ∈ (entries (seenCache t')).*1).
Proof.
  intros batch prs. subst prs batch.
  remember (checkTxQueue_GetBatch (checkTxQueue_ t)) as batch eqn:Hbatch.
  remember (zip batch results) as prs eqn:Hprs.
  intros Hne Hbi Hs Hcheck Hlen.
  unfold checkTxBatch. rewrite (bind_eq _ _ t t t []) by reflexivity.
  rewrite <- Hbatch.
  replace (length batch =? 0)%nat with false by (by destruct batch).
  unfold getCurrentBlockInfo. rewrite Hbi, Hcheck.
  set (t0 := set_checkTxQueue t (checkTxQueue_RemoveBatch (checkTxQueue_ t) batch)).
  rewrite (bind_eq _ _ t tt t0 []) by reflexivity.
  rewrite (bind_eq _ _ _ _ _ _ (checkResults_run batch results t0 Hlen)).
  rewrite <- Hprs. pose proof (sortAll_lengths prs) as [Hlens _].
  destruct (sortAll prs) as [[txs isLocal] unschedule] eqn:Hsort.
  simpl in Hlens. simpl.
  set (t1 := set_scheduler t0 (Some (Scheduler_RemoveTxBatch s unschedule))).
  assert (RemoveTxBatch unschedule t0 = Done (tt, t1, [EvRemoveTxBatch unschedule]))
    as Hrm.
  { unfold RemoveTxBatch. rewrite (bind_eq _ _ t0 t0 t0 []) by reflexivity.
    replace (scheduler t0) with (Some s) by (symmetry; exact Hs). reflexivity. }
  rewrite (bind_eq _ _ _ _ _ _ Hrm).
  assert (∀ h, h ∈ scheduledHashes t1 →
               h ∈ Hash_ <$> sched_queue s ∧ h ∉ unschedule) as Hh1.
  { intros h Hin. by apply Scheduler_RemoveTxBatch_hashes. }
  destruct txs as [|tx txs].
  - eff_unfold. simpl. exists t1, []. split; [reflexivity|].
    split; [intros e He; by apply not_elem_of_nil in He|]. split.
    + intros h Hin. left. by apply Hh1.
    + intros h _ Hin. by apply not_elem_of_nil in Hin.
  - replace (length (tx :: txs) =? 0)%nat with false by reflexivity.
    destruct (queueAll_run (tx :: txs) isLocal t1 Hlens ltac:(by eexists))
      as (t' & tr & Hrun & _ & _ & Hev & Hhashes & _ & Hput).
    rewrite (bind_eq _ _ _ _ _ _ Hrun).
    eff_unfold. simpl.
    exists t', (tr ++ [EvBroadcastChecked (tx :: txs); EvBroadcastSchedule false]).
    split; [reflexivity|]. split; [|split].
    + intros e [He|He]%elem_of_app.
      * apply Hev in He as [?|?]; auto.
      * apply elem_of_cons in He as [->|He]; [eauto 10|].
        apply list_elem_of_singleton in He as ->. eauto 10.
    + intros h Hin. apply Hhashes in Hin as [Hin|Hin]; [left; by apply Hh1 | by right].
    + intros h Hc [Hin|Hin]%elem_of_app.
      * specialize (Hput h Hc Hin).
        apply list_elem_of_fmap in Hput as (y & -> & Hy).
        apply list_elem_of_fmap. exists y. split; [done|].
        by eapply subseteq_take.
      * apply elem_of_cons in Hin as [[=]|Hin].
        apply list_elem_of_singleton in Hin. discriminate.
Qed.

Lemma zip_lookup_elem {A B} (l : list A) (k : list B) (i : nat) (x : A) (y : B) :
  l !! i = Some x → k !! i = Some y → (x, y) ∈ zip l k.
Proof.
  intros Hl Hk. apply list_elem_of_lookup. exists i.
  apply lookup_zip_with_Some. eauto.
Qed.

Lemma zip_elem_lookup {A B} (l : list A) (k : list B) (x : A) (y : B) :
  (x, y) ∈ zip l k → ∃ i, l !! i = Some x ∧ k !! i = Some y.
Proof.
  intros [i Hi]%list_elem_of_lookup.
  apply lookup_zip_with_Some in Hi as (x' & y' & [= -> ->] & Hl & Hk). eauto.
Qed.

Lemma notifications_no_QueueTx (prs : list (pendingTx * CheckTxResult)) h b :
  EvQueueTx h b ∉ notifications prs.
Proof.
  unfold notifications. rewrite list_elem_of_bind. intros ([item res] & Hin & _).
  simpl in Hin. destruct (NotifyCh item).
  - apply elem_of_cons in Hin as [[=]|Hin].
    apply list_elem_of_singleton in Hin. discriminate.
  - by apply not_elem_of_nil in Hin.
Qed.

(** The items of a batch are items of the queue, at the same places. *)
Lemma GetBatch_lookup (q : checkTxQueue) (i : nat) (item : pendingTx) :
  checkTxQueue_GetBatch q !! i = Some item → queue q !! i = Some item.
Proof. unfold checkTxQueue_GetBatch. by intros [? _]%lookup_take_Some. Qed.

Lemma GetBatch_length (q : checkTxQueue) :
  (length (checkTxQueue_GetBatch q) ≤ maxBatchSize q)%nat.
Proof. unfold checkTxQueue_GetBatch. rewrite length_take. lia. Qed.

Lemma wf_queue_same_hash (q : checkTxQueue) (i j : nat) (a b : pendingTx) :
  wf_queue q → queue q !! i = Some a → queue q !! j = Some b →
  TxHash a = TxHash b → i = j.
Proof.
  intros [Hnd _] Hi Hj Heq.
  eapply NoDup_lookup; [exact Hnd| |].
  - rewrite list_lookup_fmap, Hi. reflexivity.
  - rewrite list_lookup_fmap, Hj. simpl. by rewrite Heq.
Qed.

Lemma wf_queue_hash (q : checkTxQueue) (i : nat) (a : pendingTx) :
  wf_queue q → queue q !! i = Some a → TxHash a = NewFromBytes (Tx a).
Proof.
  intros [_ Hall] Hi. rewrite Forall_lookup in Hall. by apply (Hall i).
Qed.

(** When the runtime host answers a [CheckTx] call with an error, the check
    cycle returns at once. *)
Lemma checkTxBatch_CheckTx_error (t : txPool) (bi : BlockInfo) (e : Error) :
  getCurrentBlockInfo t = Ok bi →
  CheckTx bi (Tx <$> checkTxQueue_GetBatch (checkTxQueue_ t)) = Err e →
  checkTxBatch t = Done (tt, t, []).
Proof.
  intros Hbi Hcheck. unfold checkTxBatch.
  rewrite (bind_eq _ _ t t t []) by reflexivity.
  destruct (length _ =? 0)%nat; [reflexivity|].
  rewrite Hbi, Hcheck. reflexivity.
Qed.

(** The invariant of the check queue holds for the empty queue and is kept
    by [submitTx] and by the removal of a batch. *)
Lemma wf_queue_new (maxSize maxBatchSize : Z) :
  wf_queue (newCheckTxQueue maxSize maxBatchSize).
Proof. split; [apply NoDup_nil_2 | apply Forall_nil_2]. Qed.

Lemma wf_queue_Add (q q' : checkTxQueue) (tx : pendingTx) :
  wf_queue q → TxHash tx = NewFromBytes (Tx tx) →
  checkTxQueue_Add q tx = Ok q' → wf_queue q'.
Proof.
  intros [Hnd Hall] Htx. unfold checkTxQueue_Add.
  destruct (hasHash _ _) eqn:Hhas; [discriminate|].
  destruct (_ <=? _)%nat; [discriminate|].
  intros [= <-]. split; simpl.
  - rewrite fmap_app. apply NoDup_app. split; [done|]. split.
    + intros h Hin [->|Hnil]%elem_of_cons; [|by apply not_elem_of_nil in Hnil].
      apply hasHash_iff in Hin. congruence.
    + apply NoDup_singleton.
  - apply Forall_app. split; [done|]. by apply Forall_singleton.
Qed.

Lemma wf_queue_RemoveBatch (q : checkTxQueue) (batch : list pendingTx) :
  wf_queue q → wf_queue (checkTxQueue_RemoveBatch q batch).
Proof.
  intros [Hnd Hall]. split; simpl.
  - induction (queue q) as [|tx l IH]; [apply NoDup_nil_2|].
    simpl in *. apply NoDup_cons in Hnd as [Hnin Hnd].
    apply Forall_cons in Hall as [_ Hall].
    destruct (negb _); [|by apply IH].
    simpl. apply NoDup_cons. split; [|by apply IH].
    intros (tx' & Heq & Hin)%list_elem_of_fmap. apply Hnin.
    apply list_elem_of_fmap. exists tx'. split; [done|].
    apply list_elem_of_In. apply list_elem_of_In in Hin.
    by apply filter_In in Hin as [Hin _].
  - apply Forall_forall. intros tx Hin. rewrite Forall_forall in Hall.
    apply Hall. apply list_elem_of_In. apply list_elem_of_In in Hin.
    by apply filter_In in Hin as [Hin _].
Qed.

Lemma submitTx_wf (rawTx : Bytes) (meta : TransactionMeta) (notifyCh : option Chan)
    (t t' : txPool) r tr :
  wf_queue (checkTxQueue_ t) →
  submitTx rawTx meta notifyCh t = Done (r, t', tr) →
  wf_queue (checkTxQueue_ t').
Proof.
  intros Hwf. unfold submitTx.
  rewrite (bind_eq _ _ t t t []) by reflexivity.
  destruct (_ && _); [by intros [= _ <- _]|].
  destruct (checkTxQueue_Add _ _) as [q|err] eqn:Hadd; [|by intros [= _ <- _]].
  eff_unfold. simpl. intros [= _ <- _]. simpl.
  eapply wf_queue_Add; [exact Hwf| |exact Hadd]. reflexivity.
Qed.

(** A check cycle that gets results from the runtime host: the two loops
    run on the pool without the batch. *)
Lemma checkTxBatch_checked (t : txPool) (bi : BlockInfo) (results : list CheckTxResult) :
  let batch := checkTxQueue_GetBatch (checkTxQueue_ t) in
  batch ≠ [] → blockInfo t = Some bi → CheckTx bi (Tx <$> batch) = Ok results →
  checkTxBatch t =
    (acc ← checkResults batch results;
     let '(txs, isLocal, unschedule) := acc in
     RemoveTxBatch unschedule;;
     if (length txs =? 0)%nat then mret tt
     else
       queueAll txs isLocal;;
       emit (EvBroadcastChecked txs);;
       emit (EvBroadcastSchedule false))
      (set_checkTxQueue t (checkTxQueue_RemoveBatch (checkTxQueue_ t) batch)).
Proof.
  intros batch Hne Hbi Hcheck. subst batch.
  unfold checkTxBatch. rewrite (bind_eq _ _ t t t []) by reflexivity.
  destruct (checkTxQueue_GetBatch (checkTxQueue_ t)) as [|item0 batch0]; [done|].
  change (length (item0 :: batch0) =? 0)%nat with false. cbv iota.
  unfold getCurrentBlockInfo. rewrite Hbi, Hcheck.
  rewrite (bind_eq _ _ t tt _ []) by reflexivity.
  match goal with |- _ = ?rhs => destruct rhs as [[[[] ?] ?]|] end; reflexivity.
Qed.

(** A check cycle sends results only on the channels of queued
    transactions. *)
Lemma checkTxBatch_notify (t t' : txPool) (tr : list Event) (ch : Chan)
    (r : CheckTxResult) :
  checkTxBatch t = Done (tt, t', tr) → EvNotify ch r ∈ tr →
  Some ch ∈ NotifyCh <$> queue (checkTxQueue_ t).
Proof.
  intros Hrun Hin.
  destruct (checkTxQueue_GetBatch (checkTxQueue_ t)) as [|item0 batch0] eqn:Hbatch.
  { unfold checkTxBatch in Hrun. rewrite (bind_eq _ _ t t t []) in Hrun by reflexivity.
    rewrite Hbatch in Hrun. injection Hrun as <- <-. by apply not_elem_of_nil in Hin. }
  destruct (blockInfo t) as [bi|] eqn:Hbi.
  2:{ unfold checkTxBatch in Hrun. rewrite (bind_eq _ _ t t t []) in Hrun by reflexivity.
      rewrite Hbatch in Hrun. unfold getCurrentBlockInfo in Hrun. rewrite Hbi in Hrun.
      injection Hrun as <- <-. by apply not_elem_of_nil in Hin. }
  destruct (CheckTx bi (Tx <$> checkTxQueue_GetBatch (checkTxQueue_ t)))
    as [results|err] eqn:Hcheck.
  2:{ rewrite (checkTxBatch_CheckTx_error t bi err) in Hrun;
        [|by unfold getCurrentBlockInfo; rewrite Hbi|done].
      injection Hrun as <- <-. by apply not_elem_of_nil in Hin. }
  destruct (decide (length results ≤ length (checkTxQueue_GetBatch (checkTxQueue_ t)))%nat)
    as [Hlen|Hlen].
  2:{ rewrite (checkTxBatch_checked t bi results) in Hrun;
        [|by rewrite Hbatch|done|done].
      unfold mbind, Eff_bind, eff_bind in Hrun.
      rewrite checkResults_too_many in Hrun by lia.
      discriminate. }
  destruct (scheduler t) as [s|] eqn:Hs.
  2:{ rewrite (checkTxBatch_checked t bi results) in Hrun;
        [|by rewrite Hbatch|done|done].
      rewrite (bind_eq _ _ _ _ _ _ (checkResults_run _ results _ Hlen)) in Hrun.
      destruct (sortAll _) as [[txs isLocal] unschedule].
      unfold RemoveTxBatch in Hrun. eff_unfold. simpl in Hrun.
      rewrite Hs in Hrun. discriminate. }
  destruct (checkTxBatch_run t bi s results) as (t2 & tr2 & Hrun2 & Hev & _);
    [by rewrite Hbatch|done|done|done|done|].
  rewrite Hrun2 in Hrun. injection Hrun as <- <-.
  apply elem_of_app in Hin as [Hin|Hin].
  - apply notifications_elem in Hin as (item & Hitem & Hch).
    apply zip_elem_lookup in Hitem as (i & Hi & _).
    apply GetBatch_lookup in Hi.
    apply list_elem_of_fmap. exists item. split; [done|].
    apply list_elem_of_lookup. eauto.
  - apply elem_of_cons in Hin as [[=]|Hin].
    apply Hev in Hin as [(? & ? & [=])|[(? & [=])|[(? & [=])|(? & [=])]]].
Qed.

Lemma sentOn_elem (ch : Chan) (tr : list Event) (r : CheckTxResult) :
  sentOn ch tr = Some r → EvNotify ch r ∈ tr.
Proof.
  unfold sentOn. intros Hfind. apply find_some in Hfind as [Hin _].
  apply list_elem_of_In in Hin. apply list_elem_of_omap in Hin as (e & He & Hr).
  destruct e; try discriminate.
  destruct (Nat.eqb_spec ch ch0) as [->|]; [|discriminate].
  by injection Hr as ->.
Qed.

Lemma submitTx_seen (rawTx : Bytes) (meta : TransactionMeta) (notifyCh : option Chan)
    (t : txPool) :
  is_Some (Peek (seenCache t) (NewFromBytes rawTx)) → Recheck meta = false →
  submitTx rawTx meta notifyCh t = Done (Ok tt, t, []).
Proof.
  intros Hseen Hre. unfold submitTx.
  rewrite (bind_eq _ _ t t t []) by reflexivity.
  rewrite (bool_decide_eq_true_2 _ Hseen), Hre. reflexivity.
Qed.

End pool_properties.

(** *** The pool on concrete inputs *)

(** The first block creates the scheduler, closes [initCh], signals the
    epoch change and records the block; the round is not far enough from
    the last recheck to ask for one. *)
Example first_block_initializes :
  ∃ t,
    @txpool.ProcessBlock (fixtures.toyPoolDeps true)
      (fixtures.blockInfoOf fixtures.header1 "simple") (txpool.New fixtures.toyConfig)
    = Done (Ok tt, t, [txpool.EvNewScheduler "simple"]) ∧
    txpool.initCh t = true ∧ txpool.epoCh t = true ∧ txpool.recheckTxCh t = false ∧
    txpool.blockInfo t = Some (fixtures.blockInfoOf fixtures.header1 "simple") ∧
    (txpool.sched_Name <$> txpool.scheduler t) = Some "simple" ∧
    txpool.roundWeightLimits t !! txpool.WeightCount = Some 1000.
Proof. eexists. repeat split; vm_compute; reflexivity. Qed.

(** A recheck of the two scheduled transactions: the recheck worker queues
    both for a check, and the check cycle removes the one the runtime now
    rejects from the scheduling queue and leaves the seen cache alone. *)
Example recheck_removes_failing :
  let D := fixtures.toyPoolDeps true in
  let t0 := fixtures.poolWith
              [(fixtures.toyNewFromBytes fixtures.txBad, 4000);
               (fixtures.toyNewFromBytes fixtures.txGood, 4000)] []
              [fixtures.checkedOf fixtures.txGood; fixtures.checkedOf fixtures.txBad] in
  ∃ t1 t2,
    @txpool.recheckWorker_round D t0 = Done (tt, t1, []) ∧
    length (txpool.queue (txpool.checkTxQueue_ t1)) = 2%nat ∧
    txpool.checkTxCh t1 = true ∧
    @txpool.checkTxBatch D t1
      = Done (tt, t2,
              [txpool.EvRemoveTxBatch [fixtures.toyNewFromBytes fixtures.txBad]]) ∧
    txpool.scheduledHashes t2 = [fixtures.toyNewFromBytes fixtures.txGood] ∧
    txpool.queue (txpool.checkTxQueue_ t2) = [] ∧
    txpool.seenCache t2 = txpool.seenCache t0.
Proof. eexists _, _. repeat split; vm_compute; reflexivity. Qed.

(** A transaction that is already waiting for its check is not queued a
    second time. *)
Example duplicate_submission :
  let D := fixtures.toyPoolDeps true in
  ∃ t1,
    @txpool.SubmitTxNoWait D fixtures.txGood fixtures.metaPlain
      (fixtures.poolWith [] [] []) = Done (Ok tt, t1, []) ∧
    @txpool.SubmitTxNoWait D fixtures.txGood fixtures.metaPlain t1
      = Done (Err (ErrMsg "duplicate transaction"), t1, []).
Proof. eexists. split; vm_compute; reflexivity. Qed.

(** C5.  When the [CheckTx] call of the runtime host returns an error for
    the batch, the check cycle has no effect: the pool, and so its check
    queue, scheduling queue and seen cache, is unchanged, nothing is
    removed, and nothing is sent, neither a result on a notification channel
    nor a broadcast. *)
Theorem checkTxBatch_host_error `{txpool.Deps} (t : txpool.txPool)
    (bi : txpool.BlockInfo) (e : Error) :
  txpool.getCurrentBlockInfo t = Ok bi →
  txpool.CheckTx bi
    (txpool.Tx <$> txpool.checkTxQueue_GetBatch (txpool.checkTxQueue_ t)) = Err e →
  txpool.checkTxBatch t = Done (tt, t, []).
Proof. apply checkTxBatch_CheckTx_error. Qed.

Lemma checkTxBatch_host_error_witness :
  let t := fixtures.poolWith []
             [fixtures.pendingOf fixtures.txGood fixtures.metaPlain (Some 0%nat)] [] in
  @txpool.checkTxBatch (fixtures.toyPoolDeps false) t = Done (tt, t, []).
Proof.
  apply (@checkTxBatch_host_error (fixtures.toyPoolDeps false) _
           (fixtures.blockInfoOf fixtures.header1 "simple")
           (ErrMsg "runtime host: aborted")); reflexivity.
Defined.

(** C4.  In a check cycle, a queued transaction submitted with
    [Recheck = true] whose check fails has its hash passed to the
    scheduler's [RemoveTxBatch], and when the cycle is over the hash is not
    in the scheduling queue.  The cycle does return: the pool has a
    scheduler, and the runtime host answers with at most one result per
    transaction. *)
Theorem checkTxBatch_failed_recheck_unscheduled `{txpool.Deps} (t : txpool.txPool)
    (bi : txpool.BlockInfo) (s : txpool.Scheduler)
    (results : list txpool.CheckTxResult) (i : nat) (item : txpool.pendingTx)
    (res : txpool.CheckTxResult) :
  let batch := txpool.checkTxQueue_GetBatch (txpool.checkTxQueue_ t) in
  txpool.wf_queue (txpool.checkTxQueue_ t) →
  txpool.blockInfo t = Some bi →
  txpool.scheduler t = Some s →
  txpool.CheckTx bi (txpool.Tx <$> batch) = Ok results →
  (length results ≤ length batch)%nat →
  batch !! i = Some item →
  results !! i = Some res →
  txpool.Recheck (txpool.Meta item) = true →
  txpool.IsSuccess res = false →
  ∃ t' tr,
    txpool.checkTxBatch t = Done (tt, t', tr) ∧
    (∃ hashes, txpool.EvRemoveTxBatch hashes ∈ tr ∧ txpool.TxHash item ∈ hashes) ∧
    txpool.TxHash item ∉ txpool.scheduledHashes t'.
Proof.
  intros batch Hwf Hbi Hs Hcheck Hlen Hitem Hres Hre Hfail. subst batch.
  destruct (checkTxBatch_run t bi s results) as (t' & tr2 & Hrun & _ & Hhashes & _);
    [|done|done|done|done|].
  { intros Hnil. by rewrite Hnil in Hitem. }
  pose proof (zip_lookup_elem _ _ _ _ _ Hitem Hres) as Hin.
  pose proof (sortAll_unschedule _ _ _ Hin Hre Hfail) as Hun.
  eexists t', _. split; [exact Hrun|]. split.
  - eexists. split; [|exact Hun].
    apply elem_of_app. right. apply list_elem_of_here.
  - intros Hsched. apply Hhashes in Hsched as [[_ Hnot]|Htxs]; [done|].
    apply list_elem_of_fmap in Htxs as (tx & Hhash & Htx).
    apply sortAll_txs in Htx as (item' & res' & Hin' & -> & Hok & _ & _).
    apply zip_elem_lookup in Hin' as (j & Hj & Hresj).
    simpl in Hhash.
    apply GetBatch_lookup in Hitem as Hqi.
    apply GetBatch_lookup in Hj as Hqj.
    rewrite <- (wf_queue_hash _ _ _ Hwf Hqj) in Hhash.
    pose proof (wf_queue_same_hash _ _ _ _ _ Hwf Hqi Hqj Hhash) as ->.
    congruence.
Qed.

Lemma checkTxBatch_failed_recheck_unscheduled_witness :
  let t := fixtures.poolWith []
             [fixtures.pendingOf fixtures.txBad fixtures.metaRecheck None]
             [fixtures.checkedOf fixtures.txGood; fixtures.checkedOf fixtures.txBad] in
  ∃ t' tr,
    @txpool.checkTxBatch (fixtures.toyPoolDeps true) t = Done (tt, t', tr) ∧
    (∃ hashes, txpool.EvRemoveTxBatch hashes ∈ tr ∧
               fixtures.toyNewFromBytes fixtures.txBad ∈ hashes) ∧
    fixtures.toyNewFromBytes fixtures.txBad ∉ txpool.scheduledHashes t'.
Proof.
  intros t.
  apply (@checkTxBatch_failed_recheck_unscheduled (fixtures.toyPoolDeps true) t
           (fixtures.blockInfoOf fixtures.header1 "simple")
           (fixtures.toyScheduler
              [fixtures.checkedOf fixtures.txGood; fixtures.checkedOf fixtures.txBad])
           [fixtures.toyCheck fixtures.txBad] 0%nat
           (fixtures.pendingOf fixtures.txBad fixtures.metaRecheck None)
           (fixtures.toyCheck fixtures.txBad)).
  - split.
    + apply NoDup_singleton.
    + by apply Forall_singleton.
  - reflexivity.
  - reflexivity.
  - reflexivity.
  - simpl. lia.
  - reflexivity.
  - reflexivity.
  - reflexivity.
  - reflexivity.
Defined.

(** C2 (as amended).  In a check cycle, a queued transaction with
    [Recheck = false] and [Discard = false] whose check succeeds gets its
    result on its notification channel, and, if the scheduler accepts it,
    its hash is in the seen cache when the cycle is over, provided the cache
    holds at least as many entries as a batch has transactions. *)
Theorem checkTxBatch_accepted_is_seen `{txpool.Deps} (t : txpool.txPool)
    (bi : txpool.BlockInfo) (s : txpool.Scheduler)
    (results : list txpool.CheckTxResult) (i : nat) (item : txpool.pendingTx)
    (res : txpool.CheckTxResult) :
  let batch := txpool.checkTxQueue_GetBatch (txpool.checkTxQueue_ t) in
  txpool.blockInfo t = Some bi →
  txpool.scheduler t = Some s →
  txpool.CheckTx bi (txpool.Tx <$> batch) = Ok results →
  (length results ≤ length batch)%nat →
  batch !! i = Some item →
  results !! i = Some res →
  txpool.Recheck (txpool.Meta item) = false →
  txpool.Discard (txpool.Meta item) = false →
  txpool.IsSuccess res = true →
  (txpool.maxBatchSize (txpool.checkTxQueue_ t)
     ≤ txpool.capacity (txpool.seenCache t))%nat →
  ∃ t' tr,
    txpool.checkTxBatch t = Done (tt, t', tr) ∧
    (∀ ch, txpool.NotifyCh item = Some ch → txpool.EvNotify ch res ∈ tr) ∧
    (txpool.EvQueueTx (txpool.TxHash item) true ∈ tr →
     is_Some (txpool.Peek (txpool.seenCache t') (txpool.TxHash item))).
Proof.
  intros batch Hbi Hs Hcheck Hlen Hitem Hres Hre Hdi Hok Hcap. subst batch.
  destruct (checkTxBatch_run t bi s results) as (t' & tr2 & Hrun & Hev & _ & Hput);
    [|done|done|done|done|].
  { intros Hnil. by rewrite Hnil in Hitem. }
  pose proof (zip_lookup_elem _ _ _ _ _ Hitem Hres) as Hin.
  eexists t', _. split; [exact Hrun|]. split.
  - intros ch Hch. apply elem_of_app. left. apply notifications_elem. eauto.
  - intros [Hq|Hq]%elem_of_app; [by apply notifications_no_QueueTx in Hq|].
    apply elem_of_cons in Hq as [[=]|Hq].
    apply Peek_is_Some, Hput; [|done].
    pose proof (sortAll_lengths
      (zip (txpool.checkTxQueue_GetBatch (txpool.checkTxQueue_ t)) results)) as [_ Hl].
    rewrite length_zip in Hl.
    pose proof (GetBatch_length (txpool.checkTxQueue_ t)). lia.
Qed.

Lemma checkTxBatch_accepted_is_seen_witness :
  let t := fixtures.poolWith []
             [fixtures.pendingOf fixtures.txGood fixtures.metaLocal (Some 0%nat)] [] in
  ∃ t' tr,
    @txpool.checkTxBatch (fixtures.toyPoolDeps true) t = Done (tt, t', tr) ∧
    (∀ ch, Some 0%nat = Some ch →
           txpool.EvNotify ch (fixtures.toyCheck fixtures.txGood) ∈ tr) ∧
    (txpool.EvQueueTx (fixtures.toyNewFromBytes fixtures.txGood) true ∈ tr →
     is_Some (txpool.Peek (txpool.seenCache t')
                (fixtures.toyNewFromBytes fixtures.txGood))).
Proof.
  intros t.
  apply (@checkTxBatch_accepted_is_seen (fixtures.toyPoolDeps true) t
           (fixtures.blockInfoOf fixtures.header1 "simple")
           (fixtures.toyScheduler [])
           [fixtures.toyCheck fixtures.txGood] 0%nat
           (fixtures.pendingOf fixtures.txGood fixtures.metaLocal (Some 0%nat))
           (fixtures.toyCheck fixtures.txGood)).
  - reflexivity.
  - reflexivity.
  - reflexivity.
  - simpl. lia.
  - reflexivity.
  - reflexivity.
  - reflexivity.
  - reflexivity.
  - reflexivity.
  - simpl. lia.
Defined.

(** C2, counterexample.  A blocking [SubmitTx] with [Recheck = false] of a
    transaction the runtime rejects: the call is queued with its channel,
    the check cycle sends the (failed) check result on the channel, the
    [select] of [SubmitTx] receives it and the call returns it with a nil
    error; the hash of the transaction is not in the seen cache.  The same
    holds for a transaction that passes the check and is submitted with
    [Discard = true]. *)
Lemma SubmitTx_returns_unseen :
  let D := fixtures.toyPoolDeps true in
  let t0 := fixtures.poolWith [] [] [] in
  (∃ ch t1 t2 tr res,
     @txpool.SubmitTx_submit D fixtures.txBad fixtures.metaPlain t0
       = Done (Ok ch, t1, []) ∧
     @txpool.checkTxBatch D t1 = Done (tt, t2, tr) ∧
     txpool.enabled ch tr (txpool.Received res) ∧
     txpool.SubmitTx_select (txpool.Received res) = Ok res ∧
     txpool.IsSuccess res = false ∧
     txpool.Peek (txpool.seenCache t2) (fixtures.toyNewFromBytes fixtures.txBad) = None) ∧
  (∃ ch t1 t2 tr res,
     @txpool.SubmitTx_submit D fixtures.txGood fixtures.metaDiscard t0
       = Done (Ok ch, t1, []) ∧
     @txpool.checkTxBatch D t1 = Done (tt, t2, tr) ∧
     txpool.enabled ch tr (txpool.Received res) ∧
     txpool.SubmitTx_select (txpool.Received res) = Ok res ∧
     txpool.IsSuccess res = true ∧
     txpool.Peek (txpool.seenCache t2) (fixtures.toyNewFromBytes fixtures.txGood) = None).
Proof.
  split; eexists _, _, _, _, _; repeat split; vm_compute; reflexivity.
Qed.

(** C1.  What the code does for a transaction whose hash is in the seen
    cache, submitted with [Recheck = false].  [SubmitTxNoWait] returns
    success and the pool is unchanged.  [SubmitTx] does not return: nothing
    is queued and no worker is woken, but the call goes on to its [select]
    and waits on the channel it has just created; no queued transaction
    carries that channel, so the next check cycle sends nothing on it, and
    the only cases of the [select] that can fire are the cancellation of
    the context and the stop of the pool, which both return an error. *)
Theorem SubmitTx_seen_waits `{txpool.Deps} (t : txpool.txPool) (rawTx : Bytes)
    (meta : txpool.TransactionMeta) :
  is_Some (txpool.Peek (txpool.seenCache t) (txpool.NewFromBytes rawTx)) →
  txpool.Recheck meta = false →
  Some (txpool.nextChan t)
    ∉ txpool.NotifyCh <$> txpool.queue (txpool.checkTxQueue_ t) →
  let notifyCh := txpool.nextChan t in
  let t1 := txpool.set_nextChan t (S notifyCh) in
  txpool.SubmitTxNoWait rawTx meta t = Done (Ok tt, t, []) ∧
  txpool.SubmitTx_submit rawTx meta t = Done (Ok notifyCh, t1, []) ∧
  txpool.checkTxQueue_ t1 = txpool.checkTxQueue_ t ∧
  txpool.checkTxCh t1 = txpool.checkTxCh t ∧
  ∀ t2 tr w,
    txpool.checkTxBatch t1 = Done (tt, t2, tr) →
    txpool.enabled notifyCh tr w →
    is_ok (txpool.SubmitTx_select w) = false.
Proof.
  intros Hseen Hre Hfresh notifyCh t1.
  split; [by apply submitTx_seen|]. split; [|split; [reflexivity|split; [reflexivity|]]].
  - unfold txpool.SubmitTx_submit.
    rewrite (bind_eq _ _ t t t []) by reflexivity.
    rewrite (bind_eq _ _ t tt t1 []) by reflexivity.
    rewrite (bind_eq _ _ _ _ _ _ (submitTx_seen rawTx meta (Some notifyCh) t1 Hseen Hre)).
    reflexivity.
  - intros t2 tr [| |r] Hrun Hen; [reflexivity|reflexivity|].
    exfalso. apply Hfresh.
    apply sentOn_elem in Hen.
    apply (checkTxBatch_notify t1 t2 tr notifyCh r Hrun Hen).
Qed.

Lemma SubmitTx_seen_waits_witness :
  let D := fixtures.toyPoolDeps true in
  let t := fixtures.poolWith [(fixtures.toyNewFromBytes fixtures.txGood, 4000)] []
             [fixtures.checkedOf fixtures.txGood] in
  let t1 := txpool.set_nextChan t 1%nat in
  @txpool.SubmitTxNoWait D fixtures.txGood fixtures.metaPlain t = Done (Ok tt, t, []) ∧
  @txpool.SubmitTx_submit D fixtures.txGood fixtures.metaPlain t
    = Done (Ok 0%nat, t1, []) ∧
  txpool.checkTxQueue_ t1 = txpool.checkTxQueue_ t ∧
  txpool.checkTxCh t1 = txpool.checkTxCh t ∧
  ∀ t2 tr w,
    @txpool.checkTxBatch D t1 = Done (tt, t2, tr) →
    txpool.enabled 0%nat tr w →
    is_ok (txpool.SubmitTx_select w) = false.
Proof.
  intros D t t1.
  apply (@SubmitTx_seen_waits D t fixtures.txGood fixtures.metaPlain).
  - vm_compute. by eexists.
  - reflexivity.
  - vm_compute. apply not_elem_of_nil.
Defined.


(** ** Properties of [commission.go] *)
Section commission_properties.
Import staking.

(** The step in effect at epoch [e] when [current] is in effect and [rest]
    are the steps after it: the walk of [CurrentRate], started at a step
    that is taken to have begun. *)
Lemma currentRateLoop_Some (e : EpochTime) (step : CommissionRateStep)
    (steps : list CommissionRateStep) :
  is_Some (currentRateLoop e (Some step) steps).
Proof.
  revert step. induction steps as [|s steps IH]; intros step; simpl; [by eexists|].
  destruct (Start s >? e); [by eexists | apply IH].
Qed.

Lemma currentBoundLoop_Some (e : EpochTime) (step : CommissionRateBoundStep)
    (steps : list CommissionRateBoundStep) :
  is_Some (currentBoundLoop e (Some step) steps).
Proof.
  revert step. induction steps as [|s steps IH]; intros step; simpl; [by eexists|].
  destruct (bStart s >? e); [by eexists | apply IH].
Qed.

(** The loop of [validateWithinBound] has enough fuel, and when it accepts,
    the rate in effect is within the bound in effect at every epoch, the
    current steps being taken to have begun. *)
Lemma withinBoundLoop_sound (fuel : nat) :
  ∀ (i : nat) (cr : CommissionRateStep) (rs : list CommissionRateStep)
    (j : nat) (cb : CommissionRateBoundStep) (bs : list CommissionRateBoundStep)
    (t : EpochTime),
    (length rs + length bs < fuel)%nat →
    ∃ r, withinBoundLoop fuel i cr rs j cb bs t = Some r ∧
      (r = Ok tt →
       ∀ e step bound,
         currentRateLoop e (Some cr) rs = Some step →
         currentBoundLoop e (Some cb) bs = Some bound →
         (RateMin bound ≤ Rate step ≤ RateMax bound)%N).
Proof.
  induction fuel as [|fuel IH]; intros i cr rs j cb bs t Hfuel; [lia|].
  simpl.
  destruct (Rate cr <? RateMin cb)%N eqn:Hmin; [eexists; split; [done|done]|].
  destruct (RateMax cb <? Rate cr)%N eqn:Hmax; [eexists; split; [done|done]|].
  apply N.ltb_ge in Hmin, Hmax.
  destruct rs as [|nr rs], bs as [|nb bs].
  - eexists. split; [done|]. intros _ e step bound [= <-] [= <-]. lia.
  - destruct (IH i cr [] (S j) nb bs (bStart nb)) as (r & Hr & Hok);
      [simpl in *; lia|].
    exists r. split; [done|]. intros -> e step bound Hstep Hbound.
    simpl in Hbound. destruct (bStart nb >? e).
    + injection Hbound as <-. simpl in Hstep. injection Hstep as <-. lia.
    + by eapply Hok.
  - destruct (IH (S i) nr rs j cb [] (Start nr)) as (r & Hr & Hok);
      [simpl in *; lia|].
    exists r. split; [done|]. intros -> e step bound Hstep Hbound.
    simpl in Hstep. destruct (Start nr >? e).
    + injection Hstep as <-. simpl in Hbound. injection Hbound as <-. lia.
    + by eapply Hok.
  - destruct (Start nr <=? bStart nb) eqn:Hrb; [destruct (bStart nb <=? Start nr) eqn:Hbr|].
    + apply Z.leb_le in Hrb, Hbr. assert (Start nr = bStart nb) as Heq by lia.
      destruct (IH (S i) nr rs (S j) nb bs (bStart nb)) as (r & Hr & Hok);
        [simpl in *; lia|].
      exists r. split; [done|]. intros -> e step bound Hstep Hbound.
      simpl in Hstep, Hbound. rewrite Heq in Hstep.
      destruct (bStart nb >? e).
      * injection Hstep as <-. injection Hbound as <-. lia.
      * by eapply Hok.
    + apply Z.leb_le in Hrb. apply Z.leb_gt in Hbr.
      destruct (IH (S i) nr rs j cb (nb :: bs) (Start nr)) as (r & Hr & Hok);
        [simpl in *; lia|].
      exists r. split; [done|]. intros -> e step bound Hstep Hbound.
      simpl in Hstep. destruct (Start nr >? e) eqn:He.
      * injection Hstep as <-. simpl in Hbound.
        assert ((bStart nb >? e) = true) as Hnb
          by (apply Z.gtb_lt; apply Z.gtb_lt in He; lia).
        rewrite Hnb in Hbound. injection Hbound as <-. lia.
      * by eapply Hok.
    + apply Z.leb_gt in Hrb.
      destruct (IH i cr (nr :: rs) (S j) nb bs (bStart nb)) as (r & Hr & Hok);
        [simpl in *; lia|].
      exists r. split; [done|]. intros -> e step bound Hstep Hbound.
      simpl in Hbound. destruct (bStart nb >? e) eqn:He.
      * injection Hbound as <-. simpl in Hstep.
        assert ((Start nr >? e) = true) as Hnr
          by (apply Z.gtb_lt; apply Z.gtb_lt in He; lia).
        rewrite Hnr in Hstep. injection Hstep as <-. lia.
      * by eapply Hok.
Qed.

Lemma validateWithinBound_returns (cs : CommissionSchedule) (now : EpochTime) :
  is_Some (validateWithinBound cs now).
Proof.
  unfold validateWithinBound.
  destruct (Rates cs) as [|cr rs], (Bounds cs) as [|cb bs]; try by eexists.
  destruct (_ || _); [destruct (negb _); [by eexists|]|].
  - destruct (withinBoundLoop_sound (S (length rs + length bs)) 0 cr rs 0 cb bs
                (Start cr)) as (r & -> & _); [lia | by eexists].
  - destruct (withinBoundLoop_sound (S (length rs + length bs)) 0 cr rs 0 cb bs now)
      as (r & -> & _); [lia | by eexists].
Qed.

Lemma validateWithinBound_Ok (cs : CommissionSchedule) (now e : EpochTime)
    (rate : Quantity) (bound : CommissionRateBoundStep) :
  validateWithinBound cs now = Some (Ok tt) →
  CurrentRate cs e = Some rate →
  CurrentBound cs e = Some bound →
  (RateMin bound ≤ rate ≤ RateMax bound)%N.
Proof.
  unfold validateWithinBound, CurrentRate, CurrentBound.
  destruct (Rates cs) as [|cr rs], (Bounds cs) as [|cb bs]; try done.
  intros Hval Hrate Hbound. simpl in Hrate, Hbound.
  destruct (Start cr >? e); [done|]. destruct (bStart cb >? e); [done|].
  destruct (currentRateLoop e (Some cr) rs) as [step|] eqn:Hstep; [|done].
  injection Hrate as <-.
  assert (∃ t, withinBoundLoop (S (length rs + length bs)) 0 cr rs 0 cb bs t
               = Some (Ok tt)) as [t Hloop].
  { destruct (_ || _); [destruct (negb _); [done|]|]; eauto. }
  destruct (withinBoundLoop_sound (S (length rs + length bs)) 0 cr rs 0 cb bs t)
    as (r & Hr & Hok); [lia|].
  rewrite Hloop in Hr. injection Hr as <-. by eapply Hok.
Qed.

(** The two loops of [validateNondegenerate]. *)
Lemma validateRateSteps_spec (rules : CommissionScheduleRules) :
  RateChangeInterval rules ≠ 0 →
  ∀ (steps : list CommissionRateStep) (i : nat) (prev : option CommissionRateStep),
    ∃ r, validateRateSteps rules i prev steps = Done r ∧
      (r = Ok tt ↔
       Forall (λ s, Start s `mod` RateChangeInterval rules = 0 ∧
                    (Rate s ≤ CommissionRateDenominator)%N) steps ∧
       increasing (Start <$> (option_list prev ++ steps))).
Proof.
  intros Hint. apply Z.eqb_neq in Hint.
  induction steps as [|s steps IH]; intros i prev.
  - exists (Ok tt). split; [done|]. split; [|done]. intros _.
    split; [apply Forall_nil_2|]. by destruct prev.
  - simpl validateRateSteps. rewrite Hint.
    destruct (Start s `mod` RateChangeInterval rules =? 0) eqn:Hal; simpl.
    2:{ eexists. split; [done|]. split; [done|]. intros [Hall _].
        apply Forall_cons in Hall as [[Hmod _] _]. apply Z.eqb_neq in Hal. done. }
    apply Z.eqb_eq in Hal.
    destruct (IH (S i) (Some s)) as (r & Hr & Hiff). simpl in Hiff.
    assert (∃ r',
      (if (CommissionRateDenominator <? Rate s)%N
       then Done (Err (ErrRateOverUnity i (Rate s)))
       else validateRateSteps rules (S i) (Some s) steps) = Done r' ∧
      (r' = Ok tt ↔
       Forall (λ s, Start s `mod` RateChangeInterval rules = 0 ∧
                    (Rate s ≤ CommissionRateDenominator)%N) (s :: steps) ∧
       increasing (Start s :: (Start <$> steps)))) as (r' & Hr' & Hiff').
    { destruct (CommissionRateDenominator <? Rate s)%N eqn:Hover.
      - eexists. split; [done|]. split; [done|]. intros [Hall _].
        apply Forall_cons in Hall as [[_ Hle] _]. apply N.ltb_lt in Hover. lia.
      - exists r. split; [done|]. rewrite Hiff. apply N.ltb_ge in Hover.
        rewrite Forall_cons. tauto. }
    destruct prev as [p|]; simpl.
    + destruct (Start s <=? Start p) eqn:Hprev.
      * eexists. split; [done|]. split; [done|]. intros [_ [Hlt _]].
        apply Z.leb_le in Hprev. lia.
      * exists r'. split; [done|]. rewrite Hiff'. apply Z.leb_gt in Hprev. tauto.
    + exists r'. split; [done|]. by rewrite Hiff'.
Qed.

Lemma validateBoundSteps_spec (rules : CommissionScheduleRules) :
  RateChangeInterval rules ≠ 0 →
  ∀ (steps : list CommissionRateBoundStep) (i : nat)
    (prev : option CommissionRateBoundStep),
    ∃ r, validateBoundSteps rules i prev steps = Done r ∧
      (r = Ok tt ↔
       Forall (λ s, bStart s `mod` RateChangeInterval rules = 0 ∧
                    (RateMin s ≤ RateMax s ≤ CommissionRateDenominator)%N) steps ∧
       increasing (bStart <$> (option_list prev ++ steps))).
Proof.
  intros Hint. apply Z.eqb_neq in Hint.
  induction steps as [|s steps IH]; intros i prev.
  - exists (Ok tt). split; [done|]. split; [|done]. intros _.
    split; [apply Forall_nil_2|]. by destruct prev.
  - simpl validateBoundSteps. rewrite Hint.
    destruct (bStart s `mod` RateChangeInterval rules =? 0) eqn:Hal; simpl.
    2:{ eexists. split; [done|]. split; [done|]. intros [Hall _].
        apply Forall_cons in Hall as [[Hmod _] _]. apply Z.eqb_neq in Hal. done. }
    apply Z.eqb_eq in Hal.
    destruct (IH (S i) (Some s)) as (r & Hr & Hiff). simpl in Hiff.
    assert (∃ r',
      (if (CommissionRateDenominator <? RateMin s)%N
       then Done (Err (ErrBoundMinOverUnity i (RateMin s)))
       else if (CommissionRateDenominator <? RateMax s)%N
       then Done (Err (ErrBoundMaxOverUnity i (RateMax s)))
       else if (RateMax s <? RateMin s)%N
       then Done (Err (ErrBoundMaxLessThanMin i (RateMax s) (RateMin s)))
       else validateBoundSteps rules (S i) (Some s) steps) = Done r' ∧
      (r' = Ok tt ↔
       Forall (λ s, bStart s `mod` RateChangeInterval rules = 0 ∧
                    (RateMin s ≤ RateMax s ≤ CommissionRateDenominator)%N)
         (s :: steps) ∧
       increasing (bStart s :: (bStart <$> steps)))) as (r' & Hr' & Hiff').
    { destruct (CommissionRateDenominator <? RateMin s)%N eqn:Hmin.
      { eexists. split; [done|]. split; [done|]. intros [Hall _].
        apply Forall_cons in Hall as [[_ Hle] _]. apply N.ltb_lt in Hmin. lia. }
      destruct (CommissionRateDenominator <? RateMax s)%N eqn:Hmax.
      { eexists. split; [done|]. split; [done|]. intros [Hall _].
        apply Forall_cons in Hall as [[_ Hle] _]. apply N.ltb_lt in Hmax. lia. }
      destruct (RateMax s <? RateMin s)%N eqn:Hlt.
      { eexists. split; [done|]. split; [done|]. intros [Hall _].
        apply Forall_cons in Hall as [[_ Hle] _]. apply N.ltb_lt in Hlt. lia. }
      exists r. split; [done|]. rewrite Hiff.
      apply N.ltb_ge in Hmin, Hmax, Hlt. rewrite Forall_cons. tauto. }
    destruct prev as [p|]; simpl.
    + destruct (bStart s <=? bStart p) eqn:Hprev.
      * eexists. split; [done|]. split; [done|]. intros [_ [Hlt _]].
        apply Z.leb_le in Hprev. lia.
      * exists r'. split; [done|]. rewrite Hiff'. apply Z.leb_gt in Hprev. tauto.
    + exists r'. split; [done|]. by rewrite Hiff'.
Qed.

(** [Prune], on the rate steps. *)
Lemma pruneRates_cons (now : EpochTime) (a b : CommissionRateStep)
    (rest : list CommissionRateStep) :
  pruneRates now (a :: b :: rest)
    = if Start b >? now then a :: b :: rest else pruneRates now (b :: rest).
Proof. done. Qed.

Lemma pruneRates_suffix (now : EpochTime) (steps : list CommissionRateStep) :
  ∃ dropped, steps = dropped ++ pruneRates now steps.
Proof.
  induction steps as [|a [|b rest] IH]; [by exists []..|].
  rewrite pruneRates_cons. destruct (Start b >? now); [by exists []|].
  destruct IH as [dropped IH]. exists (a :: dropped). simpl. by f_equal.
Qed.

Lemma pruneRates_nonempty (now : EpochTime) (steps : list CommissionRateStep) :
  steps ≠ [] → pruneRates now steps ≠ [].
Proof.
  induction steps as [|a [|b rest] IH]; [done..|].
  intros _. rewrite pruneRates_cons. destruct (Start b >? now); [done | by apply IH].
Qed.

Lemma pruneRates_second (now : EpochTime) (steps : list CommissionRateStep)
    (first second : CommissionRateStep) (rest : list CommissionRateStep) :
  pruneRates now steps = first :: second :: rest → now < Start second.
Proof.
  induction steps as [|a [|b r] IH]; [done..|].
  rewrite pruneRates_cons. destruct (Start b >? now) eqn:Hb; [|exact IH].
  intros [= _ <- _]. by apply Z.gtb_lt in Hb.
Qed.

Lemma pruneRates_fixed (now : EpochTime) (steps : list CommissionRateStep) :
  (∀ first second rest, steps = first :: second :: rest → now < Start second) →
  pruneRates now steps = steps.
Proof.
  destruct steps as [|a [|b r]]; [done..|].
  intros H. specialize (H a b r eq_refl). simpl.
  apply Z.gtb_lt in H. by rewrite H.
Qed.

Lemma increasing_tail (a : EpochTime) (starts : list EpochTime) :
  increasing (a :: starts) → increasing starts.
Proof. destruct starts; [done|]. by intros [_ ?]. Qed.

Lemma increasing_head (a : EpochTime) (starts : list EpochTime) :
  increasing (a :: starts) → Forall (λ b, a < b) starts.
Proof.
  revert a. induction starts as [|b starts IH]; intros a; [intros _; apply Forall_nil_2|].
  intros [Hab Hinc]. apply Forall_cons. split; [done|].
  eapply Forall_impl; [by apply IH|]. simpl. lia.
Qed.

Lemma increasing_app (l k : list EpochTime) :
  increasing l → increasing k →
  (∀ a b, a ∈ l → head k = Some b → a < b) →
  increasing (l ++ k).
Proof.
  induction l as [|a [|a' l] IH]; intros Hl Hk Hlt; [done| |].
  - simpl. destruct k as [|b k]; [done|]. split; [|done].
    apply Hlt; [apply list_elem_of_here | done].
  - destruct Hl as [Haa Hl]. split; [done|].
    apply IH; [done..|]. intros x b Hx Hb. apply Hlt; [|done].
    by apply list_elem_of_further.
Qed.

(** Pruning at [now] does not change the rate in effect at [now] or later. *)
Lemma pruneRates_current (now e : EpochTime) (steps : list CommissionRateStep) :
  increasing (Start <$> steps) → now ≤ e →
  currentRateLoop e None (pruneRates now steps) = currentRateLoop e None steps.
Proof.
  intros Hinc He. induction steps as [|a [|b rest] IH]; [done..|].
  rewrite pruneRates_cons. destruct (Start b >? now) eqn:Hb; [done|].
  rewrite IH by (by eapply increasing_tail).
  destruct Hinc as [Hab _]. rewrite Z.gtb_ltb in Hb. apply Z.ltb_ge in Hb.
  simpl.
  replace (Start a >? e) with false
    by (symmetry; rewrite Z.gtb_ltb; apply Z.ltb_ge; lia).
  by replace (Start b >? e) with false
    by (symmetry; rewrite Z.gtb_ltb; apply Z.ltb_ge; lia).
Qed.

(** After pruning at [now] only the first step may have started. *)
Lemma pruneRates_pending (now : EpochTime) (steps : list CommissionRateStep) :
  increasing (Start <$> steps) →
  Forall (λ s, now < Start s) (tail (pruneRates now steps)).
Proof.
  intros Hinc.
  destruct (pruneRates_suffix now steps) as [dropped Hsplit].
  destruct (pruneRates now steps) as [|first [|second rest]] eqn:Hp;
    [apply Forall_nil_2..|].
  pose proof (pruneRates_second _ _ _ _ _ Hp) as Hsecond.
  assert (increasing (Start <$> second :: rest)) as Hinc'.
  { rewrite Hsplit, fmap_app in Hinc. clear Hsplit Hp.
    induction dropped as [|d dropped IH].
    - exact (increasing_tail (Start first) _ Hinc).
    - apply IH. exact (increasing_tail (Start d) _ Hinc). }
  simpl. apply Forall_cons. split; [done|].
  change (increasing (Start second :: (Start <$> rest))) in Hinc'.
  apply increasing_head in Hinc'.
  rewrite Forall_fmap in Hinc'.
  eapply Forall_impl; [exact Hinc'|]. simpl. lia.
Qed.

(** [amend], on the rate steps. *)
Lemma rateSpliceIndex_before (start : EpochTime) (steps : list CommissionRateStep) :
  Forall (λ s, Start s < start) (take (rateSpliceIndex start steps) steps).
Proof.
  induction steps as [|s steps IH]; [apply Forall_nil_2|].
  simpl. destruct (Start s >=? start) eqn:Hs; [apply Forall_nil_2|].
  simpl. apply Forall_cons. split; [|done].
  rewrite Z.geb_leb in Hs. by apply Z.leb_gt in Hs.
Qed.

Lemma rateSpliceIndex_all (start : EpochTime) (steps : list CommissionRateStep) :
  increasing (Start <$> steps) →
  ∀ s, s ∈ steps → Start s < start →
       s ∈ take (rateSpliceIndex start steps) steps.
Proof.
  induction steps as [|a steps IH]; intros Hinc s Hin Hlt;
    [by apply not_elem_of_nil in Hin|].
  simpl. destruct (Start a >=? start) eqn:Ha.
  - exfalso. rewrite Z.geb_leb in Ha. apply Z.leb_le in Ha.
    apply elem_of_cons in Hin as [->|Hin]; [lia|].
    change (increasing (Start a :: (Start <$> steps))) in Hinc.
    apply increasing_head in Hinc.
    rewrite Forall_fmap, Forall_forall in Hinc.
    specialize (Hinc s Hin). simpl in Hinc. lia.
  - simpl. apply elem_of_cons in Hin as [->|Hin]; [apply list_elem_of_here|].
    apply list_elem_of_further. apply IH; [by eapply increasing_tail|done..].
Qed.

Lemma amend_rates_current (e : EpochTime) (a0 : CommissionRateStep)
    (am steps : list CommissionRateStep) (latest : option CommissionRateStep) :
  e < Start a0 →
  currentRateLoop e latest (take (rateSpliceIndex (Start a0) steps) steps ++ a0 :: am)
    = currentRateLoop e latest steps.
Proof.
  intros He. revert latest. induction steps as [|s steps IH]; intros latest.
  - simpl. by replace (Start a0 >? e) with true by (symmetry; apply Z.gtb_lt; lia).
  - simpl. destruct (Start s >=? Start a0) eqn:Hs.
    + simpl. rewrite Z.geb_leb in Hs. apply Z.leb_le in Hs.
      replace (Start a0 >? e) with true by (symmetry; apply Z.gtb_lt; lia).
      by replace (Start s >? e) with true by (symmetry; apply Z.gtb_lt; lia).
    + simpl. destruct (Start s >? e); [done | apply IH].
Qed.

Lemma take_increasing (n : nat) (starts : list EpochTime) :
  increasing starts → increasing (take n starts).
Proof.
  revert n. induction starts as [|a [|b starts] IH]; intros n Hinc.
  - by rewrite take_nil.
  - by destruct n as [|[|n]].
  - destruct n as [|[|n]]; [done..|]. destruct Hinc as [Hab Hinc].
    change (take (S (S n)) (a :: b :: starts)) with (a :: take (S n) (b :: starts)).
    specialize (IH (S n) Hinc). simpl in *. by split.
Qed.

Lemma amend_rates_increasing (a0 : CommissionRateStep)
    (am steps : list CommissionRateStep) :
  increasing (Start <$> steps) → increasing (Start <$> a0 :: am) →
  increasing
    (Start <$> take (rateSpliceIndex (Start a0) steps) steps ++ a0 :: am).
Proof.
  intros Hsteps Ham. rewrite fmap_app. apply increasing_app; [|done|].
  - rewrite fmap_take. by apply take_increasing.
  - intros a b Ha [= <-].
    apply list_elem_of_fmap in Ha as (s & -> & Hs).
    pose proof (rateSpliceIndex_before (Start a0) steps) as Hall.
    rewrite Forall_forall in Hall. by apply Hall.
Qed.

(** The same for the bound steps. *)
Lemma pruneBounds_cons (now : EpochTime) (a b : CommissionRateBoundStep)
    (rest : list CommissionRateBoundStep) :
  pruneBounds now (a :: b :: rest)
    = if bStart b >? now then a :: b :: rest else pruneBounds now (b :: rest).
Proof. done. Qed.

Lemma pruneBounds_suffix (now : EpochTime) (steps : list CommissionRateBoundStep) :
  ∃ dropped, steps = dropped ++ pruneBounds now steps.
Proof.
  induction steps as [|a [|b rest] IH]; [by exists []..|].
  rewrite pruneBounds_cons. destruct (bStart b >? now); [by exists []|].
  destruct IH as [dropped IH]. exists (a :: dropped). simpl. by f_equal.
Qed.

Lemma pruneBounds_nonempty (now : EpochTime) (steps : list CommissionRateBoundStep) :
  steps ≠ [] → pruneBounds now steps ≠ [].
Proof.
  induction steps as [|a [|b rest] IH]; [done..|].
  intros _. rewrite pruneBounds_cons. destruct (bStart b >? now); [done | by apply IH].
Qed.

Lemma pruneBounds_second (now : EpochTime) (steps : list CommissionRateBoundStep)
    (first second : CommissionRateBoundStep) (rest : list CommissionRateBoundStep) :
  pruneBounds now steps = first :: second :: rest → now < bStart second.
Proof.
  induction steps as [|a [|b r] IH]; [done..|].
  rewrite pruneBounds_cons. destruct (bStart b >? now) eqn:Hb; [|exact IH].
  intros [= _ <- _]. by apply Z.gtb_lt in Hb.
Qed.

Lemma pruneBounds_fixed (now : EpochTime) (steps : list CommissionRateBoundStep) :
  (∀ first second rest, steps = first :: second :: rest → now < bStart second) →
  pruneBounds now steps = steps.
Proof.
  destruct steps as [|a [|b r]]; [done..|].
  intros H. specialize (H a b r eq_refl). simpl.
  apply Z.gtb_lt in H. by rewrite H.
Qed.

Lemma pruneBounds_current (now e : EpochTime) (steps : list CommissionRateBoundStep) :
  increasing (bStart <$> steps) → now ≤ e →
  currentBoundLoop e None (pruneBounds now steps) = currentBoundLoop e None steps.
Proof.
  intros Hinc He. induction steps as [|a [|b rest] IH]; [done..|].
  rewrite pruneBounds_cons. destruct (bStart b >? now) eqn:Hb; [done|].
  rewrite IH by (by eapply increasing_tail).
  destruct Hinc as [Hab _]. rewrite Z.gtb_ltb in Hb. apply Z.ltb_ge in Hb.
  simpl.
  replace (bStart a >? e) with false
    by (symmetry; rewrite Z.gtb_ltb; apply Z.ltb_ge; lia).
  by replace (bStart b >? e) with false
    by (symmetry; rewrite Z.gtb_ltb; apply Z.ltb_ge; lia).
Qed.

Lemma pruneBounds_pending (now : EpochTime) (steps : list CommissionRateBoundStep) :
  increasing (bStart <$> steps) →
  Forall (λ s, now < bStart s) (tail (pruneBounds now steps)).
Proof.
  intros Hinc.
  destruct (pruneBounds_suffix now steps) as [dropped Hsplit].
  destruct (pruneBounds now steps) as [|first [|second rest]] eqn:Hp;
    [apply Forall_nil_2..|].
  pose proof (pruneBounds_second _ _ _ _ _ Hp) as Hsecond.
  assert (increasing (bStart <$> second :: rest)) as Hinc'.
  { rewrite Hsplit, fmap_app in Hinc. clear Hsplit Hp.
    induction dropped as [|d dropped IH].
    - exact (increasing_tail (bStart first) _ Hinc).
    - apply IH. exact (increasing_tail (bStart d) _ Hinc). }
  simpl. apply Forall_cons. split; [done|].
  change (increasing (bStart second :: (bStart <$> rest))) in Hinc'.
  apply increasing_head in Hinc'.
  rewrite Forall_fmap in Hinc'.
  eapply Forall_impl; [exact Hinc'|]. simpl. lia.
Qed.

Lemma boundSpliceIndex_before (start : EpochTime) (steps : list CommissionRateBoundStep) :
  Forall (λ s, bStart s < start) (take (boundSpliceIndex start steps) steps).
Proof.
  induction steps as [|s steps IH]; [apply Forall_nil_2|].
  simpl. destruct (bStart s >=? start) eqn:Hs; [apply Forall_nil_2|].
  simpl. apply Forall_cons. split; [|done].
  rewrite Z.geb_leb in Hs. by apply Z.leb_gt in Hs.
Qed.

Lemma boundSpliceIndex_all (start : EpochTime) (steps : list CommissionRateBoundStep) :
  increasing (bStart <$> steps) →
  ∀ s, s ∈ steps → bStart s < start →
       s ∈ take (boundSpliceIndex start steps) steps.
Proof.
  induction steps as [|a steps IH]; intros Hinc s Hin Hlt;
    [by apply not_elem_of_nil in Hin|].
  simpl. destruct (bStart a >=? start) eqn:Ha.
  - exfalso. rewrite Z.geb_leb in Ha. apply Z.leb_le in Ha.
    apply elem_of_cons in Hin as [->|Hin]; [lia|].
    change (increasing (bStart a :: (bStart <$> steps))) in Hinc.
    apply increasing_head in Hinc.
    rewrite Forall_fmap, Forall_forall in Hinc.
    specialize (Hinc s Hin). simpl in Hinc. lia.
  - simpl. apply elem_of_cons in Hin as [->|Hin]; [apply list_elem_of_here|].
    apply list_elem_of_further. apply IH; [by eapply increasing_tail|done..].
Qed.

Lemma amend_bounds_current (e : EpochTime) (a0 : CommissionRateBoundStep)
    (am steps : list CommissionRateBoundStep) (latest : option CommissionRateBoundStep) :
  e < bStart a0 →
  currentBoundLoop e latest (take (boundSpliceIndex (bStart a0) steps) steps ++ a0 :: am)
    = currentBoundLoop e latest steps.
Proof.
  intros He. revert latest. induction steps as [|s steps IH]; intros latest.
  - simpl. by replace (bStart a0 >? e) with true by (symmetry; apply Z.gtb_lt; lia).
  - simpl. destruct (bStart s >=? bStart a0) eqn:Hs.
    + simpl. rewrite Z.geb_leb in Hs. apply Z.leb_le in Hs.
      replace (bStart a0 >? e) with true by (symmetry; apply Z.gtb_lt; lia).
      by replace (bStart s >? e) with true by (symmetry; apply Z.gtb_lt; lia).
    + simpl. destruct (bStart s >? e); [done | apply IH].
Qed.

Lemma amend_bounds_increasing (a0 : CommissionRateBoundStep)
    (am steps : list CommissionRateBoundStep) :
  increasing (bStart <$> steps) → increasing (bStart <$> a0 :: am) →
  increasing
    (bStart <$> take (boundSpliceIndex (bStart a0) steps) steps ++ a0 :: am).
Proof.
  intros Hsteps Ham. rewrite fmap_app. apply increasing_app; [|done|].
  - rewrite fmap_take. by apply take_increasing.
  - intros a b Ha [= <-].
    apply list_elem_of_fmap in Ha as (s & -> & Hs).
    pose proof (boundSpliceIndex_before (bStart a0) steps) as Hall.
    rewrite Forall_forall in Hall. by apply Hall.
Qed.


Lemma increasing_suffix (l k : list EpochTime) :
  increasing (l ++ k) → increasing k.
Proof.
  induction l as [|a l IH]; [done|]. intros H. apply IH.
  exact (increasing_tail a _ H).
Qed.

(** [validateNondegenerate] as a whole. *)
Lemma validateRateSteps_zero (rules : CommissionScheduleRules) (i : nat)
    (prev : option CommissionRateStep) (steps : list CommissionRateStep) :
  RateChangeInterval rules = 0 → steps ≠ [] →
  validateRateSteps rules i prev steps = Panic "runtime error: integer divide by zero".
Proof. intros Hz. destruct steps; [done|]. intros _. simpl. by rewrite Hz. Qed.

Lemma validateBoundSteps_zero (rules : CommissionScheduleRules) (i : nat)
    (prev : option CommissionRateBoundStep) (steps : list CommissionRateBoundStep) :
  RateChangeInterval rules = 0 → steps ≠ [] →
  validateBoundSteps rules i prev steps = Panic "runtime error: integer divide by zero".
Proof. intros Hz. destruct steps; [done|]. intros _. simpl. by rewrite Hz. Qed.

Lemma validateNondegenerate_Done (cs : CommissionSchedule)
    (rules : CommissionScheduleRules) :
  RateChangeInterval rules ≠ 0 →
  ∃ r, validateNondegenerate cs rules = Done r ∧
       (r = Ok tt ↔ nondegenerate rules cs).
Proof.
  intros Hint. unfold validateNondegenerate, nondegenerate.
  destruct (validateRateSteps_spec rules Hint (Rates cs) 0 None)
    as (r & -> & Hiff).
  destruct (validateBoundSteps_spec rules Hint (Bounds cs) 0 None)
    as (r' & Hr' & Hiff').
  simpl in Hiff, Hiff'. destruct r as [[]|err].
  - exists r'. split; [done|]. rewrite Hiff'. split; [|tauto].
    intros ?. split; [by apply Hiff | done].
  - exists (Err err). split; [done|]. split; [done|].
    intros [Hr _]. by apply Hiff in Hr.
Qed.

Lemma validateNondegenerate_Ok (cs : CommissionSchedule)
    (rules : CommissionScheduleRules) :
  validateNondegenerate cs rules = Done (Ok tt) → nondegenerate rules cs.
Proof.
  destruct (decide (RateChangeInterval rules = 0)) as [Hz|Hnz].
  - unfold validateNondegenerate, nondegenerate.
    destruct (Rates cs) as [|r rs].
    + destruct (Bounds cs) as [|b bs].
      * intros _. repeat split; apply Forall_nil_2.
      * simpl. by rewrite Hz.
    + simpl. by rewrite Hz.
  - destruct (validateNondegenerate_Done cs rules Hnz) as (r & Hr & Hiff).
    intros H. rewrite H in Hr. injection Hr as <-. by apply Hiff.
Qed.

Lemma Prune_nondegenerate (rules : CommissionScheduleRules)
    (cs : CommissionSchedule) (now : EpochTime) :
  nondegenerate rules cs → nondegenerate rules (Prune cs now).
Proof.
  intros [[Hr Hri] [Hb Hbi]]. unfold nondegenerate, Prune. simpl.
  destruct (pruneRates_suffix now (Rates cs)) as [dr Hdr].
  destruct (pruneBounds_suffix now (Bounds cs)) as [db Hdb].
  rewrite Hdr in Hr, Hri. rewrite Hdb in Hb, Hbi.
  rewrite fmap_app in Hri. rewrite fmap_app in Hbi.
  apply Forall_app in Hr as [_ Hr]. apply Forall_app in Hb as [_ Hb].
  apply increasing_suffix in Hri, Hbi. done.
Qed.

Lemma amend_nondegenerate (rules : CommissionScheduleRules)
    (cs amendment : CommissionSchedule) :
  nondegenerate rules cs → nondegenerate rules amendment →
  nondegenerate rules (amend cs amendment).
Proof.
  intros [[Hr Hri] [Hb Hbi]] [[Har Hari] [Hab Habi]].
  unfold nondegenerate, amend. simpl. split.
  - destruct (Rates amendment) as [|a0 am]; [done|]. split.
    + apply Forall_app. split; [by apply Forall_take | done].
    + by apply amend_rates_increasing.
  - destruct (Bounds amendment) as [|a0 am]; [done|]. split.
    + apply Forall_app. split; [by apply Forall_take | done].
    + by apply amend_bounds_increasing.
Qed.

(** [CurrentRate] *)
Lemma currentRateLoop_None (e : EpochTime) (steps : list CommissionRateStep) :
  currentRateLoop e None steps = None ↔
  ∀ first, head steps = Some first → e < Start first.
Proof.
  destruct steps as [|s steps]; simpl; [done|].
  destruct (Start s >? e) eqn:Hs.
  - apply Z.gtb_lt in Hs. split; [|done]. by intros _ first [= <-].
  - rewrite Z.gtb_ltb in Hs. apply Z.ltb_ge in Hs.
    destruct (currentRateLoop_Some e s steps) as [x ->]. split; [done|].
    intros H. specialize (H s eq_refl). lia.
Qed.

Lemma currentBoundLoop_None (e : EpochTime) (steps : list CommissionRateBoundStep) :
  currentBoundLoop e None steps = None ↔
  ∀ first, head steps = Some first → e < bStart first.
Proof.
  destruct steps as [|s steps]; simpl; [done|].
  destruct (bStart s >? e) eqn:Hs.
  - apply Z.gtb_lt in Hs. split; [|done]. by intros _ first [= <-].
  - rewrite Z.gtb_ltb in Hs. apply Z.ltb_ge in Hs.
    destruct (currentBoundLoop_Some e s steps) as [x ->]. split; [done|].
    intros H. specialize (H s eq_refl). lia.
Qed.

Lemma currentRateLoop_filter (e : EpochTime) (steps : list CommissionRateStep)
    (latest : option CommissionRateStep) :
  increasing (Start <$> steps) →
  currentRateLoop e latest steps
    = match last (filter (λ s, Start s ≤ e) steps) with
      | Some s => Some s
      | None => latest
      end.
Proof.
  revert latest. induction steps as [|s steps IH]; intros latest Hinc; [done|].
  simpl. destruct (Start s >? e) eqn:Hs.
  - apply Z.gtb_lt in Hs.
    change (increasing (Start s :: (Start <$> steps))) in Hinc.
    apply increasing_head in Hinc. rewrite Forall_fmap in Hinc.
    rewrite filter_cons_False by lia.
    replace (filter (λ s, Start s ≤ e) steps) with (@nil CommissionRateStep); [done|].
    clear IH. induction steps as [|s' steps IH]; [done|].
    apply Forall_cons in Hinc as [Hs' Hinc]. simpl in Hs'.
    rewrite filter_cons_False by lia. by apply IH.
  - rewrite Z.gtb_ltb in Hs. apply Z.ltb_ge in Hs.
    rewrite filter_cons_True by done.
    rewrite IH by exact (increasing_tail (Start s) _ Hinc).
    rewrite last_cons. by destruct (last _).
Qed.

(** After the steps that come before an amendment's first step, the
    amendment's steps are walked as if they were alone. *)
Lemma currentRateLoop_app_started (e : EpochTime) (a0 : CommissionRateStep)
    (l am : list CommissionRateStep) (latest : option CommissionRateStep) :
  Forall (λ s, Start s < Start a0) l → Start a0 ≤ e →
  currentRateLoop e latest (l ++ a0 :: am) = currentRateLoop e None (a0 :: am).
Proof.
  intros Hl He. revert latest. induction l as [|s l IH]; intros latest.
  - simpl.
    by replace (Start a0 >? e) with false
      by (symmetry; rewrite Z.gtb_ltb; apply Z.ltb_ge; lia).
  - apply Forall_cons in Hl as [Hs Hl]. simpl.
    replace (Start s >? e) with false
      by (symmetry; rewrite Z.gtb_ltb; apply Z.ltb_ge; lia).
    by apply IH.
Qed.

End commission_properties.

Section commission_schedule.
Import staking.

(** X1. With a rate change interval other than zero, [validateNondegenerate]
    returns, and it returns nil exactly for the schedules whose rate steps
    and bound steps each start on a multiple of the interval and strictly
    after the step before, with every rate at most the denominator and every
    bound with minimum <= maximum <= denominator. *)
Theorem validateNondegenerate_spec (cs : CommissionSchedule)
    (rules : CommissionScheduleRules) :
  RateChangeInterval rules ≠ 0 →
  ∃ r, validateNondegenerate cs rules = Done r ∧
       (r = Ok tt ↔ nondegenerate rules cs).
Proof. apply validateNondegenerate_Done. Qed.

Lemma validateNondegenerate_spec_witness :
  validateNondegenerate fixtures.schedule1 fixtures.toyRules = Done (Ok tt) ∧
  ∃ r, validateNondegenerate fixtures.amendment1 fixtures.toyRules = Done r ∧
       (r = Ok tt ↔ nondegenerate fixtures.toyRules fixtures.amendment1).
Proof.
  split; [reflexivity|].
  apply (validateNondegenerate_spec fixtures.amendment1 fixtures.toyRules).
  simpl. lia.
Defined.

(** X2. With a rate change interval of zero, [validateNondegenerate] panics
    on every schedule that has a rate step or a bound step (the remainder
    [step.Start % rules.RateChangeInterval] divides by zero); only the empty
    schedule is accepted. *)
Theorem validateNondegenerate_zero_interval (cs : CommissionSchedule)
    (rules : CommissionScheduleRules) :
  RateChangeInterval rules = 0 →
  validateNondegenerate cs rules
    = if bool_decide (Rates cs = [] ∧ Bounds cs = [])
      then Done (Ok tt)
      else Panic "runtime error: integer divide by zero".
Proof.
  intros Hz. unfold validateNondegenerate.
  destruct (Rates cs) as [|r rs] eqn:Hr.
  - destruct (Bounds cs) as [|b bs] eqn:Hb.
    + by rewrite bool_decide_eq_true_2.
    + rewrite bool_decide_eq_false_2 by (by intros [_ ?]).
      simpl. by rewrite Hz.
  - rewrite bool_decide_eq_false_2 by (by intros [? _]).
    simpl. by rewrite Hz.
Qed.

Lemma validateNondegenerate_zero_interval_witness :
  validateNondegenerate fixtures.schedule1 fixtures.zeroIntervalRules
    = Panic "runtime error: integer divide by zero".
Proof.
  apply (validateNondegenerate_zero_interval fixtures.schedule1
           fixtures.zeroIntervalRules).
  reflexivity.
Defined.

(** X3. [Prune] only drops steps from the front of each list, never empties
    a list that has a step, leaves no second step that has already started,
    and pruning again at the same epoch changes nothing. *)
Theorem Prune_shape (cs : CommissionSchedule) (now : EpochTime) :
  (∃ droppedRates droppedBounds,
     Rates cs = droppedRates ++ Rates (Prune cs now) ∧
     Bounds cs = droppedBounds ++ Bounds (Prune cs now)) ∧
  (Rates cs ≠ [] → Rates (Prune cs now) ≠ []) ∧
  (Bounds cs ≠ [] → Bounds (Prune cs now) ≠ []) ∧
  (∀ second, Rates (Prune cs now) !! 1%nat = Some second → now < Start second) ∧
  (∀ second, Bounds (Prune cs now) !! 1%nat = Some second → now < bStart second) ∧
  Prune (Prune cs now) now = Prune cs now.
Proof.
  unfold Prune. simpl.
  assert (∀ second, pruneRates now (Rates cs) !! 1%nat = Some second →
                    now < Start second) as Hrs.
  { intros second Hs.
    destruct (pruneRates now (Rates cs)) as [|a [|b rest]] eqn:Hp; [done..|].
    injection Hs as <-. by eapply pruneRates_second. }
  assert (∀ second, pruneBounds now (Bounds cs) !! 1%nat = Some second →
                    now < bStart second) as Hbs.
  { intros second Hs.
    destruct (pruneBounds now (Bounds cs)) as [|a [|b rest]] eqn:Hp; [done..|].
    injection Hs as <-. by eapply pruneBounds_second. }
  repeat split.
  - destruct (pruneRates_suffix now (Rates cs)) as [dr Hdr].
    destruct (pruneBounds_suffix now (Bounds cs)) as [db Hdb].
    by exists dr, db.
  - apply pruneRates_nonempty.
  - apply pruneBounds_nonempty.
  - exact Hrs.
  - exact Hbs.
  - f_equal.
    + apply pruneRates_fixed. intros first second rest Heq.
      apply Hrs. by rewrite Heq.
    + apply pruneBounds_fixed. intros first second rest Heq.
      apply Hbs. by rewrite Heq.
Qed.

(** X4. For a schedule whose rate steps start in strictly increasing order,
    pruning at [now] does not change the rate in effect at [now] or at any
    later epoch. *)
Theorem Prune_CurrentRate (cs : CommissionSchedule) (now e : EpochTime) :
  increasing (Start <$> Rates cs) → now ≤ e →
  CurrentRate (Prune cs now) e = CurrentRate cs e.
Proof.
  intros Hinc He. unfold CurrentRate, Prune. simpl.
  by rewrite pruneRates_current.
Qed.

Lemma Prune_CurrentRate_witness :
  Rates (Prune fixtures.schedule1 12) = [mkRateStep 10 6000%N] ∧
  CurrentRate (Prune fixtures.schedule1 12) 15
    = CurrentRate fixtures.schedule1 15.
Proof.
  split; [reflexivity|].
  apply (Prune_CurrentRate fixtures.schedule1 12 15); simpl; lia.
Defined.

(** X5. For a schedule whose rate steps start in strictly increasing order,
    [CurrentRate] is the rate of the last step, among all steps, that has
    started: the loop's early break loses nothing.  It is nil when no step
    has started. *)
Theorem CurrentRate_latest_started (cs : CommissionSchedule) (now : EpochTime) :
  increasing (Start <$> Rates cs) →
  CurrentRate cs now = Rate <$> last (filter (λ s, Start s ≤ now) (Rates cs)).
Proof.
  intros Hinc. unfold CurrentRate. rewrite currentRateLoop_filter by done.
  by destruct (last _).
Qed.

Lemma CurrentRate_latest_started_witness :
  CurrentRate fixtures.schedule1 12 = Some 6000%N ∧
  CurrentRate fixtures.schedule1 12
    = Rate <$> last (filter (λ s, Start s ≤ 12) (Rates fixtures.schedule1)).
Proof.
  split; [reflexivity|].
  apply (CurrentRate_latest_started fixtures.schedule1 12). simpl. lia.
Defined.

(** An accepted amendment starts after the epochs it is checked against. *)
Lemma amend_keeps_past (cs amendment : CommissionSchedule)
    (rules : CommissionScheduleRules) (now : EpochTime) :
  validateAmendmentAcceptable amendment rules now = Ok tt →
  (∀ e, e ≤ now → CurrentRate (amend cs amendment) e = CurrentRate cs e) ∧
  (0 ≤ now + RateBoundLead rules < 2 ^ 64 →
   ∀ e, e ≤ now + RateBoundLead rules →
        CurrentBound (amend cs amendment) e = CurrentBound cs e).
Proof.
  unfold validateAmendmentAcceptable, CurrentRate, CurrentBound, amend. simpl.
  intros Hacc. split.
  - intros e He. destruct (Rates amendment) as [|a0 am]; [done|].
    destruct (Start a0 <=? now) eqn:Ha; [done|]. apply Z.leb_gt in Ha.
    by rewrite amend_rates_current by lia.
  - intros Hrange e He. destruct (Bounds amendment) as [|b0 bm]; [done|].
    destruct (match Rates amendment with
              | [] => Ok tt
              | r0 :: _ => if Start r0 <=? now
                           then Err (ErrRateAltersPast (Start r0) now) else Ok tt
              end); [|done].
    rewrite Z.mod_small in Hacc by done.
    destruct (bStart b0 <=? now + RateBoundLead rules) eqn:Hb; [done|].
    apply Z.leb_gt in Hb. by rewrite amend_bounds_current by lia.
Qed.

(** X6. An amendment that [validateAmendmentAcceptable] accepts at [now]
    does not change, when [amend] applies it, the rate in effect at any
    epoch up to [now]; and when [now+RateBoundLead] does not overflow, it
    does not change the bound in effect at any epoch up to that sum. *)
Theorem amend_acceptable_past (cs amendment : CommissionSchedule)
    (rules : CommissionScheduleRules) (now : EpochTime) :
  validateAmendmentAcceptable amendment rules now = Ok tt →
  (∀ e, e ≤ now → CurrentRate (amend cs amendment) e = CurrentRate cs e) ∧
  (0 ≤ now + RateBoundLead rules < 2 ^ 64 →
   ∀ e, e ≤ now + RateBoundLead rules →
        CurrentBound (amend cs amendment) e = CurrentBound cs e).
Proof. apply amend_keeps_past. Qed.

Lemma amend_acceptable_past_witness :
  validateAmendmentAcceptable fixtures.amendment1 fixtures.toyRules 12 = Ok tt ∧
  (∀ e, e ≤ 12 →
     CurrentRate (amend fixtures.schedule1 fixtures.amendment1) e
       = CurrentRate fixtures.schedule1 e).
Proof.
  split; [reflexivity|].
  apply (amend_acceptable_past fixtures.schedule1 fixtures.amendment1
           fixtures.toyRules 12).
  reflexivity.
Defined.

(** X7. From the start of the amendment's first rate step on, the amended
    schedule gives the amendment's rate: every old step that remains starts
    before the amendment's first step. *)
Theorem amend_future (cs amendment : CommissionSchedule)
    (first : CommissionRateStep) (e : EpochTime) :
  head (Rates amendment) = Some first → Start first ≤ e →
  CurrentRate (amend cs amendment) e = CurrentRate amendment e.
Proof.
  unfold CurrentRate, amend. simpl. intros Hhead He.
  destruct (Rates amendment) as [|a0 am]; [done|]. injection Hhead as ->.
  by rewrite currentRateLoop_app_started
    by (done || apply rateSpliceIndex_before).
Qed.

Lemma amend_future_witness :
  CurrentRate (amend fixtures.schedule1 fixtures.amendment1) 35 = Some 7000%N ∧
  CurrentRate (amend fixtures.schedule1 fixtures.amendment1) 35
    = CurrentRate fixtures.amendment1 35.
Proof.
  split; [reflexivity|].
  apply (amend_future fixtures.schedule1 fixtures.amendment1 (mkRateStep 30 7000%N) 35);
    [reflexivity | simpl; lia].
Defined.

(** X8. [validateWithinBound] always returns: its loop ends within
    [len(cs.Rates)+len(cs.Bounds)] rounds.  When it returns nil, the rate in
    effect is within the bound in effect at every epoch that has both, and
    from [now] on an epoch has a rate in effect exactly when it has a
    bound. *)
Theorem validateWithinBound_sound (cs : CommissionSchedule) (now : EpochTime) :
  is_Some (validateWithinBound cs now) ∧
  (validateWithinBound cs now = Some (Ok tt) →
   (∀ e rate bound,
      CurrentRate cs e = Some rate → CurrentBound cs e = Some bound →
      (RateMin bound ≤ rate ≤ RateMax bound)%N) ∧
   (∀ e, now ≤ e → (is_Some (CurrentRate cs e) ↔ is_Some (CurrentBound cs e)))).
Proof.
  split; [apply validateWithinBound_returns|]. intros Hok. split.
  - intros e rate bound. by apply validateWithinBound_Ok with (now := now).
  - intros e He. revert Hok.
    unfold validateWithinBound, CurrentRate, CurrentBound.
    destruct (Rates cs) as [|cr rs], (Bounds cs) as [|cb bs];
      [intros _; simpl; split; intros [? ?]; done | done | done |].
    intros Hok. simpl.
    assert (Start cr ≤ e ↔ bStart cb ≤ e) as Hsame.
    { destruct (Start cr >? now) eqn:Hr, (bStart cb >? now) eqn:Hb; simpl in Hok.
      1-3: destruct (Start cr =? bStart cb) eqn:Heq; [|done];
           apply Z.eqb_eq in Heq; by rewrite Heq.
      rewrite Z.gtb_ltb in Hr, Hb. apply Z.ltb_ge in Hr, Hb. lia. }
    destruct (Start cr >? e) eqn:Hr, (bStart cb >? e) eqn:Hb.
    + split; intros [? ?]; done.
    + apply Z.gtb_lt in Hr. rewrite Z.gtb_ltb in Hb. apply Z.ltb_ge in Hb. lia.
    + apply Z.gtb_lt in Hb. rewrite Z.gtb_ltb in Hr. apply Z.ltb_ge in Hr. lia.
    + destruct (currentRateLoop_Some e cr rs) as [x ->].
      split; intros _; [apply currentBoundLoop_Some | by eexists].
Qed.

Lemma validateWithinBound_sound_witness :
  validateWithinBound (amend fixtures.schedule1 fixtures.amendment1) 12
    = Some (Ok tt) ∧
  (∀ e rate bound,
     CurrentRate (amend fixtures.schedule1 fixtures.amendment1) e = Some rate →
     CurrentBound (amend fixtures.schedule1 fixtures.amendment1) e = Some bound →
     (RateMin bound ≤ rate ≤ RateMax bound)%N).
Proof.
  split; [reflexivity|].
  apply (validateWithinBound_sound
           (amend fixtures.schedule1 fixtures.amendment1) 12).
  reflexivity.
Defined.

(** X9. The sum [now+rules.RateBoundLead] of [validateAmendmentAcceptable]
    is a 64-bit sum: when it overflows, the limit wraps below [now], and an
    amendment of bound steps only is accepted as soon as its first bound
    step starts after the wrapped limit, also when that start is at or
    before [now]. *)
Theorem validateAmendmentAcceptable_lead_wraps (amendment : CommissionSchedule)
    (rules : CommissionScheduleRules) (now : EpochTime)
    (first : CommissionRateBoundStep) :
  0 ≤ now < 2 ^ 64 → 0 ≤ RateBoundLead rules < 2 ^ 64 →
  2 ^ 64 ≤ now + RateBoundLead rules →
  Rates amendment = [] → head (Bounds amendment) = Some first →
  now + RateBoundLead rules - 2 ^ 64 < bStart first →
  validateAmendmentAcceptable amendment rules now = Ok tt.
Proof.
  intros Hnow Hlead Hover Hrates Hhead Hfirst.
  unfold validateAmendmentAcceptable. rewrite Hrates.
  destruct (Bounds amendment) as [|b0 bm]; [done|]. injection Hhead as ->.
  replace ((now + RateBoundLead rules) `mod` 2 ^ 64)
    with (now + RateBoundLead rules - 2 ^ 64).
  - by replace (bStart first <=? now + RateBoundLead rules - 2 ^ 64) with false
      by (symmetry; apply Z.leb_gt; lia).
  - apply Z.mod_unique_pos with (q := 1); lia.
Qed.

Lemma validateAmendmentAcceptable_lead_wraps_witness :
  validateAmendmentAcceptable (fixtures.boundsAt 25) fixtures.wrappingRules 30
    = Ok tt.
Proof.
  apply (validateAmendmentAcceptable_lead_wraps (fixtures.boundsAt 25)
           fixtures.wrappingRules 30 (mkBoundStep 25 0%N 100000%N));
    try reflexivity; simpl; lia.
Defined.

(** X10. With a rate change interval other than zero,
    [AmendAndPruneAndValidate] returns.  When the amendment itself is
    refused (an [amendment:] error) the schedule is untouched; in every
    other case, success or an [after pruning and amending:] error, the
    schedule is left pruned and amended. *)
Theorem AmendAndPruneAndValidate_returns (cs amendment : CommissionSchedule)
    (rules : CommissionScheduleRules) (now : EpochTime) :
  RateChangeInterval rules ≠ 0 →
  ∃ cs' r, AmendAndPruneAndValidate cs amendment rules now = Returned cs' r ∧
    (((∃ cause, r = Err (ErrAmendment cause)) ∧ cs' = cs) ∨
     ((r = Ok tt ∨ ∃ cause, r = Err (ErrAfterPruningAndAmending cause)) ∧
      cs' = amend (Prune cs now) amendment)).
Proof.
  intros Hint. unfold AmendAndPruneAndValidate.
  destruct (validateComplexity amendment rules) as [[]|err];
    [|eexists _, _; split; [done|]; left; eauto].
  destruct (validateNondegenerate_Done amendment rules Hint) as (r & -> & _).
  destruct r as [[]|err]; [|eexists _, _; split; [done|]; left; eauto].
  destruct (validateAmendmentAcceptable amendment rules now) as [[]|err];
    [|eexists _, _; split; [done|]; left; eauto].
  destruct (validateComplexity _ rules) as [[]|err];
    [|eexists _, _; split; [done|]; right; eauto].
  destruct (validateWithinBound_returns (amend (Prune cs now) amendment) now)
    as [[[]|err] ->]; eexists _, _; (split; [done|]); right; eauto.
Qed.

Lemma AmendAndPruneAndValidate_returns_witness :
  ∃ cs' r,
    AmendAndPruneAndValidate fixtures.schedule1 fixtures.amendment1
      fixtures.toyRules 12 = Returned cs' r ∧
    (((∃ cause, r = Err (ErrAmendment cause)) ∧ cs' = fixtures.schedule1) ∨
     ((r = Ok tt ∨ ∃ cause, r = Err (ErrAfterPruningAndAmending cause)) ∧
      cs' = amend (Prune fixtures.schedule1 12) fixtures.amendment1)).
Proof.
  apply (AmendAndPruneAndValidate_returns fixtures.schedule1 fixtures.amendment1
           fixtures.toyRules 12).
  simpl. lia.
Defined.

(** X11. When [AmendAndPruneAndValidate] returns nil on a schedule that was
    nondegenerate, the schedule it leaves is nondegenerate again, has no
    more steps than the rules allow, has its rate within its bound at every
    epoch that has both, and gives at [now] the rate the old schedule gave:
    an amendment cannot change the rate in effect now. *)
Theorem AmendAndPruneAndValidate_Ok (cs amendment cs' : CommissionSchedule)
    (rules : CommissionScheduleRules) (now : EpochTime) :
  nondegenerate rules cs →
  AmendAndPruneAndValidate cs amendment rules now = Returned cs' (Ok tt) →
  nondegenerate rules cs' ∧
  Z.of_nat (length (Rates cs')) ≤ MaxRateSteps rules ∧
  Z.of_nat (length (Bounds cs')) ≤ MaxBoundSteps rules ∧
  (∀ e rate bound,
     CurrentRate cs' e = Some rate → CurrentBound cs' e = Some bound →
     (RateMin bound ≤ rate ≤ RateMax bound)%N) ∧
  CurrentRate cs' now = CurrentRate cs now.
Proof.
  intros Hnd. unfold AmendAndPruneAndValidate.
  destruct (validateComplexity amendment rules) as [[]|err]; [|done].
  destruct (validateNondegenerate amendment rules) as [[[]|err]|msg] eqn:Hva;
    [|done..].
  destruct (validateAmendmentAcceptable amendment rules now) as [[]|err] eqn:Hacc;
    [|done].
  destruct (validateComplexity _ rules) as [[]|err] eqn:Hcx; [|done].
  destruct (validateWithinBound _ now) as [[[]|err]|] eqn:Hwb; [|done..].
  intros [= <-]. apply validateNondegenerate_Ok in Hva.
  split; [by apply amend_nondegenerate, Hva; apply Prune_nondegenerate|].
  unfold validateComplexity in Hcx.
  destruct (MaxRateSteps rules <? _) eqn:Hmr; [done|].
  destruct (MaxBoundSteps rules <? _) eqn:Hmb; [done|].
  apply Z.ltb_ge in Hmr, Hmb. split; [done|]. split; [done|]. split.
  - intros e rate bound. by apply validateWithinBound_Ok with (now := now).
  - destruct (amend_keeps_past (Prune cs now) amendment rules now Hacc)
      as [Hpast _].
    rewrite Hpast by lia. unfold CurrentRate, Prune. simpl.
    rewrite pruneRates_current; [done | by destruct Hnd as [[_ ?] _] | lia].
Qed.

Lemma AmendAndPruneAndValidate_Ok_witness :
  AmendAndPruneAndValidate fixtures.schedule1 fixtures.amendment1
    fixtures.toyRules 12
    = Returned (amend (Prune fixtures.schedule1 12) fixtures.amendment1) (Ok tt) ∧
  CurrentRate (amend (Prune fixtures.schedule1 12) fixtures.amendment1) 12
    = CurrentRate fixtures.schedule1 12.
Proof.
  split; [reflexivity|].
  apply (AmendAndPruneAndValidate_Ok fixtures.schedule1 fixtures.amendment1
           (amend (Prune fixtures.schedule1 12) fixtures.amendment1)
           fixtures.toyRules 12); [|reflexivity].
  unfold nondegenerate, rateStepOk, boundStepOk. simpl.
  repeat (split || apply Forall_cons || apply Forall_nil_2);
    try reflexivity; unfold CommissionRateDenominator; simpl; lia.
Defined.

(** X12. When [PruneAndValidateForGenesis] returns nil, the schedule it
    leaves is the pruned one, it is nondegenerate, has no more steps than
    the rules allow, has its rate within its bound at every epoch that has
    both, and gives at [now] and at every later epoch the rate the given
    schedule gave. *)
Theorem PruneAndValidateForGenesis_Ok (cs cs' : CommissionSchedule)
    (rules : CommissionScheduleRules) (now : EpochTime) :
  PruneAndValidateForGenesis cs rules now = Returned cs' (Ok tt) →
  cs' = Prune cs now ∧
  nondegenerate rules cs' ∧
  Z.of_nat (length (Rates cs')) ≤ MaxRateSteps rules ∧
  Z.of_nat (length (Bounds cs')) ≤ MaxBoundSteps rules ∧
  (∀ e rate bound,
     CurrentRate cs' e = Some rate → CurrentBound cs' e = Some bound →
     (RateMin bound ≤ rate ≤ RateMax bound)%N) ∧
  (∀ e, now ≤ e → CurrentRate cs' e = CurrentRate cs e).
Proof.
  unfold PruneAndValidateForGenesis.
  destruct (validateComplexity cs rules) as [[]|err] eqn:Hcx; [|by intros [= _ ?]].
  destruct (validateNondegenerate cs rules) as [[[]|err]|msg] eqn:Hva;
    [|by intros [= _ ?] | done].
  destruct (validateWithinBound _ now) as [[[]|err]|] eqn:Hwb; [|done..].
  intros [= <-]. apply validateNondegenerate_Ok in Hva.
  split; [done|]. split; [by apply Prune_nondegenerate|].
  unfold validateComplexity in Hcx.
  destruct (MaxRateSteps rules <? _) eqn:Hmr; [done|].
  destruct (MaxBoundSteps rules <? _) eqn:Hmb; [done|].
  apply Z.ltb_ge in Hmr, Hmb.
  destruct (pruneRates_suffix now (Rates cs)) as [dr Hdr].
  destruct (pruneBounds_suffix now (Bounds cs)) as [db Hdb].
  apply (f_equal length) in Hdr, Hdb. rewrite length_app in Hdr, Hdb.
  simpl. split; [lia|]. split; [lia|]. split.
  - intros e rate bound. by apply validateWithinBound_Ok with (now := now).
  - intros e He. unfold CurrentRate, Prune. simpl.
    rewrite pruneRates_current; [done | by destruct Hva as [[_ ?] _] | done].
Qed.

Lemma PruneAndValidateForGenesis_Ok_witness :
  PruneAndValidateForGenesis fixtures.schedule1 fixtures.toyRules 12
    = Returned (Prune fixtures.schedule1 12) (Ok tt) ∧
  nondegenerate fixtures.toyRules (Prune fixtures.schedule1 12).
Proof.
  split; [reflexivity|].
  apply (PruneAndValidateForGenesis_Ok fixtures.schedule1
           (Prune fixtures.schedule1 12) fixtures.toyRules 12).
  reflexivity.
Defined.

End commission_schedule.

(** ** More properties of [header.go] *)

(** X13. [VerifyStorageReceipt] returns for every receipt, and it returns
    nil exactly for the receipts that carry the header's namespace and
    round, the root types [IO, State] and the roots [IORoot, StateRoot], in
    this order; the receipt's version is not looked at.  In particular the
    header accepts the receipt body that [VerifyStorageReceiptSignatures]
    builds from it. *)
Theorem VerifyStorageReceipt_spec (h : block.Header) (receipt : block.ReceiptBody) :
  (∃ r, block.VerifyStorageReceipt h receipt = Done r ∧
     (r = Ok tt ↔
        block.rb_Namespace receipt = block.Namespace_ h ∧
        block.rb_Round receipt = block.Round h ∧
        block.rb_RootTypes receipt = [block.RootTypeIO; block.RootTypeState] ∧
        block.rb_Roots receipt = [block.IORoot h; block.StateRoot h])) ∧
  block.VerifyStorageReceipt h (block.receiptBodyOf h) = Done (Ok tt).
Proof.
  split.
  - unfold block.VerifyStorageReceipt.
    destruct (N.eqb_spec (block.rb_Namespace receipt) (block.Namespace_ h))
      as [Hns|Hns]; simpl;
      [|eexists; split; [reflexivity|]; split; [done | by intros [? _]]].
    destruct (Z.eqb_spec (block.rb_Round receipt) (block.Round h))
      as [Hround|Hround]; simpl;
      [|eexists; split; [reflexivity|]; split; [done | by intros (_ & ? & _)]].
    destruct (block.rb_Roots receipt) as [|r0 [|r1 [|r2 roots]]]; simpl;
      try (eexists; split; [reflexivity|]; split; [done | by intros (_ & _ & _ & ?)]).
    destruct (block.rb_RootTypes receipt) as [|t0 [|t1 [|t2 types]]]; simpl;
      try (eexists; split; [reflexivity|]; split; [done | by intros (_ & _ & ? & _)]).
    destruct (decide (block.RootTypeIO = t0)) as [<-|Ht0];
      [rewrite bool_decide_eq_true_2 by done
      |rewrite bool_decide_eq_false_2 by done]; simpl;
      [|eexists; split; [reflexivity|]; split; [done|];
        intros (_ & _ & [= ? _] & _); by subst].
    destruct (N.eqb_spec (block.IORoot h) r0) as [<-|Hr0]; simpl;
      [|eexists; split; [reflexivity|]; split; [done|];
        intros (_ & _ & _ & [= ? _]); by subst].
    destruct (decide (block.RootTypeState = t1)) as [<-|Ht1];
      [rewrite bool_decide_eq_true_2 by done
      |rewrite bool_decide_eq_false_2 by done]; simpl;
      [|eexists; split; [reflexivity|]; split; [done|];
        intros (_ & _ & [= ?] & _); by subst].
    destruct (N.eqb_spec (block.StateRoot h) r1) as [<-|Hr1]; simpl;
      [|eexists; split; [reflexivity|]; split; [done|];
        intros (_ & _ & _ & [= ?]); by subst].
    eexists; split; [reflexivity|]. done.
  - unfold block.VerifyStorageReceipt, block.receiptBodyOf. simpl.
    rewrite N.eqb_refl, Z.eqb_refl. simpl.
    by rewrite !N.eqb_refl.
Qed.



(** ** More properties of [node.go] *)
Section node_rejections.
Import committee.
Context `{BD : block.Deps} `{CD : committee.Deps}.

(** A rejected external batch changes nothing. *)
Lemma handleExternalBatchLocked_Err batch sc hdr (n n' : Node) err tr :
  handleExternalBatchLocked batch sc hdr n = Done (Err err, n', tr) →
  n' = n ∧ tr = [].
Proof.
  unfold handleExternalBatchLocked. intros Hrun.
  apply bind_Done in Hrun as (n0 & n1 & tr1 & tr2 & [= <- <- <-] & Hrun & ->).
  simpl. revert Hrun.
  destruct (state n); try by intros [= _ <- <-].
  destruct (negb _); [by intros [= _ <- <-]|].
  destruct (CurrentBlock _) as [blk|]; [|done].
  destruct (block.MostlyEqual _ _).
  - intros Hrun. apply bind_Done in Hrun as (? & ? & ? & ? & _ & [=] & _).
  - destruct (_ >=? _); [by intros [= _ <- <-]|].
    intros Hrun. apply bind_Done in Hrun as (? & ? & ? & ? & _ & [=] & _).
Qed.

End node_rejections.

(** X15. A new block ends the round: when the node is processing a batch,
    waiting for a discrepancy event or waiting for the round to be
    finalized, the two hooks of a new block, [HandleNewBlockEarlyLocked]
    followed by [HandleNewBlockLocked], leave it in [WaitingForBatch]; a
    batch being processed is cancelled, and no new processing is started.
    The three transitions are assumed to be in the table. *)
Theorem new_block_ends_round `{block.Deps} `{committee.Deps}
    (n : committee.Node) (blk : block.Block) :
  committee.Name (committee.state n)
    ∈ [committee.ProcessingBatch; committee.WaitingForEvent;
       committee.WaitingForFinalize] →
  committee.edge committee.ProcessingBatch committee.WaitingForFinalize →
  committee.edge committee.WaitingForFinalize committee.WaitingForBatch →
  committee.edge committee.WaitingForEvent committee.WaitingForBatch →
  ∃ tr,
    (committee.HandleNewBlockEarlyLocked blk;; committee.HandleNewBlockLocked blk) n
      = Done (tt, committee.set_state n committee.StateWaitingForBatch, tr) ∧
    (∀ b sc start proc,
       committee.state n = committee.StateProcessingBatch b sc start proc →
       committee.EvCancel proc ∈ tr) ∧
    (∀ proc calls blk', committee.EvMakeRequest proc calls blk' ∉ tr).
Proof.
  intros Hname Hpf Hfb Heb.
  unfold committee.HandleNewBlockEarlyLocked.
  destruct (committee.state n) as [| |? ? ?|b sc|b sc start proc|start] eqn:Hst;
    simpl in Hname;
    try (repeat (apply elem_of_cons in Hname as [Hname|Hname]; [discriminate|]);
         by apply not_elem_of_nil in Hname).
  - unfold committee.abortBatchLocked, committee.HandleNewBlockLocked.
    eff_unfold. repeat (rewrite Hst; cbv beta iota).
    rewrite transitionLocked_allowed by (rewrite Hst; exact Heb).
    eexists. split; [reflexivity|]. split; [done|].
    intros proc calls blk' Hin.
    repeat (apply elem_of_cons in Hin as [[=]|Hin]). by apply not_elem_of_nil in Hin.
  - rewrite (bind_eq _ _ _ _ _ _
               (abortBatchLocked_processing n errSeenNewerBlock b sc start proc Hst Hpf)).
    unfold committee.HandleNewBlockLocked. eff_unfold. simpl.
    rewrite transitionLocked_allowed by exact Hfb.
    eexists. split; [reflexivity|]. split.
    + intros ? ? ? ? [= _ _ _ <-]. apply list_elem_of_here.
    + intros p calls blk' Hin.
      repeat (apply elem_of_cons in Hin as [[=]|Hin]). by apply not_elem_of_nil in Hin.
  - unfold committee.abortBatchLocked, committee.HandleNewBlockLocked.
    eff_unfold. repeat (rewrite Hst; cbv beta iota).
    rewrite transitionLocked_allowed by (rewrite Hst; exact Hfb).
    eexists. split; [reflexivity|]. split; [done|].
    intros proc calls blk' Hin.
    repeat (apply elem_of_cons in Hin as [[=]|Hin]). by apply not_elem_of_nil in Hin.
Qed.

Lemma new_block_ends_round_witness :
  ∃ tr,
    (@committee.HandleNewBlockEarlyLocked
       (fixtures.toyCommitteeDeps true true true)
       {| block.Header_ := fixtures.header2 |};;
     @committee.HandleNewBlockLocked fixtures.toyBlockDeps
       (fixtures.toyCommitteeDeps true true true)
       {| block.Header_ := fixtures.header2 |}) fixtures.nodeProcessing
      = Done (tt, committee.set_state fixtures.nodeProcessing
                    committee.StateWaitingForBatch, tr) ∧
    (∀ b sc start proc,
       committee.state fixtures.nodeProcessing
         = committee.StateProcessingBatch b sc start proc →
       committee.EvCancel proc ∈ tr) ∧
    (∀ proc calls blk', committee.EvMakeRequest proc calls blk' ∉ tr).
Proof.
  apply (@new_block_ends_round fixtures.toyBlockDeps
           (fixtures.toyCommitteeDeps true true true) fixtures.nodeProcessing
           {| block.Header_ := fixtures.header2 |});
    vm_compute; set_solver.
Defined.

(** X16. The success path of [proposeBatchLocked].  When storage applies
    the two write logs, the receipt verifies, the commitment is signed and
    its publication succeeds, the node applies the I/O root and the state
    root in this order, publishes the commitment, moves to
    [WaitingForFinalize] without cancelling anything, and hands the
    commitment to the merge node exactly when the epoch says it is a merge
    member and a merge node is present.  The body that was signed carries
    the signature of the storage receipt. *)
Theorem proposeBatchLocked_success `{block.Deps} `{committee.Deps}
    (n : committee.Node) (batch : committee.ComputedBatch)
    (b : committee.Batch) (sc : committee.SpanContext) (start : Time) (proc : nat)
    (blk : block.Block) (body : committee.ComputeBody)
    (commit : committee.ComputeCommitment) :
  committee.state n = committee.StateProcessingBatch b sc start proc →
  committee.CurrentBlock (committee.commonNode n) = Some blk →
  committee.edge committee.ProcessingBatch committee.WaitingForFinalize →
  let epoch := committee.Group_EpochSnapshot (committee.commonNode n) in
  committee.commitToStorage batch blk (committee.proposedResultsOf batch epoch)
    = Ok body →
  committee.SignComputeCommitment body = Ok commit →
  committee.Group_PublishComputeFinished sc commit = Ok tt →
  committee.proposeBatchLocked batch n
    = Done (tt, committee.set_state n (committee.StateWaitingForFinalize start),
            [committee.EvApplyBatch
               [ {| committee.op_Root := committee.EmptyHash;
                    committee.op_ExpectedNewRoot :=
                      committee.crh_IORoot (committee.cb_Header batch);
                    committee.op_WriteLog := committee.cb_IOWriteLog batch |};
                 {| committee.op_Root := block.StateRoot (block.Header_ blk);
                    committee.op_ExpectedNewRoot :=
                      committee.crh_StateRoot (committee.cb_Header batch);
                    committee.op_WriteLog := committee.cb_StateWriteLog batch |} ];
             committee.EvPublishComputeFinished sc commit;
             committee.EvStateTransition (committee.StateWaitingForFinalize start);
             committee.EvBumpReselect]
            ++ (if committee.IsMergeMember epoch && committee.hasMergeNode n
                then [committee.EvHandleResultsFromComputeWorker sc commit]
                else [])) ∧
  ∃ signedReceipt,
    committee.Storage_ApplyBatch (committee.applyOpsOf batch blk) = Ok signedReceipt ∧
    body = {| committee.CommitteeID := committee.GetComputeCommitteeID epoch;
              committee.body_Header := committee.cb_Header batch;
              committee.RakSig := committee.cb_RakSig batch;
              committee.StorageReceipt :=
                Some (committee.sr_Signature signedReceipt) |}.
Proof.
  intros Hst Hblk Hedge epoch Hcommit Hsign Hpublish. subst epoch. split.
  - unfold committee.proposeBatchLocked.
    rewrite (bind_eq _ _ n n n []) by reflexivity.
    rewrite Hst, Hblk. cbv zeta.
    rewrite (bind_eq _ _ n tt n [committee.EvApplyBatch (committee.applyOpsOf batch blk)])
      by reflexivity.
    rewrite Hcommit, Hsign.
    rewrite (bind_eq _ _ n tt n [committee.EvPublishComputeFinished sc commit])
      by reflexivity.
    rewrite Hpublish.
    rewrite (bind_eq _ _ _ _ _ _
               (transitionLocked_allowed (committee.StateWaitingForFinalize start) n
                  ltac:(rewrite Hst; exact Hedge))).
    destruct (committee.IsMergeMember _), (committee.hasMergeNode n); reflexivity.
  - unfold committee.commitToStorage in Hcommit.
    destruct (committee.Storage_ApplyBatch _) as [signedReceipt|]; [|done].
    destruct (committee.SignedReceipt_Open _) as [receipt|]; [|done].
    destruct (committee.ComputeBody_VerifyStorageReceipt _ _); [|done].
    injection Hcommit as <-. by exists signedReceipt.
Qed.

Lemma proposeBatchLocked_success_witness :
  ∃ commit,
    @committee.proposeBatchLocked (fixtures.toyCommitteeDeps true true true)
      fixtures.computed1 fixtures.nodeProcessing
      = Done (tt, committee.set_state fixtures.nodeProcessing
                    (committee.StateWaitingForFinalize 1000),
              [committee.EvApplyBatch
                 [ {| committee.op_Root := 0%N; committee.op_ExpectedNewRoot := 31%N;
                      committee.op_WriteLog := [] |};
                   {| committee.op_Root := 13%N; committee.op_ExpectedNewRoot := 32%N;
                      committee.op_WriteLog := [] |} ];
               committee.EvPublishComputeFinished None commit;
               committee.EvStateTransition (committee.StateWaitingForFinalize 1000);
               committee.EvBumpReselect;
               committee.EvHandleResultsFromComputeWorker None commit]).
Proof.
  eexists.
  refine (proj1 (@proposeBatchLocked_success fixtures.toyBlockDeps
            (fixtures.toyCommitteeDeps true true true) fixtures.nodeProcessing
            fixtures.computed1 fixtures.batch1 None 1000 0%nat
            {| block.Header_ := fixtures.header1 |} _ _ _ _ _ _ _ _));
    try reflexivity.
  vm_compute. set_solver.
Defined.

(** X17. [proposeBatchLocked] asserts that the node is processing a batch.
    When a new block has aborted the batch, a batch result that the worker
    then takes from the result channel makes the assertion panic, while the
    nil result of a closed channel is ignored: the batch is not aborted a
    second time. *)
Theorem stale_batch_result `{block.Deps} `{committee.Deps}
    (n : committee.Node) (blk : block.Block) (batch : committee.ComputedBatch)
    (b : committee.Batch) (sc : committee.SpanContext) (start : Time) (proc : nat) :
  committee.state n = committee.StateProcessingBatch b sc start proc →
  committee.edge committee.ProcessingBatch committee.WaitingForFinalize →
  (committee.HandleNewBlockEarlyLocked blk;;
   committee.workerBatchDone (Some batch)) n
    = Panic "interface conversion: NodeState is not StateProcessingBatch" ∧
  (committee.HandleNewBlockEarlyLocked blk;; committee.workerBatchDone None) n
    = Done (tt, committee.set_state n (committee.StateWaitingForFinalize start),
            [committee.EvCancel proc;
             committee.EvStateTransition (committee.StateWaitingForFinalize start);
             committee.EvBumpReselect]).
Proof.
  intros Hst Hedge. unfold committee.HandleNewBlockEarlyLocked.
  pose proof (abortBatchLocked_processing n errSeenNewerBlock b sc start proc Hst Hedge)
    as Habort.
  split; rewrite (bind_eq _ _ _ _ _ _ Habort); reflexivity.
Qed.

Lemma stale_batch_result_witness :
  (@committee.HandleNewBlockEarlyLocked (fixtures.toyCommitteeDeps true true true)
     {| block.Header_ := fixtures.header2 |};;
   @committee.workerBatchDone (fixtures.toyCommitteeDeps true true true)
     (Some fixtures.computed1)) fixtures.nodeProcessing
    = Panic "interface conversion: NodeState is not StateProcessingBatch".
Proof.
  apply (@stale_batch_result fixtures.toyBlockDeps
           (fixtures.toyCommitteeDeps true true true) fixtures.nodeProcessing
           {| block.Header_ := fixtures.header2 |} fixtures.computed1
           fixtures.batch1 None 1000 0%nat); [reflexivity|].
  vm_compute. set_solver.
Defined.

(** X18. [HandleNewEventLocked] does something in one case only: the event
    is a compute discrepancy, the node is waiting for an event and it is a
    backup worker.  Then it starts processing the batch it kept, on the
    current block; in every other case the node and its trace are
    untouched. *)
Theorem HandleNewEventLocked_spec `{block.Deps} `{committee.Deps}
    (n : committee.Node) (ev : committee.RoothashEvent) :
  (committee.ComputeDiscrepancyDetected ev = None ∨
   committee.Name (committee.state n) ≠ committee.WaitingForEvent ∨
   committee.IsComputeBackupWorker
     (committee.Group_EpochSnapshot (committee.commonNode n)) = false →
   committee.HandleNewEventLocked ev n = Done (tt, n, [])) ∧
  (∀ batch sc blk,
     is_Some (committee.ComputeDiscrepancyDetected ev) →
     committee.state n = committee.StateWaitingForEvent batch sc →
     committee.IsComputeBackupWorker
       (committee.Group_EpochSnapshot (committee.commonNode n)) = true →
     committee.CurrentBlock (committee.commonNode n) = Some blk →
     committee.edge committee.WaitingForEvent committee.ProcessingBatch →
     committee.HandleNewEventLocked ev n
       = Done (tt,
               committee.set_state
                 (committee.set_nextProc n (S (committee.nextProc n)))
                 (committee.StateProcessingBatch batch sc committee.Now
                    (committee.nextProc n)),
               [committee.EvStateTransition
                  (committee.StateProcessingBatch batch sc committee.Now
                     (committee.nextProc n));
                committee.EvBumpReselect;
                committee.EvMakeRequest (committee.nextProc n)
                  (committee.byzantineMaybeInjectDiscrepancy batch) blk])).
Proof.
  split.
  - intros Hcase. unfold committee.HandleNewEventLocked.
    destruct (committee.ComputeDiscrepancyDetected ev) as [dis|]; [|reflexivity].
    rewrite (bind_eq _ _ n n n []) by reflexivity.
    destruct Hcase as [Hnone|[Hname|Hbackup]]; [done| |].
    + by destruct (committee.state n).
    + destruct (committee.state n); try reflexivity. by rewrite Hbackup.
  - intros batch sc blk [dis Hdis] Hst Hbackup Hblk Hedge.
    unfold committee.HandleNewEventLocked. rewrite Hdis.
    rewrite (bind_eq _ _ n n n []) by reflexivity.
    rewrite Hst, Hbackup. simpl.
    unfold committee.startProcessingBatchLocked.
    rewrite (bind_eq _ _ n n n []) by reflexivity.
    rewrite Hblk.
    rewrite (bind_eq _ _ n tt (committee.set_nextProc n (S (committee.nextProc n))) [])
      by reflexivity.
    rewrite (bind_eq _ _ _ _ _ _
               (transitionLocked_allowed
                  (committee.StateProcessingBatch batch sc committee.Now
                     (committee.nextProc n))
                  (committee.set_nextProc n (S (committee.nextProc n)))
                  ltac:(simpl; rewrite Hst; exact Hedge))).
    reflexivity.
Qed.

Lemma HandleNewEventLocked_spec_witness :
  ∃ n' tr,
    @committee.HandleNewEventLocked (fixtures.toyCommitteeDeps true true true)
      {| committee.ComputeDiscrepancyDetected := Some 42%N |}
      fixtures.nodeWaitingForEvent = Done (tt, n', tr) ∧
    committee.state n' = committee.StateProcessingBatch fixtures.batch1 None 1000 0%nat.
Proof.
  eexists _, _. split.
  - refine (proj2 (@HandleNewEventLocked_spec fixtures.toyBlockDeps
              (fixtures.toyCommitteeDeps true true true) fixtures.nodeWaitingForEvent
              {| committee.ComputeDiscrepancyDetected := Some 42%N |})
              fixtures.batch1 None {| block.Header_ := fixtures.header1 |}
              _ _ _ _ _); try reflexivity; [by eexists|].
    vm_compute. set_solver.
  - reflexivity.
Defined.

(** X19. [HandlePeerMessage] changes the node only when it reports the
    message as handled: whenever it returns an error, or [false] for a
    message without a batch dispatch, the node is exactly as before and
    nothing was broadcast or started.  A dispatch whose header is for
    another runtime is refused with the incompatible-header error, and one
    that arrives while the node is not waiting for a batch with the
    incorrect-state error. *)
Theorem HandlePeerMessage_rejection `{block.Deps} `{committee.Deps}
    (sc : committee.SpanContext) (message : committee.Message)
    (n n' : committee.Node) (r : result Error bool) (tr : list committee.Event) :
  committee.HandlePeerMessage sc message n = Done (r, n', tr) →
  (r ≠ Ok true → n' = n ∧ tr = []) ∧
  (∀ batch hdr,
     committee.LeaderBatchDispatch message = Some (batch, hdr) →
     (block.Namespace_ hdr ≠ committee.RuntimeID (committee.commonNode n) →
      r = Err errIncomatibleHeader) ∧
     (block.Namespace_ hdr = committee.RuntimeID (committee.commonNode n) →
      committee.Name (committee.state n) ≠ committee.WaitingForBatch →
      r = Err errIncorrectState)).
Proof.
  unfold committee.HandlePeerMessage.
  destruct (committee.LeaderBatchDispatch message) as [[batch hdr]|].
  2:{ intros [= <- <- <-]. split; [done|]. by intros ? ? [=]. }
  intros Hrun.
  apply bind_Done in Hrun as (r0 & n1 & tr1 & tr2 & Hq & Hret & ->).
  assert (tr2 = [] ∧ n' = n1 ∧
          r = match r0 with Err err => Err err | Ok _ => Ok true end)
    as (-> & -> & ->) by (by destruct r0; injection Hret as <- <- <-).
  rewrite app_nil_r. unfold committee.queueBatchBlocking in Hq.
  apply bind_Done in Hq as (n0 & n2 & tr0 & tr3 & [= <- <- <-] & Hq & ->).
  simpl. destruct (N.eqb_spec (block.Namespace_ hdr)
                     (committee.RuntimeID (committee.commonNode n))) as [Hns|Hns];
    simpl in Hq.
  - split.
    + intros Hr. destruct r0 as [[]|err]; [done|].
      by apply handleExternalBatchLocked_Err in Hq.
    + intros ? ? [= <- <-]. split; [done|]. intros _ Hname.
      unfold committee.handleExternalBatchLocked in Hq.
      apply bind_Done in Hq as (? & ? & ? & ? & [= <- <- <-] & Hq & ->).
      destruct (committee.state n); try (by injection Hq as <- _ _).
      by destruct Hname.
  - injection Hq as <- <- <-. split; [done|].
    intros ? ? [= <- <-]. split; [done|]. by intros ?.
Qed.

Lemma HandlePeerMessage_rejection_witness :
  @committee.HandlePeerMessage fixtures.toyBlockDeps
    (fixtures.toyCommitteeDeps true true true) None
    {| committee.LeaderBatchDispatch := Some (fixtures.batch1, fixtures.header1) |}
    fixtures.nodeProcessing
    = Done (Err errIncorrectState, fixtures.nodeProcessing, []) ∧
  (Err errIncorrectState ≠ Ok true →
   fixtures.nodeProcessing = fixtures.nodeProcessing ∧ @nil committee.Event = []).
Proof.
  split; [reflexivity|].
  apply (@HandlePeerMessage_rejection fixtures.toyBlockDeps
           (fixtures.toyCommitteeDeps true true true) None
           {| committee.LeaderBatchDispatch :=
                Some (fixtures.batch1, fixtures.header1) |}
           fixtures.nodeProcessing fixtures.nodeProcessing
           (Err errIncorrectState) []).
  reflexivity.
Defined.

(** X20. A batch that is ahead of the node waits for its block.  A compute
    worker that is waiting for a batch and receives, from a peer, a batch
    on a header of a later round than its current block keeps the batch;
    when the common node has moved to a block whose header mostly equals
    that header and calls the new-block hooks, the node starts processing
    the kept batch on the new block.  The two transitions are assumed to be
    in the table. *)
Theorem batch_waits_for_block `{block.Deps} `{committee.Deps}
    (n : committee.Node) (batch : committee.Batch) (sc : committee.SpanContext)
    (hdr : block.Header) (blk blk' : block.Block) (c' : committee.CommonNode) :
  committee.state n = committee.StateWaitingForBatch →
  committee.CurrentBlock (committee.commonNode n) = Some blk →
  committee.IsComputeMember
    (committee.Group_EpochSnapshot (committee.commonNode n)) = true →
  block.Namespace_ hdr = committee.RuntimeID (committee.commonNode n) →
  block.MostlyEqual (block.Header_ blk) hdr = false →
  block.Round (block.Header_ blk) < block.Round hdr →
  committee.CurrentBlock c' = Some blk' →
  committee.IsComputeBackupWorker (committee.Group_EpochSnapshot c') = false →
  block.MostlyEqual (block.Header_ blk') hdr = true →
  committee.edge committee.WaitingForBatch committee.WaitingForBlock →
  committee.edge committee.WaitingForBlock committee.ProcessingBatch →
  ∃ n' tr,
    committee.runAll
      [committee.OpPeerMessage sc
         {| committee.LeaderBatchDispatch := Some (batch, hdr) |};
       committee.OpCommonNodeUpdate c';
       committee.OpNewBlockEarly blk';
       committee.OpNewBlock blk'] n = Done (tt, n', tr) ∧
    committee.state n'
      = committee.StateProcessingBatch batch sc committee.Now (committee.nextProc n) ∧
    tr = [committee.EvStateTransition (committee.StateWaitingForBlock batch sc hdr);
          committee.EvBumpReselect;
          committee.EvStateTransition
            (committee.StateProcessingBatch batch sc committee.Now
               (committee.nextProc n));
          committee.EvBumpReselect;
          committee.EvMakeRequest (committee.nextProc n)
            (committee.byzantineMaybeInjectDiscrepancy batch) blk'].
Proof.
  intros Hst Hblk Hmember Hns Hneq Hround Hblk' Hbackup Heq Hwb Hbp.
  set (n1 := committee.set_state n (committee.StateWaitingForBlock batch sc hdr)).
  set (n2 := committee.set_commonNode n1 c').
  assert (committee.HandlePeerMessage sc
            {| committee.LeaderBatchDispatch := Some (batch, hdr) |} n
          = Done (Ok true, n1,
                  [committee.EvStateTransition
                     (committee.StateWaitingForBlock batch sc hdr);
                   committee.EvBumpReselect])) as Hpeer.
  { unfold committee.HandlePeerMessage, committee.queueBatchBlocking. simpl.
    eff_unfold. rewrite Hns, N.eqb_refl. simpl.
    unfold committee.handleExternalBatchLocked. eff_unfold.
    rewrite Hst, Hmember, Hblk, Hneq. simpl.
    replace (block.Round (block.Header_ blk) >=? block.Round hdr) with false
      by (symmetry; rewrite Z.geb_leb; apply Z.leb_gt; lia).
    rewrite transitionLocked_allowed by (rewrite Hst; exact Hwb).
    reflexivity. }
  assert (committee.HandleNewBlockLocked blk' n2
          = Done (tt,
                  committee.set_state
                    (committee.set_nextProc n2 (S (committee.nextProc n)))
                    (committee.StateProcessingBatch batch sc committee.Now
                       (committee.nextProc n)),
                  [committee.EvStateTransition
                     (committee.StateProcessingBatch batch sc committee.Now
                        (committee.nextProc n));
                   committee.EvBumpReselect;
                   committee.EvMakeRequest (committee.nextProc n)
                     (committee.byzantineMaybeInjectDiscrepancy batch) blk'])) as Hnew.
  { unfold committee.HandleNewBlockLocked.
    rewrite (bind_eq _ _ n2 n2 n2 []) by reflexivity.
    simpl. rewrite Heq.
    unfold committee.maybeStartProcessingBatchLocked.
    rewrite (bind_eq _ _ n2 n2 n2 []) by reflexivity.
    simpl. rewrite Hbackup.
    unfold committee.startProcessingBatchLocked.
    rewrite (bind_eq _ _ n2 n2 n2 []) by reflexivity.
    simpl. rewrite Hblk'.
    rewrite (bind_eq _ _ n2 tt (committee.set_nextProc n2 (S (committee.nextProc n))) [])
      by reflexivity.
    rewrite (bind_eq _ _ _ _ _ _
               (transitionLocked_allowed
                  (committee.StateProcessingBatch batch sc committee.Now
                     (committee.nextProc n))
                  (committee.set_nextProc n2 (S (committee.nextProc n)))
                  ltac:(simpl; exact Hbp))).
    reflexivity. }
  eexists _, _. split; [|split; [|reflexivity]].
  - simpl committee.runAll.
    rewrite (bind_eq _ _ n tt n1
               [committee.EvStateTransition
                  (committee.StateWaitingForBlock batch sc hdr);
                committee.EvBumpReselect])
      by (simpl; rewrite (bind_eq _ _ _ _ _ _ Hpeer); reflexivity).
    rewrite (bind_eq _ _ n1 tt n2 []) by reflexivity.
    rewrite (bind_eq _ _ n2 tt n2 []) by reflexivity.
    rewrite (bind_eq _ _ _ _ _ _ Hnew).
    reflexivity.
  - reflexivity.
Qed.

Lemma batch_waits_for_block_witness :
  ∃ n' tr,
    @committee.runAll fixtures.toyBlockDeps (fixtures.toyCommitteeDeps true true true)
      [committee.OpPeerMessage None
         {| committee.LeaderBatchDispatch := Some (fixtures.batch1, fixtures.header2) |};
       committee.OpCommonNodeUpdate
         (fixtures.commonNodeAt fixtures.header2 fixtures.primaryWorker);
       committee.OpNewBlockEarly {| block.Header_ := fixtures.header2 |};
       committee.OpNewBlock {| block.Header_ := fixtures.header2 |}]
      (fixtures.nodeWaiting fixtures.primaryWorker) = Done (tt, n', tr) ∧
    committee.state n'
      = committee.StateProcessingBatch fixtures.batch1 None 1000 0%nat.
Proof.
  destruct (@batch_waits_for_block fixtures.toyBlockDeps
              (fixtures.toyCommitteeDeps true true true)
              (fixtures.nodeWaiting fixtures.primaryWorker) fixtures.batch1 None
              fixtures.header2 {| block.Header_ := fixtures.header1 |}
              {| block.Header_ := fixtures.header2 |}
              (fixtures.commonNodeAt fixtures.header2 fixtures.primaryWorker))
    as (n' & tr & Hrun & Hst & _);
    [reflexivity .. | vm_compute; set_solver | vm_compute; set_solver | ].
  by exists n', tr.
Defined.

(** ** More properties of [txpool.go] *)
Section pool_initialization.
Import txpool.
Context `{D : txpool.Deps}.

Lemma same_init_refl (t : txPool) : same_init t t.
Proof. by repeat split. Qed.

Lemma same_init_trans (t1 t2 t3 : txPool) :
  same_init t1 t2 → same_init t2 t3 → same_init t1 t3.
Proof.
  intros (Hi1 & Hb1 & Hs1) (Hi2 & Hb2 & Hs2).
  split; [congruence|]. split; [congruence|]. by rewrite Hs2.
Qed.

Lemma initialized_same_init (t t' : txPool) :
  initialized t → same_init t t' → initialized t'.
Proof.
  intros [Hinit Hblk] (Hi & Hb & Hs). split.
  - by rewrite Hi, Hs.
  - rewrite Hb, Hs. exact Hblk.
Qed.

(** The calls that always return. *)
Lemma submitTx_total (rawTx : Bytes) (meta : TransactionMeta)
    (notifyCh : option Chan) (t : txPool) :
  ∃ r t', submitTx rawTx meta notifyCh t = Done (r, t', []) ∧ same_init t t' ∧
          seenCache t' = seenCache t ∧ scheduler t' = scheduler t.
Proof.
  unfold submitTx. rewrite (bind_eq _ _ t t t []) by reflexivity.
  destruct (_ && _); [by eexists _, t; repeat split|].
  destruct (checkTxQueue_Add _ _) as [q|err]; [|by eexists _, t; repeat split].
  eff_unfold. simpl. eexists _, _. by repeat split.
Qed.

Lemma SubmitTx_submit_total (rawTx : Bytes) (meta : TransactionMeta) (t : txPool) :
  ∃ r t' tr, SubmitTx_submit rawTx meta t = Done (r, t', tr) ∧ same_init t t'.
Proof.
  unfold SubmitTx_submit. rewrite (bind_eq _ _ t t t []) by reflexivity.
  rewrite (bind_eq _ _ t tt (set_nextChan t (S (nextChan t))) []) by reflexivity.
  destruct (submitTx_total rawTx meta (Some (nextChan t))
              (set_nextChan t (S (nextChan t)))) as (r & t' & Hrun & Hsame & _).
  rewrite (bind_eq _ _ _ _ _ _ Hrun).
  destruct r as [[]|err]; eff_unfold; simpl; eexists _, _, _; (split; [reflexivity|]);
    exact Hsame.
Qed.

Lemma updateScheduler_total (bi : BlockInfo) (t : txPool) :
  ∃ r t' tr, updateScheduler bi t = Done (r, t', tr) ∧
    blockInfo t' = blockInfo t ∧
    ((initCh t = true ↔ is_Some (scheduler t)) →
     (initCh t' = true ↔ is_Some (scheduler t'))) ∧
    (is_Some (scheduler t) → is_Some (scheduler t')) ∧
    (r = Ok tt → is_Some (scheduler t')).
Proof.
  unfold updateScheduler. eff_unfold. simpl.
  destruct (scheduler t) as [s|] eqn:Hs.
  - destruct (negb _); simpl; eexists _, _, _; (split; [reflexivity|]); simpl;
      rewrite ?Hs; repeat split; try done; try (intros; by eexists);
      intros _; match goal with Hiff : _ ↔ _ |- _ => apply Hiff; by eexists end.
  - destruct (scheduling_New _ _ _) as [sched|err]; simpl;
      eexists _, _, _; (split; [reflexivity|]); simpl;
      rewrite ?Hs; repeat split; try done; try (intros; by eexists);
      match goal with Hiff : _ ↔ _ |- _ => apply Hiff end.
Qed.

Lemma ProcessBlock_total (bi : BlockInfo) (t : txPool) :
  ∃ r t' tr, ProcessBlock bi t = Done (r, t', tr) ∧
             (initialized t → initialized t').
Proof.
  unfold ProcessBlock. rewrite (bind_eq _ _ t t t []) by reflexivity.
  destruct (bool_decide (blockInfo t = None) || _) eqn:Hcond.
  - destruct (updateScheduler_total bi t) as (r & t1 & tr1 & Hrun & Hbi & Hinit & Hs & Hok).
    destruct r as [[]|err].
    + rewrite (bind_eq _ _ t (Ok tt) (set_epoCh t1 true) (tr1 ++ []))
        by (rewrite (bind_eq _ _ _ _ _ _ Hrun); reflexivity).
      eff_unfold. simpl.
      destruct (_ >? _); eexists _, _, _; (split; [reflexivity|]);
        intros [Hi Hb]; (split; simpl; [by apply Hinit | intros _; by apply Hok]).
    + rewrite (bind_eq _ _ t (Err (ErrWrap "failed to update scheduler" err)) t1
                 (tr1 ++ []))
        by (rewrite (bind_eq _ _ _ _ _ _ Hrun); reflexivity).
      eff_unfold. simpl. eexists _, _, _. split; [reflexivity|].
      intros [Hi Hb]. split; [by apply Hinit|]. rewrite Hbi. intros ?. by apply Hs, Hb.
  - apply orb_false_iff in Hcond as [Hnone _].
    apply bool_decide_eq_false in Hnone.
    eff_unfold. simpl.
    destruct (_ >? _); eexists _, _, _; (split; [reflexivity|]);
      intros [Hi Hb]; (split; simpl; [done|]); intros _; apply Hb;
      by destruct (blockInfo t); [eexists|].
Qed.

Lemma UpdateWeightLimits_total (limits : gmap Weight Z) (t : txPool) :
  ∃ r t' tr, UpdateWeightLimits limits t = Done (r, t', tr) ∧ same_init t t'.
Proof.
  unfold UpdateWeightLimits. eff_unfold. simpl.
  destruct (scheduler t) as [s|] eqn:Hs; simpl.
  - eexists _, _, _. split; [reflexivity|].
    repeat split; simpl; try done; rewrite ?Hs; intros; by eexists.
  - eexists _, _, _. split; [reflexivity|]. apply same_init_refl.
Qed.

Lemma Clear_total (t : txPool) :
  ∃ t', Clear t = Done (tt, t', []) ∧ same_init t t'.
Proof.
  unfold Clear. eff_unfold. simpl. eexists. split; [reflexivity|].
  repeat split; simpl; try done; destruct (scheduler t); simpl; try done;
    intros; by eexists.
Qed.

Lemma recheckAll_total (txs : list CheckedTransaction) (t : txPool) :
  ∃ t', recheckAll txs t = Done (tt, t', []) ∧ same_init t t' ∧
        seenCache t' = seenCache t ∧ scheduler t' = scheduler t.
Proof.
  revert t. induction txs as [|tx txs IH]; intros t.
  - exists t. by repeat split.
  - simpl.
    destruct (submitTx_total (Raw tx)
                {| Local := false; Discard := false; Recheck := true |} None t)
      as (r & t1 & Hrun & Hsame & Hseen & Hsched).
    rewrite (bind_eq _ _ _ _ _ _ Hrun).
    destruct (IH t1) as (t' & -> & Hsame' & Hseen' & Hsched').
    exists t'. split; [reflexivity|]. split; [by eapply same_init_trans|].
    split; congruence.
Qed.

Lemma republishTx_total (force : bool) (interval : Z) (tx : CheckedTransaction)
    (t : txPool) :
  ∃ t' tr, republishTx force interval tx t = Done (tt, t', tr) ∧
           same_init t t' ∧ scheduler t' = scheduler t ∧
           (force = true → tr = [EvPublishTx (Raw tx)]) ∧
           (∀ e, e ∈ tr → e = EvPublishTx (Raw tx)).
Proof.
  unfold republishTx. rewrite (bind_eq _ _ t t t []) by reflexivity.
  destruct force; simpl.
  - destruct (PublishTx (Raw tx)); eff_unfold; simpl; eexists _, _;
      (split; [reflexivity|]); repeat split; try done;
      by intros ev ->%list_elem_of_singleton.
  - destruct (match Peek _ _ with Some ts => _ | None => false end).
    + eexists _, _. split; [reflexivity|]. repeat split; try done.
      intros ev Hev. by apply not_elem_of_nil in Hev.
    + destruct (PublishTx (Raw tx)); eff_unfold; simpl; eexists _, _;
        (split; [reflexivity|]); repeat split; try done;
        by intros ev ->%list_elem_of_singleton.
Qed.

Lemma republishAll_total (force : bool) (interval : Z)
    (txs : list CheckedTransaction) (t : txPool) :
  ∃ t' tr, republishAll force interval txs t = Done (tt, t', tr) ∧
           same_init t t' ∧ scheduler t' = scheduler t ∧
           (force = true → tr = EvPublishTx <$> (Raw <$> txs)) ∧
           (∀ e, e ∈ tr → ∃ tx, tx ∈ txs ∧ e = EvPublishTx (Raw tx)).
Proof.
  revert t. induction txs as [|tx txs IH]; intros t.
  - exists t, []. repeat split; try done.
    intros e He. by apply not_elem_of_nil in He.
  - simpl.
    destruct (republishTx_total force interval tx t)
      as (t1 & tr1 & Hrun & Hsame & Hsched & Hforce & Hev).
    rewrite (bind_eq _ _ _ _ _ _ Hrun).
    destruct (IH t1) as (t' & tr2 & -> & Hsame' & Hsched' & Hforce' & Hev').
    exists t', (tr1 ++ tr2). split; [reflexivity|].
    split; [by eapply same_init_trans|]. split; [congruence|]. split.
    + intros Hf. by rewrite Hforce, Hforce'.
    + intros e [He|He]%elem_of_app.
      * exists tx. split; [apply list_elem_of_here | by apply Hev].
      * destruct (Hev' e He) as (tx' & Hin & ->).
        exists tx'. split; [by apply list_elem_of_further | done].
Qed.

(** The calls that need the scheduler. *)
Lemma RemoveTxBatch_Done (txs : list Hash) (t t' : txPool) u tr :
  RemoveTxBatch txs t = Done (u, t', tr) →
  same_init t t' ∧ checkTxQueue_ t' = checkTxQueue_ t ∧ seenCache t' = seenCache t ∧
  ∃ s, scheduler t = Some s ∧ scheduler t' = Some (Scheduler_RemoveTxBatch s txs) ∧
       tr = [EvRemoveTxBatch txs].
Proof.
  unfold RemoveTxBatch. rewrite (bind_eq _ _ t t t []) by reflexivity.
  destruct (scheduler t) as [s|] eqn:Hs; [|done].
  eff_unfold. simpl. intros [= <- <-].
  split; [repeat split; simpl; try done; intros; by eexists|].
  split; [done|]. split; [done|]. by exists s.
Qed.

Lemma queueChecked_Done (tx : CheckedTransaction) (local : bool) (t t' : txPool)
    u tr :
  queueChecked tx local t = Done (u, t', tr) →
  same_init t t' ∧ checkTxQueue_ t' = checkTxQueue_ t.
Proof.
  unfold queueChecked. rewrite (bind_eq _ _ t t t []) by reflexivity.
  destruct (scheduler t) as [s|] eqn:Hs; [|done].
  destruct (Scheduler_QueueTx s tx) as [s'|err].
  - destruct local; [destruct (PublishTx (Raw tx))|]; eff_unfold; simpl;
      intros [= <- <-]; repeat split; simpl; try done; intros; by eexists.
  - eff_unfold. simpl. intros [= <- <-]. split; [apply same_init_refl | done].
Qed.

Lemma queueAll_Done (txs : list CheckedTransaction) (isLocal : list bool)
    (t t' : txPool) u tr :
  queueAll txs isLocal t = Done (u, t', tr) →
  same_init t t' ∧ checkTxQueue_ t' = checkTxQueue_ t.
Proof.
  revert isLocal t tr. induction txs as [|tx txs IH]; intros isLocal t tr.
  - intros [= <- <-]. split; [apply same_init_refl | done].
  - destruct isLocal as [|local isLocal]; [done|]. simpl. intros Hrun.
    apply bind_Done in Hrun as ([] & t1 & tr1 & tr2 & H1 & H2 & ->).
    apply queueChecked_Done in H1 as [Hs1 Hq1].
    apply IH in H2 as [Hs2 Hq2].
    split; [by eapply same_init_trans | congruence].
Qed.

Lemma checkResults_state (batch : list pendingTx) (results : list CheckTxResult)
    (t t' : txPool) acc tr :
  checkResults batch results t = Done (acc, t', tr) → t' = t.
Proof.
  destruct (decide (length results ≤ length batch)%nat) as [Hlen|Hlen].
  - rewrite checkResults_run by done. by intros [= _ <- _].
  - rewrite checkResults_too_many by lia. done.
Qed.

Lemma checkTxBatch_Done (t t' : txPool) u (tr : list Event) :
  checkTxBatch t = Done (u, t', tr) → same_init t t'.
Proof.
  intros Hrun.
  destruct (checkTxQueue_GetBatch (checkTxQueue_ t)) as [|item0 batch0] eqn:Hbatch.
  { unfold checkTxBatch in Hrun. rewrite (bind_eq _ _ t t t []) in Hrun by reflexivity.
    rewrite Hbatch in Hrun. injection Hrun as <- <-. apply same_init_refl. }
  destruct (blockInfo t) as [bi|] eqn:Hbi.
  2:{ unfold checkTxBatch in Hrun. rewrite (bind_eq _ _ t t t []) in Hrun by reflexivity.
      rewrite Hbatch in Hrun. unfold getCurrentBlockInfo in Hrun. rewrite Hbi in Hrun.
      injection Hrun as <- <-. apply same_init_refl. }
  destruct (CheckTx bi (Tx <$> checkTxQueue_GetBatch (checkTxQueue_ t)))
    as [results|err] eqn:Hcheck.
  2:{ rewrite (checkTxBatch_CheckTx_error t bi err) in Hrun;
        [|by unfold getCurrentBlockInfo; rewrite Hbi|done].
      injection Hrun as <- <-. apply same_init_refl. }
  rewrite (checkTxBatch_checked t bi results) in Hrun;
    [|by rewrite Hbatch|done|done].
  apply bind_Done in Hrun as ([[txs isLocal] unschedule] & t1 & tr1 & tr2 & H1 & H2 & ->).
  apply checkResults_state in H1 as ->.
  apply bind_Done in H2 as ([] & t2 & tr3 & tr4 & H2 & H3 & ->).
  apply RemoveTxBatch_Done in H2 as (Hs2 & _).
  assert (same_init t2 t') as Hs3.
  { destruct (length txs =? 0)%nat.
    - injection H3 as <- <-. apply same_init_refl.
    - apply bind_Done in H3 as ([] & t3 & tr5 & tr6 & H3 & H4 & ->).
      apply queueAll_Done in H3 as [Hs3 _].
      eff_unfold. simpl in H4. by injection H4 as <- <-. }
  eapply same_init_trans; [|exact Hs3].
  eapply same_init_trans; [|exact Hs2].
  by repeat split.
Qed.

Lemma afterInit_Done (round : Eff txPool Event unit) (t t' : txPool) u tr :
  (∀ t' u tr, round t = Done (u, t', tr) → same_init t t') →
  afterInit round t = Done (u, t', tr) → same_init t t'.
Proof.
  intros Hround. unfold afterInit. rewrite (bind_eq _ _ t t t []) by reflexivity.
  destruct (initCh t).
  - destruct (round t) as [[[u' t1] tr1]|] eqn:Hr; [|done].
    intros [= <- <- <-]. by eapply Hround.
  - intros [= <- <-]. apply same_init_refl.
Qed.

Lemma run_initialized (op : Op) (t t' : txPool) (tr : list Event) :
  initialized t → run op t = Done (tt, t', tr) → initialized t'.
Proof.
  intros Hinit. destruct op; simpl.
  - destruct (SubmitTx_submit_total rawTx meta t) as (r & t1 & tr1 & Hrun & Hsame).
    rewrite (bind_eq _ _ _ _ _ _ Hrun). intros [= <- <-].
    by eapply initialized_same_init.
  - unfold SubmitTxNoWait.
    destruct (submitTx_total rawTx meta None t) as (r & t1 & Hrun & Hsame & _).
    rewrite (bind_eq _ _ _ _ _ _ Hrun). intros [= <- <-].
    by eapply initialized_same_init.
  - intros Hrun. apply RemoveTxBatch_Done in Hrun as [Hsame _].
    by eapply initialized_same_init.
  - destruct (ProcessBlock_total bi t) as (r & t1 & tr1 & Hrun & Hkeep).
    rewrite (bind_eq _ _ _ _ _ _ Hrun). intros [= <- <-]. by apply Hkeep.
  - destruct (UpdateWeightLimits_total limits t) as (r & t1 & tr1 & Hrun & Hsame).
    rewrite (bind_eq _ _ _ _ _ _ Hrun). intros [= <- <-].
    by eapply initialized_same_init.
  - by intros [= <- <-].
  - destruct (Clear_total t) as (t1 & Hrun & Hsame). rewrite Hrun.
    intros [= <- <-]. by eapply initialized_same_init.
  - intros Hrun. eapply initialized_same_init; [done|].
    eapply afterInit_Done; [|exact Hrun]. intros ? ? ?. apply checkTxBatch_Done.
  - intros Hrun. eapply initialized_same_init; [done|].
    eapply afterInit_Done; [|exact Hrun]. intros t1 u tr1.
    unfold recheckWorker_round. rewrite (bind_eq _ _ t t t []) by reflexivity.
    destruct (scheduler t) as [s|]; [|done].
    destruct (recheckAll_total (Scheduler_GetTransactions s 0) t)
      as (t2 & -> & Hsame & _).
    by intros [= <- <-].
  - intros Hrun. eapply initialized_same_init; [done|].
    eapply afterInit_Done; [|exact Hrun]. intros t1 u tr1.
    unfold republishWorker_round. rewrite (bind_eq _ _ t t t []) by reflexivity.
    destruct (scheduler t) as [s|]; [|done].
    destruct (length _ =? 0)%nat; [intros [= <- <-]; apply same_init_refl|].
    destruct (republishAll_total force
                (republishIntervalOf (cfg t) minRepublishInterval)
                (Scheduler_GetTransactions s 0) t)
      as (t2 & tr2 & -> & Hsame & _).
    by intros [= <- <-].
Qed.

Lemma runAll_initialized (ops : list Op) (t t' : txPool) (tr : list Event) :
  initialized t → runAll ops t = Done (tt, t', tr) → initialized t'.
Proof.
  revert t tr. induction ops as [|op ops IH]; intros t tr Hinit.
  - by intros [= <- <-].
  - simpl. intros Hrun.
    apply bind_Done in Hrun as ([] & t1 & tr1 & tr2 & H1 & H2 & ->).
    eapply IH; [|exact H2]. by eapply run_initialized.
Qed.

Lemma New_initialized (cfg : Config) : initialized (New cfg).
Proof.
  split; simpl; [split; [done | by intros [? ?]] | by intros [? ?]].
Qed.

End pool_initialization.

(** X21. Through every sequence of calls of the pool's interface and rounds
    of its workers that returns, a pool made by [New] stays consistent about
    its initialization: [initCh] is closed exactly when the scheduler
    exists, and a block is recorded only when the scheduler exists. *)
Theorem pool_stays_initialized `{txpool.Deps} (cfg : txpool.Config)
    (ops : list txpool.Op) (t' : txpool.txPool) (tr : list txpool.Event) :
  txpool.runAll ops (txpool.New cfg) = Done (tt, t', tr) →
  txpool.initialized t'.
Proof. apply runAll_initialized, New_initialized. Qed.

Lemma pool_stays_initialized_witness :
  ∃ t' tr,
    @txpool.runAll (fixtures.toyPoolDeps true)
      [txpool.OpSubmitTxNoWait fixtures.txGood fixtures.metaPlain;
       txpool.OpCheck;
       txpool.OpProcessBlock (fixtures.blockInfoOf fixtures.header1 "simple");
       txpool.OpCheck]
      (txpool.New fixtures.toyConfig) = Done (tt, t', tr) ∧
    txpool.scheduledHashes t' = [fixtures.toyNewFromBytes fixtures.txGood] ∧
    txpool.initialized t'.
Proof.
  eexists _, _. split; [vm_compute; reflexivity|]. split; [vm_compute; reflexivity|].
  eapply (@pool_stays_initialized (fixtures.toyPoolDeps true) fixtures.toyConfig
            [txpool.OpSubmitTxNoWait fixtures.txGood fixtures.metaPlain;
             txpool.OpCheck;
             txpool.OpProcessBlock (fixtures.blockInfoOf fixtures.header1 "simple");
             txpool.OpCheck]).
  vm_compute. reflexivity.
Defined.



(** X23. [UpdateWeightLimits] on a pool with a scheduler: afterwards every
    weight of [limits] has its new limit, a custom weight that [limits]
    does not have has none, and every other weight keeps the limit it had;
    the scheduler is given exactly these limits.  Before the first block
    (no scheduler) the call returns nil and records nothing. *)
Theorem UpdateWeightLimits_spec (limits : gmap txpool.Weight Z)
    (t : txpool.txPool) :
  (txpool.scheduler t = None →
   txpool.UpdateWeightLimits limits t = Done (Ok tt, t, [])) ∧
  (∀ s, txpool.scheduler t = Some s →
     ∃ t',
       txpool.UpdateWeightLimits limits t
         = Done (Ok tt, t',
                 [txpool.EvUpdateParameters (txpool.sched_Name s)
                    (txpool.roundWeightLimits t')]) ∧
       (∀ w, txpool.roundWeightLimits t' !! w
             = match limits !! w with
               | Some l => Some l
               | None => if txpool.IsCustom w then None
                         else txpool.roundWeightLimits t !! w
               end) ∧
       (txpool.sched_weightLimits <$> txpool.scheduler t')
         = Some (txpool.roundWeightLimits t') ∧
       (txpool.sched_queue <$> txpool.scheduler t') = Some (txpool.sched_queue s)).
Proof.
  split.
  - intros Hs. unfold txpool.UpdateWeightLimits. eff_unfold. by rewrite Hs.
  - intros s Hs. unfold txpool.UpdateWeightLimits. eff_unfold. rewrite Hs. simpl.
    match goal with |- ∃ t', Done (_, ?x, _) = _ ∧ _ => exists x end.
    split; [reflexivity|]. simpl. split; [|done].
    intros w. destruct (limits !! w) as [l|] eqn:Hl.
    + rewrite lookup_union_l' by (by rewrite Hl). done.
    + rewrite lookup_union_r by done.
      destruct (txpool.IsCustom w) eqn:Hcustom.
      * apply map_lookup_filter_None. right. intros x _ Hkeep. simpl in Hkeep.
        by apply Hkeep.
      * destruct (txpool.roundWeightLimits t !! w) as [x|] eqn:Hw.
        -- apply map_lookup_filter_Some. split; [done|]. simpl.
           intros [Hc _]. congruence.
        -- apply map_lookup_filter_None. by left.
Qed.

Lemma UpdateWeightLimits_spec_witness :
  ∃ t',
    txpool.UpdateWeightLimits
      {[ txpool.WeightCustom "gas" := 7 ]} (fixtures.poolWith [] [] [])
      = Done (Ok tt, t',
              [txpool.EvUpdateParameters "simple" (txpool.roundWeightLimits t')]) ∧
    txpool.roundWeightLimits t' !! txpool.WeightCustom "gas" = Some 7 ∧
    txpool.roundWeightLimits t' !! txpool.WeightCount = Some 1000.
Proof.
  destruct (proj2 (UpdateWeightLimits_spec
                     {[ txpool.WeightCustom "gas" := 7 ]} (fixtures.poolWith [] [] []))
              (fixtures.toyScheduler []) eq_refl) as (t' & Hrun & Hlookup & _).
  exists t'. split; [exact Hrun|]. rewrite !Hlookup. split; reflexivity.
Defined.

(** X24. When the runtime host answers [CheckTx] with more results than the
    batch has transactions, [checkTxBatch] panics on [batch[i]] (index out
    of range): the batch has already left the check queue, and nothing is
    queued for scheduling. *)
Theorem checkTxBatch_too_many_results `{txpool.Deps} (t : txpool.txPool)
    (bi : txpool.BlockInfo) (results : list txpool.CheckTxResult) :
  let batch := txpool.checkTxQueue_GetBatch (txpool.checkTxQueue_ t) in
  batch ≠ [] → txpool.blockInfo t = Some bi →
  txpool.CheckTx bi (txpool.Tx <$> batch) = Ok results →
  (length batch < length results)%nat →
  txpool.checkTxBatch t = Panic "index out of range".
Proof.
  intros batch Hne Hbi Hcheck Hlen.
  rewrite (checkTxBatch_checked t bi results) by done.
  unfold mbind, Eff_bind, eff_bind.
  by rewrite checkResults_too_many.
Qed.

Lemma checkTxBatch_too_many_results_witness :
  @txpool.checkTxBatch fixtures.talkativePoolDeps
    (fixtures.poolWith [] [fixtures.pendingOf fixtures.txGood fixtures.metaPlain None] [])
    = Panic "index out of range".
Proof.
  apply (@checkTxBatch_too_many_results fixtures.talkativePoolDeps
           (fixtures.poolWith []
              [fixtures.pendingOf fixtures.txGood fixtures.metaPlain None] [])
           (fixtures.blockInfoOf fixtures.header1 "simple")
           (fixtures.toyCheck <$> [[]; fixtures.txGood]));
    [done | reflexivity | reflexivity | simpl; lia].
Defined.

Section pool_rechecks.
Import txpool.
Context `{D : txpool.Deps}.

(** The first loop of [checkTxBatch] on rechecks only: nothing is queued,
    the failed ones are unscheduled. *)
Lemma sortAll_rechecks (prs : list (pendingTx * CheckTxResult)) :
  Forall (λ pr, Recheck (Meta pr.1) = true) prs →
  sortAll prs
    = ([], [], omap (λ pr, if IsSuccess pr.2 then None else Some (TxHash pr.1)) prs).
Proof.
  induction prs as [|[item res] prs IH]; [done|].
  intros [Hre Hall]%Forall_cons. simpl in Hre.
  change (sortAll ((item, res) :: prs)) with (sortChecked item res (sortAll prs)).
  rewrite IH by done. unfold sortChecked. rewrite Hre. simpl.
  destruct (IsSuccess res); simpl; [|done].
  by rewrite orb_true_r.
Qed.

(** A recheck is queued whatever the seen cache holds, unless the check
    queue has it already or is full. *)
Lemma submitTx_recheck (rawTx : Bytes) (notifyCh : option Chan) (t : txPool) :
  ∃ r t' l,
    submitTx rawTx {| Local := false; Discard := false; Recheck := true |} notifyCh t
      = Done (r, t', []) ∧
    seenCache t' = seenCache t ∧ scheduler t' = scheduler t ∧
    maxSize (checkTxQueue_ t') = maxSize (checkTxQueue_ t) ∧
    queue (checkTxQueue_ t') = queue (checkTxQueue_ t) ++ l ∧
    (NewFromBytes rawTx ∈ TxHash <$> queue (checkTxQueue_ t') ∨
     (maxSize (checkTxQueue_ t') ≤ length (queue (checkTxQueue_ t')))%nat).
Proof.
  unfold submitTx. rewrite (bind_eq _ _ t t t []) by reflexivity.
  simpl. rewrite andb_false_r. unfold checkTxQueue_Add. simpl.
  destruct (hasHash _ _) eqn:Hdup.
  - eexists _, t, []. split; [reflexivity|]. do 3 (split; [done|]).
    split; [by rewrite app_nil_r|]. left. by apply hasHash_iff.
  - destruct (maxSize (checkTxQueue_ t) <=? length (queue (checkTxQueue_ t)))%nat
      eqn:Hfull.
    + eexists _, t, []. split; [reflexivity|]. do 3 (split; [done|]).
      split; [by rewrite app_nil_r|]. right. by apply Nat.leb_le.
    + eff_unfold. simpl. eexists _, _, _. split; [reflexivity|]. simpl.
      do 3 (split; [done|]). split; [reflexivity|].
      left. rewrite fmap_app. apply elem_of_app. right. simpl.
      apply list_elem_of_here.
Qed.

Lemma recheckAll_queued (txs : list CheckedTransaction) (t : txPool) :
  ∃ t' l,
    recheckAll txs t = Done (tt, t', []) ∧
    seenCache t' = seenCache t ∧ scheduler t' = scheduler t ∧
    maxSize (checkTxQueue_ t') = maxSize (checkTxQueue_ t) ∧
    queue (checkTxQueue_ t') = queue (checkTxQueue_ t) ++ l ∧
    ∀ tx, tx ∈ txs →
      NewFromBytes (Raw tx) ∈ TxHash <$> queue (checkTxQueue_ t') ∨
      (maxSize (checkTxQueue_ t') ≤ length (queue (checkTxQueue_ t')))%nat.
Proof.
  revert t. induction txs as [|tx txs IH]; intros t.
  - exists t, []. split; [reflexivity|]. do 3 (split; [done|]).
    split; [by rewrite app_nil_r|].
    intros tx Hin. by apply not_elem_of_nil in Hin.
  - simpl.
    destruct (submitTx_recheck (Raw tx) None t)
      as (r & t1 & l1 & Hrun & Hseen1 & Hsched1 & Hmax1 & Hq1 & Hin1).
    rewrite (bind_eq _ _ _ _ _ _ Hrun).
    destruct (IH t1) as (t' & l2 & -> & Hseen2 & Hsched2 & Hmax2 & Hq2 & Hin2).
    exists t', (l1 ++ l2). split; [reflexivity|].
    split; [congruence|]. split; [congruence|]. split; [congruence|].
    split; [by rewrite Hq2, Hq1, app_assoc|].
    intros tx' [->|Hin]%elem_of_cons; [|by apply Hin2].
    rewrite Hq2, Hmax2, fmap_app, length_app.
    destruct Hin1 as [Hin1|Hfull]; [left | right; lia].
    apply elem_of_app. by left.
Qed.

End pool_rechecks.

(** X25. A check cycle over rechecks only does nothing but remove: when
    every transaction of the batch is a recheck, the cycle sends the
    results to the waiting callers, removes from the scheduling queue the
    transactions whose check failed, and that is all; no transaction is
    queued or published, nothing is broadcast to the subscribers, and the
    seen cache is as before. *)
Theorem checkTxBatch_recheck_only_removes `{txpool.Deps} (t : txpool.txPool)
    (bi : txpool.BlockInfo) (s : txpool.Scheduler)
    (results : list txpool.CheckTxResult) :
  let batch := txpool.checkTxQueue_GetBatch (txpool.checkTxQueue_ t) in
  let prs := zip batch results in
  let failed :=
    omap (λ pr, if txpool.IsSuccess pr.2 then None else Some (txpool.TxHash pr.1))
      prs in
  batch ≠ [] → txpool.blockInfo t = Some bi → txpool.scheduler t = Some s →
  txpool.CheckTx bi (txpool.Tx <$> batch) = Ok results →
  (length results ≤ length batch)%nat →
  Forall (λ tx, txpool.Recheck (txpool.Meta tx) = true) batch →
  txpool.checkTxBatch t
    = Done (tt,
            txpool.set_scheduler
              (txpool.set_checkTxQueue t
                 (txpool.checkTxQueue_RemoveBatch (txpool.checkTxQueue_ t) batch))
              (Some (txpool.Scheduler_RemoveTxBatch s failed)),
            txpool.notifications prs ++ [txpool.EvRemoveTxBatch failed]).
Proof.
  intros batch prs failed Hne Hbi Hs Hcheck Hlen Hre.
  rewrite (checkTxBatch_checked t bi results) by done.
  rewrite (bind_eq _ _ _ _ _ _ (checkResults_run _ results _ Hlen)).
  fold batch. fold prs.
  rewrite sortAll_rechecks.
  2:{ apply Forall_forall. intros [item res] Hin.
      apply elem_of_zip_l in Hin. rewrite Forall_forall in Hre. by apply Hre. }
  fold failed. unfold txpool.RemoveTxBatch. eff_unfold. simpl. rewrite Hs. simpl.
  reflexivity.
Qed.

Lemma checkTxBatch_recheck_only_removes_witness :
  let t0 := fixtures.poolWith
              [(fixtures.toyNewFromBytes fixtures.txBad, 4000)]
              [fixtures.pendingOf fixtures.txBad fixtures.metaRecheck None]
              [fixtures.checkedOf fixtures.txBad] in
  ∃ t',
    @txpool.checkTxBatch (fixtures.toyPoolDeps true) t0
      = Done (tt, t', [txpool.EvRemoveTxBatch [fixtures.toyNewFromBytes fixtures.txBad]]) ∧
    txpool.scheduledHashes t' = [] ∧
    txpool.seenCache t' = txpool.seenCache t0.
Proof.
  cbv zeta. eexists. split.
  - refine (@checkTxBatch_recheck_only_removes (fixtures.toyPoolDeps true)
              (fixtures.poolWith
                 [(fixtures.toyNewFromBytes fixtures.txBad, 4000)]
                 [fixtures.pendingOf fixtures.txBad fixtures.metaRecheck None]
                 [fixtures.checkedOf fixtures.txBad])
              (fixtures.blockInfoOf fixtures.header1 "simple")
              (fixtures.toyScheduler [fixtures.checkedOf fixtures.txBad])
              [fixtures.toyCheck fixtures.txBad] _ _ _ _ _ _);
      [done | reflexivity | reflexivity | reflexivity | simpl; lia |].
    repeat constructor.
  - split; reflexivity.
Defined.

(** X26. A round of the recheck worker submits every scheduled transaction
    for a new check although all of them are in the seen cache: afterwards
    each one is in the check queue, unless the queue is full.  The round
    sends nothing and leaves the seen cache and the scheduling queue as
    they are. *)
Theorem recheckWorker_round_queues_scheduled `{txpool.Deps} (t : txpool.txPool)
    (s : txpool.Scheduler) :
  txpool.scheduler t = Some s →
  ∃ t',
    txpool.recheckWorker_round t = Done (tt, t', []) ∧
    txpool.seenCache t' = txpool.seenCache t ∧
    txpool.scheduler t' = Some s ∧
    ∀ tx, tx ∈ txpool.sched_queue s →
      txpool.NewFromBytes (txpool.Raw tx)
        ∈ txpool.TxHash <$> txpool.queue (txpool.checkTxQueue_ t') ∨
      (txpool.maxSize (txpool.checkTxQueue_ t')
         ≤ length (txpool.queue (txpool.checkTxQueue_ t')))%nat.
Proof.
  intros Hs. unfold txpool.recheckWorker_round.
  rewrite (bind_eq _ _ t t t []) by reflexivity. rewrite Hs.
  destruct (recheckAll_queued (txpool.Scheduler_GetTransactions s 0) t)
    as (t' & l & -> & Hseen & Hsched & _ & _ & Hin).
  exists t'. split; [reflexivity|]. split; [done|]. split; [congruence|]. exact Hin.
Qed.

Lemma recheckWorker_round_queues_scheduled_witness :
  let t0 := fixtures.poolWith
              [(fixtures.toyNewFromBytes fixtures.txGood, 4000)] []
              [fixtures.checkedOf fixtures.txGood] in
  ∃ t',
    @txpool.recheckWorker_round (fixtures.toyPoolDeps true) t0 = Done (tt, t', []) ∧
    txpool.TxHash <$> txpool.queue (txpool.checkTxQueue_ t')
      = [fixtures.toyNewFromBytes fixtures.txGood] ∧
    txpool.seenCache t' = txpool.seenCache t0.
Proof.
  cbv zeta.
  destruct (@recheckWorker_round_queues_scheduled (fixtures.toyPoolDeps true)
              (fixtures.poolWith
                 [(fixtures.toyNewFromBytes fixtures.txGood, 4000)] []
                 [fixtures.checkedOf fixtures.txGood])
              (fixtures.toyScheduler [fixtures.checkedOf fixtures.txGood]) eq_refl)
    as (t' & Hrun & Hseen & _).
  exists t'. split; [exact Hrun|]. split; [|exact Hseen].
  vm_compute in Hrun. injection Hrun as <-. reflexivity.
Defined.

(** X27. A round of the republish worker publishes scheduled transactions
    only and leaves the scheduling queue alone; a forced round (after an
    epoch transition) publishes every scheduled transaction, in the order
    of the queue, whatever the seen cache holds and whatever
    [MaxRepublishBatchSize] is. *)
Theorem republishWorker_round_publishes `{txpool.Deps} (t : txpool.txPool)
    (s : txpool.Scheduler) (force : bool) (minRepublishInterval : Z) :
  txpool.scheduler t = Some s →
  ∃ t' tr,
    txpool.republishWorker_round force minRepublishInterval t = Done (tt, t', tr) ∧
    txpool.scheduler t' = Some s ∧
    (∀ e, e ∈ tr → ∃ tx, tx ∈ txpool.sched_queue s ∧
                         e = txpool.EvPublishTx (txpool.Raw tx)) ∧
    (force = true →
     tr = txpool.EvPublishTx <$> (txpool.Raw <$> txpool.sched_queue s)).
Proof.
  intros Hs. unfold txpool.republishWorker_round.
  rewrite (bind_eq _ _ t t t []) by reflexivity. rewrite Hs. cbv zeta.
  change (txpool.Scheduler_GetTransactions s 0) with (txpool.sched_queue s).
  destruct (txpool.sched_queue s) as [|tx0 txs0] eqn:Hq.
  - exists t, []. repeat split; try done.
    intros e He. by apply not_elem_of_nil in He.
  - change (length (tx0 :: txs0) =? 0)%nat with false. cbv iota.
    destruct (republishAll_total force
                (txpool.republishIntervalOf (txpool.cfg t) minRepublishInterval)
                (tx0 :: txs0) t) as (t' & tr & -> & _ & Hsched & Hforce & Hev).
    exists t', tr. split; [reflexivity|]. split; [congruence|]. split; done.
Qed.

Lemma republishWorker_round_publishes_witness :
  ∃ t',
    @txpool.republishWorker_round (fixtures.toyPoolDeps true) true 10
      (fixtures.poolWith
         [(fixtures.toyNewFromBytes fixtures.txGood, 4999)] []
         [fixtures.checkedOf fixtures.txGood])
      = Done (tt, t', [txpool.EvPublishTx fixtures.txGood]).
Proof.
  destruct (@republishWorker_round_publishes (fixtures.toyPoolDeps true)
              (fixtures.poolWith
                 [(fixtures.toyNewFromBytes fixtures.txGood, 4999)] []
                 [fixtures.checkedOf fixtures.txGood])
              (fixtures.toyScheduler [fixtures.checkedOf fixtures.txGood])
              true 10 eq_refl) as (t' & tr & Hrun & _ & _ & Hforce).
  exists t'. rewrite Hrun. by rewrite (Hforce eq_refl).
Defined.

